(** * facemesh_filter: the sunglasses overlay pipeline

    A shallow embedding of [src/facemesh_filter.py]: the overlay asset
    loader ([load_sunglasses_with_alpha]), the alpha compositor
    ([overlay_image_alpha]), the rotate-and-scale step
    ([rotate_and_scale_image]) and the per-face transform parameters
    computed in [main].

    Conventions.
    - A numpy array of shape (h, w, c) is a record holding its shape and its
      rows; a row is a list of pixels and a pixel is the list of its channel
      values (B, G, R and, when present, A).
    - float64 arithmetic is IEEE binary64, computed by the [SpecFloat]
      operations of the standard library at precision 53.
    - Python exceptions are results of type [outcome].
    - The frame that [overlay_image_alpha] writes to lives in a store of
      array objects, because the function mutates it in place.
    - numpy's and OpenCV's transcendental and resampling routines
      ([arctan2], [degrees], [getRotationMatrix2D], [warpAffine]) are
      library code. The rotate-and-scale step is embedded twice: once with
      these routines given their documented real-number meaning, which
      always returns, and once in binary64 as the interpreter runs
      lines 85 to 92, with the routines as parameters ([libraries]) and with
      the exceptions that [int()] and [cv2.warpAffine] can raise. *)

From Stdlib Require Import ZArith List Lia Reals Lra Floats.SpecFloat.
From stdpp Require Import base list gmap.
Import ListNotations.

Local Open Scope Z_scope.

(** ** Exceptions *)

Inductive exn : Type :=
| IndexError   (* index out of range for an axis or a shape tuple *)
| ValueError   (* operands could not be broadcast together; int() of NaN *)
| OverflowError (* int() of an infinity *)
| CvError      (* an OpenCV assertion failed *)
| BadRef.      (* no array object at this address *)

Inductive outcome (A : Type) : Type :=
| Ret (a : A)
| Raise (e : exn).
Arguments Ret {A} a.
Arguments Raise {A} e.

#[global] Instance outcome_ret : MRet outcome := @Ret.
#[global] Instance outcome_bind : MBind outcome :=
  λ A B f m, match m with Ret a => f a | Raise e => Raise e end.

(** ** Arrays *)

Record ndarr (A : Type) : Type := NdArr {
  shape_h : nat;
  shape_w : nat;
  shape_c : nat;
  data : list (list (list A))
}.
Arguments NdArr {A} _ _ _ _.
Arguments shape_h {A} _.
Arguments shape_w {A} _.
Arguments shape_c {A} _.
Arguments data {A} _.

(** An 8-bit image: [image.shape == (shape_h, shape_w, shape_c)]. *)
Abbreviation image := (ndarr Z).

(** What [cv2.imdecode(..., IMREAD_UNCHANGED)] hands back when it succeeds:
    a two-dimensional array for a grayscale file, a three-dimensional one
    otherwise. *)
Inductive ndarray : Type :=
| Arr2 (h w : nat) (d : list (list Z))
| Arr3 (img : image).

(** The [shape] tuple of a decoded array. *)
Definition shape (a : ndarray) : list nat :=
  match a with
  | Arr2 h w _ => [h; w]
  | Arr3 img => [shape_h img; shape_w img; shape_c img]
  end.

(** [t[i]] on a tuple. *)
Definition tuple_index (t : list nat) (i : nat) : outcome nat :=
  match t !! i with
  | Some n => Ret n
  | None => Raise IndexError
  end.

(** The data agrees with the shape. *)
Definition wf_shape {A} (a : ndarr A) : Prop :=
  length (data a) = shape_h a ∧
  Forall (λ row, length row = shape_w a ∧
                 Forall (λ px : list A, length px = shape_c a) row) (data a).

(** Every stored value is a byte ([dtype == uint8]). *)
Definition is_uint8 (a : image) : Prop :=
  Forall (Forall (Forall (λ v, 0 ≤ v < 256))) (data a).

(** [a[r][c]], when in range. *)
Definition pixel_at {A} (a : ndarr A) (r c : nat) : option (list A) :=
  data a !! r ≫= λ row, row !! c.

(** ** The overlay asset loader *)

(** [cv2.cvtColor(img, cv2.COLOR_BGR2BGRA)]: a fourth channel, fully opaque. *)
Definition cvtColor_BGR2BGRA (img : image) : image :=
  NdArr (shape_h img) (shape_w img) 4 (map (map (λ px, px ++ [255])) (data img)).

(** [img[:, :, :3]] *)
Definition first3 (img : image) : image :=
  NdArr (shape_h img) (shape_w img) (Nat.min 3 (shape_c img))
        (map (map (take 3)) (data img)).

(** OpenCV's 8-bit luminance: Y = 0.299 R + 0.587 G + 0.114 B in 15-bit
    fixed point, rounded to nearest. *)
Definition bgr2gray (px : list Z) : Z :=
  match px with
  | [b; g; r] => Z.shiftr (b * 3735 + g * 19235 + r * 9798 + 16384) 15
  | _ => 0
  end.

(** [cv2.cvtColor(a, cv2.COLOR_BGR2GRAY)]; OpenCV asserts that the input has
    three or four channels, and ignores the fourth. *)
Definition cvtColor_BGR2GRAY (a : image) : outcome (list (list Z)) :=
  if (shape_c a =? 3)%nat || (shape_c a =? 4)%nat
  then Ret (map (map (λ px, bgr2gray (take 3 px))) (data a))
  else Raise CvError.

(** [gray > 240] *)
Definition brightness_threshold : Z := 240.
Definition gt_threshold (gray : list (list Z)) : list (list bool) :=
  map (map (λ v, brightness_threshold <? v)) gray.

(** [img[:, :, 3]] as a value. *)
Definition channel3 (img : image) : outcome (list (list Z)) :=
  if (3 <? shape_c img)%nat then Ret (map (map (λ px, nth 3 px 0)) (data img))
  else Raise IndexError.

(** [np.where(mask, 0, 255)] *)
Definition where_0_255 (mask : list (list bool)) : list (list Z) :=
  map (map (λ m : bool, if m then 0 else 255)) mask.

(** [np.where(mask, 0, old)] *)
Definition where_0_else (mask : list (list bool)) (old : list (list Z))
  : list (list Z) :=
  zip_with (zip_with (λ (m : bool) v, if m then 0 else v)) mask old.

(** [.astype(np.uint8)] on an integer array. *)
Definition astype_uint8 (a : list (list Z)) : list (list Z) :=
  map (map (λ v, v mod 256)) a.

(** [img[:, :, 3] = vals] *)
Definition set_channel3 (img : image) (vals : list (list Z)) : image :=
  NdArr (shape_h img) (shape_w img) (shape_c img)
        (zip_with (zip_with (λ px v, <[3%nat := v]> px)) (data img) vals).

(** [load_sunglasses_with_alpha], from the result of [cv2.imdecode] on. *)
Definition load_sunglasses_with_alpha (decoded : option ndarray)
  : outcome (option image) :=
  match decoded with
  | None => Ret None
  | Some arr =>
      c ← tuple_index (shape arr) 2;
      match arr with
      | Arr2 _ _ _ => Raise IndexError
      | Arr3 img =>
          if (c =? 3)%nat then
            let img := cvtColor_BGR2BGRA img in
            gray ← cvtColor_BGR2GRAY (first3 img);
            let white_mask := gt_threshold gray in
            Ret (Some (set_channel3 img (astype_uint8 (where_0_255 white_mask))))
          else
            gray ← cvtColor_BGR2GRAY (first3 img);
            let white_mask := gt_threshold gray in
            old ← channel3 img;
            Ret (Some (set_channel3 img (astype_uint8 (where_0_else white_mask old))))
      end
  end.

(** The luminance and transparency of the pixel at (r, c). *)
Definition luminance_at (img : image) (r c : nat) : option Z :=
  (λ px, bgr2gray (take 3 px)) <$> pixel_at img r c.
Definition alpha_at (img : image) (r c : nat) : option Z :=
  pixel_at img r c ≫= λ px, px !! 3%nat.

(** ** binary64 arithmetic *)

Definition b64 : Type := spec_float.
Definition b64_of_Z (z : Z) : b64 := binary_normalize 53 1024 z 0 false.
Definition b64_add : b64 → b64 → b64 := SFadd 53 1024.
Definition b64_sub : b64 → b64 → b64 := SFsub 53 1024.
Definition b64_mul : b64 → b64 → b64 := SFmul 53 1024.
Definition b64_div : b64 → b64 → b64 := SFdiv 53 1024.
Definition b64_sqrt : b64 → b64 := SFsqrt 53 1024.

(** The integer part of a float, toward zero (a C cast to an integer type). *)
Definition b64_trunc (f : b64) : Z :=
  match f with
  | S754_finite s m e =>
      let a := if 0 <=? e then Z.shiftl (Z.pos m) e else Z.shiftr (Z.pos m) (- e) in
      if s then - a else a
  | _ => 0
  end.

(** [.astype(np.uint8)] on a float64 value. *)
Definition f64_to_uint8 (f : b64) : Z := b64_trunc f mod 256.

(** The real number a float stands for (0 for infinities and NaN). *)
Definition B2R (f : b64) : R :=
  match f with
  | S754_finite s m e =>
      let a := (if 0 <=? e then IZR (Z.pos m * 2 ^ e)
                else IZR (Z.pos m) / IZR (2 ^ (- e)))%R in
      if s then (- a)%R else a
  | _ => 0%R
  end.

(** ** Slicing and broadcasting *)

(** Where a slice bound lands on an axis of length [n]: negative bounds count
    from the end, and everything is clamped to the axis. *)
Definition slice_bound (n : nat) (i : Z) : Z :=
  if i <? 0 then Z.max 0 (i + Z.of_nat n) else Z.min i (Z.of_nat n).

Definition slice_len (n : nat) (i j : Z) : nat :=
  Z.to_nat (slice_bound n j - slice_bound n i).

(** [l[i:j]] *)
Definition py_slice {A} (i j : Z) (l : list A) : list A :=
  take (slice_len (length l) i j) (drop (Z.to_nat (slice_bound (length l) i)) l).

(** [a[r1:r2, c1:c2]] *)
Definition slice2 {A} (a : ndarr A) (r1 r2 c1 c2 : Z) : ndarr A :=
  NdArr (slice_len (shape_h a) r1 r2) (slice_len (shape_w a) c1 c2) (shape_c a)
        (map (py_slice c1 c2) (py_slice r1 r2 (data a))).

(** The length of an axis after broadcasting two operands. *)
Definition bdim (n m : nat) : outcome nat :=
  if (n =? m)%nat then Ret n
  else if (n =? 1)%nat then Ret m
  else if (m =? 1)%nat then Ret n
  else Raise ValueError.

(** Pairing along one axis, stretching an operand of length one. *)
Definition bzip {A B C} (f : A → B → C) (l1 : list A) (l2 : list B) : list C :=
  if (length l1 =? length l2)%nat then zip_with f l1 l2
  else match l1, l2 with
       | [a], _ => map (f a) l2
       | _, [b] => map (λ a, f a b) l1
       | _, _ => []
       end.

(** An elementwise binary operator on two arrays. *)
Definition np_binop {A B C} (f : A → B → C) (a : ndarr A) (b : ndarr B)
  : outcome (ndarr C) :=
  h ← bdim (shape_h a) (shape_h b);
  w ← bdim (shape_w a) (shape_w b);
  c ← bdim (shape_c a) (shape_c b);
  Ret (NdArr h w c (bzip (bzip (bzip f)) (data a) (data b))).

(** An elementwise unary operator (or an operator with a scalar). *)
Definition np_map {A B} (f : A → B) (a : ndarr A) : ndarr B :=
  NdArr (shape_h a) (shape_w a) (shape_c a) (map (map (map f)) (data a)).

(** [a2d[:, :, np.newaxis]] for the two-dimensional array of shape (h, w). *)
Definition newaxis {A} (h w : nat) (a2d : list (list A)) : ndarr A :=
  NdArr h w 1 (map (map (λ v, [v])) a2d).

(** Stretch a value axis of length one to the target length. *)
Definition stretch {A} (n : nat) (l : list A) : list A :=
  if (length l =? n)%nat then l
  else match l with [a] => replicate n a | _ => l end.

Definition broadcastable_to (n target : nat) : bool :=
  (n =? target)%nat || (n =? 1)%nat.

(** [a[r1:r2, c1:c2] = v] *)
Definition assign_slice2 (a : image) (r1 r2 c1 c2 : Z) (v : image)
  : outcome image :=
  let th := slice_len (shape_h a) r1 r2 in
  let tw := slice_len (shape_w a) c1 c2 in
  if broadcastable_to (shape_h v) th && broadcastable_to (shape_w v) tw
     && broadcastable_to (shape_c v) (shape_c a)
  then
    let ra := Z.to_nat (slice_bound (shape_h a) r1) in
    let ca := Z.to_nat (slice_bound (shape_w a) c1) in
    let write_row (row : list (list Z)) (vrow : list (list Z)) :=
      take ca row ++ map (stretch (shape_c a)) (stretch tw vrow)
                  ++ drop (ca + tw) row in
    Ret (NdArr (shape_h a) (shape_w a) (shape_c a)
           (take ra (data a)
            ++ zip_with write_row (py_slice r1 r2 (data a)) (stretch th (data v))
            ++ drop (ra + th) (data a)))
  else Raise ValueError.

(** ** The alpha compositor *)

(** The store of array objects. *)
Definition addr : Type := positive.
Abbreviation store := (gmap addr image).

Definition deref (σ : store) (l : addr) : outcome image :=
  match σ !! l with
  | Some a => Ret a
  | None => Raise BadRef
  end.

(** The clipped rectangles computed on lines 46 to 61. *)
Record region : Type := Region {
  x1 : Z; y1 : Z; x2 : Z; y2 : Z;
  overlay_x1 : Z; overlay_y1 : Z; overlay_x2 : Z; overlay_y2 : Z
}.

(** [None] is one of the two early returns. *)
Definition clip_region (bg_w bg_h w h x y : Z) : option region :=
  if (bg_w <=? x) || (bg_h <=? y) then None
  else if (x + w <=? 0) || (y + h <=? 0) then None
  else
    let x1 := Z.max 0 x in
    let y1 := Z.max 0 y in
    let x2 := Z.min bg_w (x + w) in
    let y2 := Z.min bg_h (y + h) in
    let overlay_x1 := x1 - x in
    let overlay_y1 := y1 - y in
    let overlay_x2 := overlay_x1 + (x2 - x1) in
    let overlay_y2 := overlay_y1 + (y2 - y1) in
    Some (Region x1 y1 x2 y2 overlay_x1 overlay_y1 overlay_x2 overlay_y2).

(** [overlay[...] / 255.0] on one value. *)
Definition alpha_of (a : Z) : b64 := b64_div (b64_of_Z a) (b64_of_Z 255).

(** [overlay_image_alpha(background, overlay, x, y)]. The arguments are the
    addresses of the two arrays; the result is the new store and the address
    returned. *)
Definition overlay_image_alpha (σ : store) (background overlay : addr) (x y : Z)
  : outcome (store * addr) :=
  ov ← deref σ overlay;
  bg ← deref σ background;
  let h := Z.of_nat (shape_h ov) in
  let w := Z.of_nat (shape_w ov) in
  let bg_h := Z.of_nat (shape_h bg) in
  let bg_w := Z.of_nat (shape_w bg) in
  match clip_region bg_w bg_h w h x y with
  | None => Ret (σ, background)
  | Some rg =>
      let ov_roi := slice2 ov (overlay_y1 rg) (overlay_y2 rg)
                              (overlay_x1 rg) (overlay_x2 rg) in
      a ← channel3 ov_roi;
      let alpha := newaxis (shape_h ov_roi) (shape_w ov_roi)
                           (map (map alpha_of) a) in
      let roi := slice2 bg (y1 rg) (y2 rg) (x1 rg) (x2 rg) in
      let overlay_rgb := first3 ov_roi in
      t1 ← np_binop (λ o al, b64_mul (b64_of_Z o) al) overlay_rgb alpha;
      t2 ← np_binop (λ b al, b64_mul (b64_of_Z b) al) roi
                    (np_map (b64_sub (b64_of_Z 1)) alpha);
      s ← np_binop b64_add t1 t2;
      let blended := np_map f64_to_uint8 s in
      bg' ← assign_slice2 bg (y1 rg) (y2 rg) (x1 rg) (x2 rg) blended;
      Ret (<[background := bg']> σ, background)
  end.

(** The blend of one channel value, and of one pixel, as line 71 computes
    it. *)
Definition blend (o a b : Z) : Z :=
  f64_to_uint8
    (b64_add (b64_mul (b64_of_Z o) (alpha_of a))
             (b64_mul (b64_of_Z b) (b64_sub (b64_of_Z 1) (alpha_of a)))).

Definition blend_pixel (ovpx bgpx : list Z) : list Z :=
  zip_with (λ o b, blend o (nth 3 ovpx 0) b) (take 3 ovpx) bgpx.

(** Is the background position (r, c) inside the clipped rectangle? *)
Definition in_region (rg : region) (r c : nat) : bool :=
  (y1 rg <=? Z.of_nat r) && (Z.of_nat r <? y2 rg)
  && (x1 rg <=? Z.of_nat c) && (Z.of_nat c <? x2 rg).

(** ** Transform parameters (the per-face part of [main]) *)

(** A landmark in pixel coordinates, as [to_px] returns it. *)
Definition point : Type := (Z * Z)%type.

(** [np.arctan2(y, x)]: the angle of the vector (x, y), in (-pi, pi]. *)
Definition arctan2 (y x : R) : R :=
  if Rlt_dec 0 x then atan (y / x)
  else if Rlt_dec x 0 then
    (if Rle_dec 0 y then atan (y / x) + PI else atan (y / x) - PI)%R
  else if Rlt_dec 0 y then (PI / 2)%R
  else if Rlt_dec y 0 then (- PI / 2)%R
  else 0%R.

(** [np.degrees] *)
Definition degrees (x : R) : R := (x * (180 / PI))%R.

(** The calibration constant 2.5 *)
Definition calibration : b64 := binary_normalize 53 1024 5 (-1) false.

(** Line 186: the distance between the two iris centres. *)
Definition eye_distance (left_eye_center right_eye_center : point) : b64 :=
  b64_sqrt (b64_of_Z ((right_eye_center.1 - left_eye_center.1) ^ 2
                      + (right_eye_center.2 - left_eye_center.2) ^ 2)).

(** Line 189: the tilt of the line through the two iris centres. *)
Definition angle (left_eye_center right_eye_center : point) : R :=
  degrees (arctan2 (IZR (right_eye_center.2 - left_eye_center.2))
                   (IZR (right_eye_center.1 - left_eye_center.1))).

(** Line 195 *)
Definition scale (left_eye_center right_eye_center : point)
    (original_sunglasses_width : Z) : b64 :=
  b64_div (b64_mul (eye_distance left_eye_center right_eye_center) calibration)
          (b64_of_Z original_sunglasses_width).

(** ** Rotation and scaling *)

(** A 2x3 affine matrix. *)
Record affine : Type := Affine {
  m00 : R; m01 : R; m02 : R;
  m10 : R; m11 : R; m12 : R
}.

(** [cv2.getRotationMatrix2D(center, angle, scale)], angle in degrees. *)
Definition getRotationMatrix2D (center : Z * Z) (angle scale : R) : affine :=
  let a := (scale * cos (angle * PI / 180))%R in
  let b := (scale * sin (angle * PI / 180))%R in
  let cx := IZR center.1 in
  let cy := IZR center.2 in
  Affine a b ((1 - a) * cx - b * cy)%R
         (- b)%R a (b * cx + (1 - a) * cy)%R.

(** Where the matrix sends a point. *)
Definition apply_affine (M : affine) (p : R * R) : R * R :=
  ((m00 M * p.1 + m01 M * p.2 + m02 M)%R, (m10 M * p.1 + m11 M * p.2 + m12 M)%R).

(** [cv2.invertAffineTransform]: [warpAffine] looks up, for every
    destination pixel, the source position the matrix maps onto it. *)
Definition invertAffineTransform (M : affine) : affine :=
  let D := (m00 M * m11 M - m01 M * m10 M)%R in
  let D := if Req_dec_T D 0 then 0%R else (1 / D)%R in
  let A11 := (m11 M * D)%R in
  let A22 := (m00 M * D)%R in
  let i00 := A11 in
  let i01 := (m01 M * - D)%R in
  let i10 := (m10 M * - D)%R in
  let i11 := A22 in
  Affine i00 i01 (- i00 * m02 M - i01 * m12 M)%R
         i10 i11 (- i10 * m02 M - i11 * m12 M)%R.

(** [int(r)]: toward zero. *)
Definition py_int (r : R) : Z :=
  if Rle_dec 0 r then Int_part r else - Int_part (- r).

(** Channel [k] of the source pixel at row [r], column [c];
    [borderValue = (0, 0, 0, 0)] outside the source. *)
Definition src_or_border (img : image) (r c : Z) (k : nat) : Z :=
  if (0 <=? r) && (0 <=? c) then
    default 0 (pixel_at img (Z.to_nat r) (Z.to_nat c) ≫= λ px, px !! k)
  else 0.

(** [INTER_LINEAR]: the four neighbours weighted by the fractional parts. *)
Definition bilinear (img : image) (sx sy : R) (k : nat) : R :=
  let x0 := Int_part sx in
  let y0 := Int_part sy in
  let fx := (sx - IZR x0)%R in
  let fy := (sy - IZR y0)%R in
  ((1 - fx) * (1 - fy) * IZR (src_or_border img y0 x0 k)
   + fx * (1 - fy) * IZR (src_or_border img y0 (x0 + 1) k)
   + (1 - fx) * fy * IZR (src_or_border img (y0 + 1) x0 k)
   + fx * fy * IZR (src_or_border img (y0 + 1) (x0 + 1) k))%R.

(** Rounding to the nearest byte, saturating. OpenCV interpolates in fixed
    point, so the byte it stores can differ by one from this rounding of
    the exact value; the two agree where the sample falls on a pixel. *)
Definition saturate_uint8 (v : R) : Z :=
  Z.max 0 (Z.min 255 (Int_part (v + / 2))).

(** [cv2.warpAffine(img, M, dsize, flags=INTER_LINEAR,
    borderMode=BORDER_CONSTANT, borderValue=(0, 0, 0, 0))], in exact
    arithmetic. An empty [dsize] stands for the size of the source. This is
    the documented meaning of a call that returns; that the call can raise,
    for a size it cannot allocate, is in [cv2_warpAffine] below. *)
Definition warpAffine (img : image) (M : affine) (dsize : Z * Z) : image :=
  let dw := if (dsize.1 <=? 0) || (dsize.2 <=? 0) then shape_w img
            else Z.to_nat dsize.1 in
  let dh := if (dsize.1 <=? 0) || (dsize.2 <=? 0) then shape_h img
            else Z.to_nat dsize.2 in
  let A := invertAffineTransform M in
  NdArr dh dw (shape_c img)
    (map (λ y : nat,
       map (λ x : nat,
         let s := apply_affine A (INR x, INR y) in
         map (λ k, saturate_uint8 (bilinear img s.1 s.2 k)) (seq 0 (shape_c img)))
       (seq 0 dw))
     (seq 0 dh)).

(** The canvas size and the re-centred matrix of lines 78 to 92, in exact
    arithmetic on the documented matrix. [rotation_canvas_f64] below is the
    same computation in binary64, where the two can differ by a pixel. *)
Definition rotation_canvas (h w : Z) (angle scale : R) : (Z * Z) * affine :=
  let center := (w / 2, h / 2) in
  let M := getRotationMatrix2D center angle scale in
  let cos := Rabs (m00 M) in
  let sin := Rabs (m01 M) in
  let new_w := py_int (IZR h * sin + IZR w * cos) in
  let new_h := py_int (IZR h * cos + IZR w * sin) in
  let M := Affine (m00 M) (m01 M) (m02 M + IZR (new_w - w) / 2)%R
                  (m10 M) (m11 M) (m12 M + IZR (new_h - h) / 2)%R in
  ((new_w, new_h), M).

(** [rotate_and_scale_image(img, angle, scale)] under the documented
    meaning of the two OpenCV calls, for a finite angle and scale; the
    error paths are in [rotate_and_scale_image_f64]. *)
Definition rotate_and_scale_image (img : image) (angle scale : R) : image :=
  let h := Z.of_nat (shape_h img) in
  let w := Z.of_nat (shape_w img) in
  let '(dsize, M) := rotation_canvas h w angle scale in
  warpAffine img M dsize.

(** Line 198: the call in [main], for a scale that is a finite number;
    [transformed_sunglasses_f64] below covers the scale that is not. *)
Definition transformed_sunglasses (sunglasses_img : image)
    (left_eye_center right_eye_center : point) : image :=
  let angle := angle left_eye_center right_eye_center in
  let scale := scale left_eye_center right_eye_center
                     (Z.of_nat (shape_w sunglasses_img)) in
  rotate_and_scale_image sunglasses_img (- angle)%R (B2R scale).

(** ** Auxiliary definitions used in the statements *)

(** What the loader makes of one pixel of a three-channel source. *)
Definition alpha_from_bgr (px : list Z) : list Z :=
  px ++ [if brightness_threshold <? bgr2gray px then 0 else 255].

(** What it makes of one pixel that already has a fourth channel. *)
Definition alpha_from_bgra (px : list Z) : list Z :=
  <[3%nat := (if brightness_threshold <? bgr2gray (take 3 px) then 0
              else nth 3 px 0) mod 256]> px.

(** A one-pixel grey source at exactly the threshold. *)
Definition grey240 : image := NdArr 1 1 3 [[[240; 240; 240]]].

(** A dark, half-transparent BGRA pixel. *)
Definition dark_half : image := NdArr 1 1 4 [[[0; 0; 0; 128]]].

(** The decoded array is a well-formed numpy array. *)
Definition wf_ndarray (arr : ndarray) : Prop :=
  match arr with
  | Arr2 h w d => length d = h ∧ Forall (λ row, length row = w) d
  | Arr3 img => wf_shape img
  end.

(** [d[r][c]] on the bare rows. *)
Definition lookup2 {A} (d : list (list A)) (r c : nat) : option A :=
  d !! r ≫= λ row, row !! c.

(** The rows of the frame after the write on line 72, in closed form. *)
Definition composited (bg ov : image) (rg : region) : image :=
  let ra := Z.to_nat (y1 rg) in
  let ca := Z.to_nat (x1 rg) in
  let th := Z.to_nat (y2 rg - y1 rg) in
  let tw := Z.to_nat (x2 rg - x1 rg) in
  let ov_roi := slice2 ov (overlay_y1 rg) (overlay_y2 rg)
                          (overlay_x1 rg) (overlay_x2 rg) in
  let roi := slice2 bg (y1 rg) (y2 rg) (x1 rg) (x2 rg) in
  let blended := zip_with (zip_with blend_pixel) (data ov_roi) (data roi) in
  NdArr (shape_h bg) (shape_w bg) (shape_c bg)
    (take ra (data bg)
     ++ zip_with (λ row vrow, take ca row ++ vrow ++ drop (ca + tw) row)
                 (py_slice (y1 rg) (y2 rg) (data bg)) blended
     ++ drop (ra + th) (data bg)).

(** [P] holds of every integer from 0 up to, and without, [n]. *)
Definition below (n : Z) (P : Z → bool) : bool :=
  forallb P (map Z.of_nat (seq 0 (Z.to_nat n))).

(** [P] holds of every byte value. *)
Definition all_bytes (P : Z → bool) : bool := below 256 P.

(** The float [f] is the integer [d], exactly. *)
Definition b64_is_Z (f : b64) (d : Z) : bool :=
  match f with
  | S754_zero _ => d =? 0
  | S754_finite false m e =>
      if 0 <=? e then Z.pos m * 2 ^ e =? d else Z.pos m =? d * 2 ^ (- e)
  | _ => false
  end.

(** A 2x3 frame and a 2x2 overlay. *)
Definition frame23 : image :=
  NdArr 2 3 3 [[[1; 2; 3]; [4; 5; 6]; [7; 8; 9]];
               [[10; 11; 12]; [13; 14; 15]; [16; 17; 18]]].
Definition overlay22 : image :=
  NdArr 2 2 4 [[[100; 101; 102; 255]; [110; 111; 112; 0]];
               [[120; 121; 122; 128]; [130; 131; 132; 255]]].
Definition store0 : store :=
  <[1%positive := frame23]> (<[2%positive := overlay22]> ∅).

(** ** The frame loop of [main] *)

(** [cv2.flip(image, 1)]: every row reversed. *)
Definition flip_horizontal (img : image) : image :=
  NdArr (shape_h img) (shape_w img) (shape_c img)
        (map (λ row : list (list Z), rev row) (data img)).

(** B and R exchanged, a fourth channel dropped. *)
Definition swap_red_blue (px : list Z) : list Z :=
  match px with
  | c0 :: c1 :: c2 :: _ => [c2; c1; c0]
  | _ => px
  end.

(** A single channel repeated three times. *)
Definition grey_to_colour (px : list Z) : list Z :=
  match px with
  | v :: _ => [v; v; v]
  | [] => px
  end.

(** [cv2.cvtColor(a, cv2.COLOR_BGR2RGB)]: three channels come back, B and R
    exchanged for a source of three or four channels, the one channel
    repeated for a source of one; other channel counts fail OpenCV's
    assertion. *)
Definition cvtColor_BGR2RGB (a : image) : outcome image :=
  if (shape_c a =? 3)%nat || (shape_c a =? 4)%nat
  then Ret (NdArr (shape_h a) (shape_w a) 3 (map (map swap_red_blue) (data a)))
  else if (shape_c a =? 1)%nat
  then Ret (NdArr (shape_h a) (shape_w a) 3 (map (map grey_to_colour) (data a)))
  else Raise CvError.

(** [cv2.cvtColor(a, cv2.COLOR_RGB2BGR)] is the same exchange. *)
Definition cvtColor_RGB2BGR (a : image) : outcome image := cvtColor_BGR2RGB a.

(** A detected landmark: normalized x, y and depth. *)
Record landmark : Type := Landmark { lm_x : b64; lm_y : b64; lm_z : b64 }.

(** What the loop body reads of one detected face: the two iris centres
    (landmarks 468 and 473) in pixel coordinates, as [to_px] returns them, and
    the nose tip (landmark 1). *)
Record face : Type := Face {
  face_left_eye : point;
  face_right_eye : point;
  face_nose : landmark
}.

(** A line written to the console. *)
Inductive line : Type :=
| IgnoredFrame                 (* "Ignoring empty camera frame." *)
| NoseTip (nose_tip : landmark).

(** Lines 201 to 206: the top-left corner that puts the centre of the
    transformed overlay on the midpoint of the two iris centres. *)
Definition sunglasses_position (left_eye_center right_eye_center : point)
    (transformed_sunglasses : image) : Z * Z :=
  let center_x := (left_eye_center.1 + right_eye_center.1) / 2 in
  let center_y := (left_eye_center.2 + right_eye_center.2) / 2 in
  (center_x - Z.of_nat (shape_w transformed_sunglasses) / 2,
   center_y - Z.of_nat (shape_h transformed_sunglasses) / 2).

(** The variables the face loop carries: the store, the frame [image], the
    time of the last nose-tip line and the console so far. *)
Record loop_state : Type := LoopState {
  ls_store : store;
  ls_image : addr;
  ls_last_print_time : b64;
  ls_console : list line
}.

(** [current_time - last_print_time > 1.0] *)
Definition print_due (current_time last_print_time : b64) : bool :=
  SFltb (b64_of_Z 1) (b64_sub current_time last_print_time).

(** Lines 168 to 215: the body of the loop over the detected faces. The
    transformed overlay is a new array object. *)
Definition face_body (sunglasses_img : image) (current_time : b64)
    (s : loop_state) (f : face) : outcome loop_state :=
  let transformed :=
    transformed_sunglasses sunglasses_img (face_left_eye f) (face_right_eye f) in
  let t := fresh (dom (ls_store s)) in
  let σ := <[t := transformed]> (ls_store s) in
  let p := sunglasses_position (face_left_eye f) (face_right_eye f) transformed in
  r ← overlay_image_alpha σ (ls_image s) t p.1 p.2;
  if print_due current_time (ls_last_print_time s)
  then Ret (LoopState r.1 r.2 current_time
                      (ls_console s ++ [NoseTip (face_nose f)]))
  else Ret (LoopState r.1 r.2 (ls_last_print_time s) (ls_console s)).

(** Lines 167 and 168: all faces of one frame, in detection order. *)
Fixpoint faces_loop (sunglasses_img : image) (current_time : b64)
    (s : loop_state) (faces : list face) : outcome loop_state :=
  match faces with
  | [] => Ret s
  | f :: faces =>
      s ← face_body sunglasses_img current_time s f;
      faces_loop sunglasses_img current_time s faces
  end.

(** One turn of the camera loop, as the outside world determines it: whether
    [cap.read()] succeeded, the frame it delivered, the value of
    [time.time()], and the faces the detector reports for the frame. *)
Record capture : Type := Capture {
  cap_success : bool;
  cap_image : image;
  cap_time : b64;
  cap_faces : list face
}.

(** What persists from one turn to the next, and what has been output. *)
Record session : Type := Session {
  se_store : store;
  se_last_print_time : b64;
  se_console : list line;
  se_shown : list image          (* the frames handed to [cv2.imshow] *)
}.

(** Lines 145 to 218: one turn of the camera loop. *)
Definition frame_iteration (sunglasses_img : image) (s : session)
    (cap : capture) : outcome session :=
  if negb (cap_success cap) then
    Ret (Session (se_store s) (se_last_print_time s)
                 (se_console s ++ [IgnoredFrame]) (se_shown s))
  else
    let image := flip_horizontal (cap_image cap) in
    image_rgb ← cvtColor_BGR2RGB image;
    image ← cvtColor_RGB2BGR image_rgb;
    let a := fresh (dom (se_store s)) in
    ls ← faces_loop sunglasses_img (cap_time cap)
          (LoopState (<[a := image]> (se_store s)) a
                     (se_last_print_time s) (se_console s))
          (cap_faces cap);
    shown ← deref (ls_store ls) (ls_image ls);
    Ret (Session (ls_store ls) (ls_last_print_time ls) (ls_console ls)
                 (se_shown s ++ [shown])).

(** The camera loop over the turns taken before the quit key. *)
Fixpoint camera_loop (sunglasses_img : image) (s : session)
    (caps : list capture) : outcome session :=
  match caps with
  | [] => Ret s
  | cap :: caps =>
      s ← frame_iteration sunglasses_img s cap;
      camera_loop sunglasses_img s caps
  end.

(** The session at line 143: nothing stored, printed or shown yet, and
    [last_print_time = 0]. *)
Definition initial_session : session :=
  Session ∅ (S754_zero false) [] [].

(** ** Further definitions used in the statements *)

(** The loader's result in closed form, for every source it accepts. *)
Definition loaded (img : image) : image :=
  if (shape_c img =? 3)%nat
  then NdArr (shape_h img) (shape_w img) 4 (map (map alpha_from_bgr) (data img))
  else NdArr (shape_h img) (shape_w img) (shape_c img)
             (map (map alpha_from_bgra) (data img)).

(** A source with one near-white and one dark pixel, the asset loaded from
    it, and a store holding the 2x3 frame and that asset. *)
Definition white_dark : image := NdArr 1 2 3 [[[250; 250; 250]; [10; 20; 30]]].
Definition white_dark_asset : image :=
  NdArr 1 2 4 [[[250; 250; 250; 0]; [10; 20; 30; 255]]].
Definition store1 : store :=
  <[1%positive := frame23]> (<[2%positive := white_dark_asset]> ∅).

(** A frame as the camera delivers it: a well-formed array of bytes with
    three channels. *)
Definition camera_frame (img : image) : Prop :=
  wf_shape img ∧ is_uint8 img ∧ shape_c img = 3%nat.

(** Two arrays of one shape. *)
Definition same_shape (a b : image) : Prop :=
  shape_h a = shape_h b ∧ shape_w a = shape_w b ∧ shape_c a = shape_c b.

(** The two kinds of console line. *)
Definition is_ignored_frame (l : line) : bool :=
  match l with IgnoredFrame => true | NoseTip _ => false end.
Definition is_nose_tip (l : line) : bool :=
  match l with IgnoredFrame => false | NoseTip _ => true end.

(** A turn whose frame was read and in which a face was detected. *)
Definition has_face (cap : capture) : bool :=
  cap_success cap && match cap_faces cap with [] => false | _ :: _ => true end.

(** The lines one frame adds to the console. *)
Definition nose_line (due : bool) (faces : list face) : list line :=
  match faces with
  | f :: _ => if due then [NoseTip (face_nose f)] else []
  | [] => []
  end.

(** ** The transform as the interpreter runs it *)

(** A 2x3 matrix of float64, as [cv2.getRotationMatrix2D] returns it. *)
Record affine64 : Type := Affine64 {
  f00 : b64; f01 : b64; f02 : b64;
  f10 : b64; f11 : b64; f12 : b64
}.

(** [int(x)] on a float: toward zero; NaN raises ValueError and an infinity
    OverflowError. *)
Definition int_of_float (x : b64) : outcome Z :=
  match x with
  | S754_nan => Raise ValueError
  | S754_infinity _ => Raise OverflowError
  | _ => Ret (b64_trunc x)
  end.

(** [n / 2] on a Python int: the quotient, rounded to the nearest float. *)
Definition half_of_int (n : Z) : b64 := binary_normalize 53 1024 n (-1) false.

(** Lines 85 to 92 in binary64, from the matrix [M] that
    [cv2.getRotationMatrix2D] returned: the canvas size and the matrix
    handed to [cv2.warpAffine]. *)
Definition rotation_canvas_f64 (h w : Z) (M : affine64)
  : outcome ((Z * Z) * affine64) :=
  let cos := SFabs (f00 M) in
  let sin := SFabs (f01 M) in
  new_w ← int_of_float (b64_add (b64_mul (b64_of_Z h) sin)
                                (b64_mul (b64_of_Z w) cos));
  new_h ← int_of_float (b64_add (b64_mul (b64_of_Z h) cos)
                                (b64_mul (b64_of_Z w) sin));
  Ret ((new_w, new_h),
       Affine64 (f00 M) (f01 M) (b64_add (f02 M) (half_of_int (new_w - w)))
                (f10 M) (f11 M) (b64_add (f12 M) (half_of_int (new_h - h)))).

(** The numpy and OpenCV calls of lines 189, 82 and 95. What they return is
    library code and depends on the platform's libm and OpenCV build: it is
    a parameter of the embedding.
    - [np_degrees_arctan2 dy dx] is [np.degrees(np.arctan2(dy, dx))];
    - [cv2_getRotationMatrix2D center angle scale] is the matrix returned;
    - [cv2_warpAffine img M dsize] is [cv2.warpAffine(img, M, dsize,
      flags=INTER_LINEAR, borderMode=BORDER_CONSTANT,
      borderValue=(0, 0, 0, 0))], which can raise [cv2.error]. *)
Record libraries : Type := Libraries {
  np_degrees_arctan2 : Z → Z → b64;
  cv2_getRotationMatrix2D : Z * Z → b64 → b64 → affine64;
  cv2_warpAffine : image → affine64 → Z * Z → outcome image
}.

(** [rotate_and_scale_image(img, angle, scale)], lines 76 to 97. *)
Definition rotate_and_scale_image_f64 (lib : libraries) (img : image)
    (angle scale : b64) : outcome image :=
  let h := Z.of_nat (shape_h img) in
  let w := Z.of_nat (shape_w img) in
  let center := (w / 2, h / 2) in
  let M := cv2_getRotationMatrix2D lib center angle scale in
  r ← rotation_canvas_f64 h w M;
  cv2_warpAffine lib img r.2 r.1.

(** Lines 186 to 198: from the two eye centres to the transformed overlay. *)
Definition transformed_sunglasses_f64 (lib : libraries) (sunglasses_img : image)
    (left_eye_center right_eye_center : point) : outcome image :=
  let angle := np_degrees_arctan2 lib
                 (right_eye_center.2 - left_eye_center.2)
                 (right_eye_center.1 - left_eye_center.1) in
  let scale := scale left_eye_center right_eye_center
                     (Z.of_nat (shape_w sunglasses_img)) in
  rotate_and_scale_image_f64 lib sunglasses_img (SFopp angle) scale.

(** The exact value of a matrix of finite floats. *)
Definition affine_of_f64 (M : affine64) : affine :=
  Affine (B2R (f00 M)) (B2R (f01 M)) (B2R (f02 M))
         (B2R (f10 M)) (B2R (f11 M)) (B2R (f12 M)).

(** The point [p] lies on a pixel of a canvas of size [dsize]: within half a
    pixel of one of its pixel centres. *)
Definition on_canvas (dsize : Z * Z) (p : R * R) : Prop :=
  (- (1 / 2) <= p.1 < IZR dsize.1 - 1 / 2
   ∧ - (1 / 2) <= p.2 < IZR dsize.2 - 1 / 2)%R.

(** Where the matrix sends the centre of the source pixel in column [x] and
    row [y], in exact arithmetic. *)
Definition landing (M : affine64) (x y : Z) : R * R :=
  apply_affine (affine_of_f64 M) (IZR x, IZR y).

(** Nothing is clipped: the matrix sends every pixel centre of an [h] by [w]
    source onto the canvas. *)
Definition asset_within_canvas (h w : Z) (dsize : Z * Z) (M : affine64) : Prop :=
  ∀ x y : Z, 0 ≤ x < w → 0 ≤ y < h → on_canvas dsize (landing M x y).

(** What [cv2.getRotationMatrix2D((1, 1), 180, 1.0)] returns:
    [[-1, 1.2246467991473532e-16, 1.9999999999999998],
     [-1.2246467991473532e-16, -1, 2]]. *)
Definition half_turn_2x2 : affine64 :=
  Affine64 (b64_of_Z (-1))
           (S754_finite false 4967757600021511 (-105))
           (S754_finite false 9007199254740991 (-52))
           (S754_finite true 4967757600021511 (-105))
           (b64_of_Z (-1))
           (b64_of_Z 2).

(** What [cv2.getRotationMatrix2D((5, 1), -180, 1.0)] returns:
    [[-1, -1.2246467991473532e-16, 10],
     [1.2246467991473532e-16, -1, 1.9999999999999993]]. *)
Definition half_turn_2x10 : affine64 :=
  Affine64 (b64_of_Z (-1))
           (S754_finite true 4967757600021511 (-105))
           (b64_of_Z 10)
           (S754_finite false 4967757600021511 (-105))
           (b64_of_Z (-1))
           (S754_finite false 9007199254740989 (-52)).

(** ** The frame loop with a transform that can raise *)

(** [face_body] with the transformed overlay computed by [transform], which
    returns it or raises: lines 168 to 215. *)
Definition face_body_with (transform : point → point → outcome image)
    (current_time : b64) (s : loop_state) (f : face) : outcome loop_state :=
  transformed ← transform (face_left_eye f) (face_right_eye f);
  let t := fresh (dom (ls_store s)) in
  let σ := <[t := transformed]> (ls_store s) in
  let p := sunglasses_position (face_left_eye f) (face_right_eye f) transformed in
  r ← overlay_image_alpha σ (ls_image s) t p.1 p.2;
  if print_due current_time (ls_last_print_time s)
  then Ret (LoopState r.1 r.2 current_time
                      (ls_console s ++ [NoseTip (face_nose f)]))
  else Ret (LoopState r.1 r.2 (ls_last_print_time s) (ls_console s)).

Fixpoint faces_loop_with (transform : point → point → outcome image)
    (current_time : b64) (s : loop_state) (faces : list face)
  : outcome loop_state :=
  match faces with
  | [] => Ret s
  | f :: faces =>
      s ← face_body_with transform current_time s f;
      faces_loop_with transform current_time s faces
  end.

(** Lines 145 to 218 with that face loop. *)
Definition frame_iteration_with (transform : point → point → outcome image)
    (s : session) (cap : capture) : outcome session :=
  if negb (cap_success cap) then
    Ret (Session (se_store s) (se_last_print_time s)
                 (se_console s ++ [IgnoredFrame]) (se_shown s))
  else
    let image := flip_horizontal (cap_image cap) in
    image_rgb ← cvtColor_BGR2RGB image;
    image ← cvtColor_RGB2BGR image_rgb;
    let a := fresh (dom (se_store s)) in
    ls ← faces_loop_with transform (cap_time cap)
          (LoopState (<[a := image]> (se_store s)) a
                     (se_last_print_time s) (se_console s))
          (cap_faces cap);
    shown ← deref (ls_store ls) (ls_image ls);
    Ret (Session (ls_store ls) (ls_last_print_time ls) (ls_console ls)
                 (se_shown s ++ [shown])).

Fixpoint camera_loop_with (transform : point → point → outcome image)
    (s : session) (caps : list capture) : outcome session :=
  match caps with
  | [] => Ret s
  | cap :: caps =>
      s ← frame_iteration_with transform s cap;
      camera_loop_with transform s caps
  end.

(** What the embedding asks of [cv2.warpAffine]: when it returns, the result
    is a well-formed array with as many channels as the source. *)
Definition warpAffine_keeps_channels (lib : libraries) : Prop :=
  ∀ img M dsize out,
    wf_shape img → cv2_warpAffine lib img M dsize = Ret out →
    wf_shape out ∧ shape_c out = shape_c img.

(** The transform raises [e] for the face [f]: at [int()], as ValueError or
    OverflowError, or because [cv2.warpAffine] raised [e]. *)
Definition transform_raises (lib : libraries) (sunglasses_img : image)
    (f : face) (e : exn) : Prop :=
  transformed_sunglasses_f64 lib sunglasses_img
    (face_left_eye f) (face_right_eye f) = Raise e
  ∧ (e = ValueError ∨ e = OverflowError
     ∨ ∃ M dsize, cv2_warpAffine lib sunglasses_img M dsize = Raise e).

(** The eye centres of [f] are pixel coordinates: below 2^29 in size, so
    that the squared distance of line 186 is a machine integer, as
    [np.sqrt] needs it. *)
Definition pixel_coordinates (f : face) : Prop :=
  Z.abs (face_left_eye f).1 < 2 ^ 29 ∧ Z.abs (face_left_eye f).2 < 2 ^ 29
  ∧ Z.abs (face_right_eye f).1 < 2 ^ 29 ∧ Z.abs (face_right_eye f).2 < 2 ^ 29.

(** What a turn of the loop is given: [cap.read()] reports success only
    with a frame that is not empty, and [to_px] makes the eye centres pixel
    coordinates. *)
Definition camera_turn (cap : capture) : Prop :=
  (cap_success cap = true
   → (0 < shape_h (cap_image cap))%nat ∧ (0 < shape_w (cap_image cap))%nat)
  ∧ Forall pixel_coordinates (cap_faces cap).

(** An array of the given shape holding the border value 0 everywhere. *)
Definition blank (h w c : nat) : image :=
  NdArr h w c (replicate h (replicate w (replicate c 0))).

(** A stand-in for the three library calls, to run the loop on concrete
    inputs: every face is upright (the angle is 0.0), the matrix is OpenCV's
    formula at cos = 1 and sin = 0, and the warp returns a canvas of the
    size asked for (of the size of the source when that is empty) holding
    the border value. *)
Definition upright_library : libraries :=
  Libraries
    (λ _ _, S754_zero false)
    (λ center _ scale,
       let α := b64_mul (b64_of_Z 1) scale in
       let β := b64_mul (S754_zero false) scale in
       let cx := b64_of_Z center.1 in
       let cy := b64_of_Z center.2 in
       Affine64 α β (b64_sub (b64_mul (b64_sub (b64_of_Z 1) α) cx) (b64_mul β cy))
                (SFopp β) α
                (b64_add (b64_mul β cx) (b64_mul (b64_sub (b64_of_Z 1) α) cy)))
    (λ img _ dsize,
       if (dsize.1 <=? 0) || (dsize.2 <=? 0)
       then Ret (blank (shape_h img) (shape_w img) (shape_c img))
       else Ret (blank (Z.to_nat dsize.2) (Z.to_nat dsize.1) (shape_c img))).

(** A four-channel asset of height 1 and width 0. *)
Definition empty_asset : image := NdArr 1 0 4 [[]].

(** * Proofs *)

(** ** Lists of lists *)

Lemma lookup_map {A B} (f : A → B) (l : list A) (i : nat) :
  map f l !! i = f <$> l !! i.
Proof. exact (list_lookup_fmap f l i). Qed.

Lemma map_map2 {A B C} (f : A → B) (g : B → C) (d : list (list A)) :
  map (map g) (map (map f) d) = map (map (λ x, g (f x))) d.
Proof.
  rewrite map_map. apply map_ext. intros row. apply map_map.
Qed.

Lemma zip_with_map_diag {A B C D} (f : B → C → D) (g : A → B) (h : A → C)
    (l : list A) :
  zip_with f (map g l) (map h l) = map (λ x, f (g x) (h x)) l.
Proof. induction l as [|x l IH]; simpl; [done | by rewrite IH]. Qed.

Lemma zip_with2_map_diag {A B C D} (f : B → C → D) (g : A → B) (h : A → C)
    (d : list (list A)) :
  zip_with (zip_with f) (map (map g) d) (map (map h) d)
  = map (map (λ x, f (g x) (h x))) d.
Proof.
  rewrite zip_with_map_diag. apply map_ext. intros row.
  apply zip_with_map_diag.
Qed.

Lemma zip_with2_map_r {A C D} (f : A → C → D) (h : A → C) (d : list (list A)) :
  zip_with (zip_with f) d (map (map h) d) = map (map (λ x, f x (h x))) d.
Proof.
  induction d as [|row d IH]; simpl; [done |]. rewrite IH. f_equal.
  clear. induction row as [|x row IH]; simpl; [done | by rewrite IH].
Qed.

Lemma zip_with_map_r' {A B C D} (f : A → C → D) (g : B → C) l k :
  zip_with f l (map g k) = zip_with (λ x y, f x (g y)) l k.
Proof.
  revert k. induction l as [|x l IH]; intros [|y k]; simpl; [done.. |].
  by rewrite IH.
Qed.

Lemma zip_with_ext_Forall {A B C} (P : A → Prop) (Q : B → Prop)
    (f g : A → B → C) l k :
  Forall P l → Forall Q k → (∀ x y, P x → Q y → f x y = g x y) →
  zip_with f l k = zip_with g l k.
Proof.
  intros Hl. revert k. induction Hl as [|x l Hx _ IH]; intros k Hk Hfg.
  - done.
  - destruct Hk as [|y k Hy Hk]; simpl; [done |].
    rewrite (Hfg x y Hx Hy). f_equal. by apply IH.
Qed.

Lemma zip_with2_ext_Forall {A B C} (P : A → Prop) (Q : B → Prop)
    (f g : A → B → C) d1 d2 :
  Forall (Forall P) d1 → Forall (Forall Q) d2 →
  (∀ x y, P x → Q y → f x y = g x y) →
  zip_with (zip_with f) d1 d2 = zip_with (zip_with g) d1 d2.
Proof.
  intros H1 H2 Hfg.
  eapply zip_with_ext_Forall; [exact H1 | exact H2 |].
  intros row1 row2 Hr1 Hr2. by eapply zip_with_ext_Forall.
Qed.

Lemma zip_with_nest {A B C D E} (f : C → D → E) (a : A → C) (g : B → C → D)
    (b : A → C) (l : list A) (k : list B) :
  zip_with f (map a l) (zip_with g k (map b l))
  = zip_with (λ s r, f (a s) (g r (b s))) l k.
Proof.
  revert k. induction l as [|x l IH]; intros [|y k]; simpl; [done.. |].
  by rewrite IH.
Qed.

Lemma zip_with2_nest {A B C D E} (f : C → D → E) (a : A → C)
    (g : B → C → D) (b : A → C) (S : list (list A)) (T : list (list B)) :
  zip_with (zip_with f) (map (map a) S)
           (zip_with (zip_with g) T (map (map b) S))
  = zip_with (zip_with (λ s r, f (a s) (g r (b s)))) S T.
Proof.
  rewrite (zip_with_nest (zip_with f) (map a) (zip_with g) (map b)).
  apply (zip_with_ext_Forall (λ _, True) (λ _, True));
    [by apply Forall_true.. |].
  intros row1 row2 _ _. apply zip_with_nest.
Qed.

Lemma map2_zip_with2 {A B C D} (h : C → D) (f : A → B → C) d1 d2 :
  map (map h) (zip_with (zip_with f) d1 d2)
  = zip_with (zip_with (λ x y, h (f x y))) d1 d2.
Proof.
  revert d2. induction d1 as [|r1 d1 IH]; intros [|r2 d2]; simpl; [done.. |].
  rewrite IH. f_equal. clear.
  revert r2. induction r1 as [|x r1 IH]; intros [|y r2]; simpl; [done.. |].
  by rewrite IH.
Qed.

Lemma map2_ext_Forall {A B} (f g : A → B) (d : list (list A)) :
  Forall (Forall (λ x, f x = g x)) d → map (map f) d = map (map g) d.
Proof.
  induction 1 as [|row d Hrow _ IH]; simpl; [done |].
  f_equal; [| exact IH].
  induction Hrow as [|x row Hx _ IHrow]; simpl; [done | by rewrite Hx, IHrow].
Qed.

Lemma lookup2_map {A B} (f : A → B) (d : list (list A)) r c :
  lookup2 (map (map f) d) r c = f <$> lookup2 d r c.
Proof.
  unfold lookup2. rewrite lookup_map.
  destruct (d !! r) as [row|]; simpl; [apply lookup_map | done].
Qed.

Lemma lookup2_zip_with {A B C} (f : A → B → C) d1 d2 r c :
  lookup2 (zip_with (zip_with f) d1 d2) r c
  = lookup2 d1 r c ≫= λ x, lookup2 d2 r c ≫= λ y, Some (f x y).
Proof.
  unfold lookup2. rewrite lookup_zip_with.
  destruct (d1 !! r) as [row1|]; simpl; [| done].
  destruct (d2 !! r) as [row2|]; simpl.
  - rewrite lookup_zip_with. by destruct (row1 !! c).
  - by destruct (row1 !! c).
Qed.

Lemma lookup_splice {A} (l mid : list A) (a n i : nat) :
  (a + n ≤ length l)%nat → length mid = n →
  (take a l ++ mid ++ drop (a + n) l) !! i
  = if (i <? a)%nat then l !! i
    else if (i <? a + n)%nat then mid !! (i - a)%nat
    else l !! i.
Proof.
  intros Hlen Hmid.
  destruct (Nat.ltb_spec i a).
  - rewrite lookup_app_l by (rewrite length_take; lia).
    by apply lookup_take_lt.
  - rewrite lookup_app_r by (rewrite length_take; lia).
    rewrite length_take, Nat.min_l by lia.
    destruct (Nat.ltb_spec i (a + n)).
    + apply lookup_app_l. lia.
    + rewrite lookup_app_r by lia. rewrite lookup_drop. f_equal. lia.
Qed.

Lemma map_seq_lookup {A} (l : list A) (f : nat → A) :
  (∀ i x, l !! i = Some x → f i = x) →
  map f (seq 0 (length l)) = l.
Proof.
  intros Hf. apply list_eq. intros i. rewrite lookup_map.
  destruct (l !! i) as [x|] eqn:Hx.
  - rewrite lookup_seq_lt by (by eapply lookup_lt_Some). cbn.
    f_equal. by apply Hf.
  - apply lookup_ge_None in Hx. by rewrite lookup_seq_ge.
Qed.

Lemma nth_lookup_Z (px : list Z) (k : nat) v :
  px !! k = Some v → nth k px 0 = v.
Proof. intros H. by apply nth_lookup_Some with (d := 0) in H. Qed.

(** ** Well-formed arrays *)

Lemma pixel_at_map {A B} (f : list A → list B) (h w c h' w' c' : nat)
    (d : list (list (list A))) (r k : nat) :
  pixel_at (NdArr h' w' c' (map (map f) d)) r k
  = f <$> pixel_at (NdArr h w c d) r k.
Proof.
  unfold pixel_at; simpl. rewrite lookup_map.
  destruct (d !! r) as [row|]; simpl; [| done]. apply lookup_map.
Qed.

(** Every pixel of a well-formed array has the array's channel count. *)
Lemma wf_shape_pixels {A} (a : ndarr A) :
  wf_shape a → Forall (Forall (λ px, length px = shape_c a)) (data a).
Proof.
  intros [_ Hrows]. eapply Forall_impl; [exact Hrows |].
  intros row [_ Hpx]. exact Hpx.
Qed.

Lemma wf_shape_rows {A} (a : ndarr A) :
  wf_shape a → Forall (λ row, length row = shape_w a) (data a).
Proof.
  intros [_ Hrows]. eapply Forall_impl; [exact Hrows |]. by intros row [? _].
Qed.

Lemma wf_shape_pixel_at {A} (a : ndarr A) r c px :
  wf_shape a → pixel_at a r c = Some px → length px = shape_c a.
Proof.
  intros Hwf%wf_shape_pixels Hpx. unfold pixel_at in Hpx.
  destruct (data a !! r) as [row|] eqn:Hrow; simpl in Hpx; [| done].
  eapply Forall_lookup_1 in Hwf; [| exact Hrow].
  eapply Forall_lookup_1 in Hwf; [| exact Hpx]. exact Hwf.
Qed.

Lemma wf_shape_pixel_some {A} (a : ndarr A) (r c : nat) :
  wf_shape a → (r < shape_h a)%nat → (c < shape_w a)%nat →
  ∃ px, pixel_at a r c = Some px.
Proof.
  intros [Hh Hrows] Hr Hc. unfold pixel_at.
  destruct (lookup_lt_is_Some_2 (data a) r) as [row Hrow]; [lia |].
  rewrite Hrow; simpl.
  eapply Forall_lookup_1 in Hrows; [| exact Hrow]. destruct Hrows as [Hw _].
  apply lookup_lt_is_Some_2. lia.
Qed.

Lemma pixel_at_Some_lt {A} (a : ndarr A) r c px :
  wf_shape a → pixel_at a r c = Some px →
  (r < shape_h a)%nat ∧ (c < shape_w a)%nat.
Proof.
  intros [Hh Hrows] Hpx. unfold pixel_at in Hpx.
  destruct (data a !! r) as [row|] eqn:Hrow; simpl in Hpx; [| done].
  pose proof (lookup_lt_Some _ _ _ Hrow).
  pose proof (lookup_lt_Some _ _ _ Hpx).
  eapply Forall_lookup_1 in Hrows; [| exact Hrow]. destruct Hrows as [Hw _].
  lia.
Qed.

Lemma wf_shape_intro {A} (a : ndarr A) :
  length (data a) = shape_h a →
  (∀ r row, data a !! r = Some row → length row = shape_w a) →
  (∀ r c px, pixel_at a r c = Some px → length px = shape_c a) →
  wf_shape a.
Proof.
  intros Hh Hw Hc. split; [exact Hh |].
  apply Forall_lookup_2. intros r row Hrow. split; [by eapply Hw |].
  apply Forall_lookup_2. intros c px Hpx. apply (Hc r c).
  unfold pixel_at. by rewrite Hrow.
Qed.

Lemma wf_shape_map {A B} (f : list A → list B) (a : ndarr A) (c' : nat) :
  wf_shape a →
  (∀ px, length px = shape_c a → length (f px) = c') →
  wf_shape (NdArr (shape_h a) (shape_w a) c' (map (map f) (data a))).
Proof.
  intros [Hh Hrows] Hf. split; simpl.
  - by rewrite length_map.
  - apply Forall_map. eapply Forall_impl; [exact Hrows |].
    intros row [Hw Hpx]; simpl. split; [by rewrite length_map |].
    apply Forall_map. eapply Forall_impl; [exact Hpx |].
    intros px Hlen; simpl. by apply Hf.
Qed.

Lemma wf_shape_zip_with2 {A B C} (f : list A → list B → list C)
    (a : ndarr A) (b : ndarr B) (c' : nat) :
  wf_shape a → wf_shape b →
  shape_h a = shape_h b → shape_w a = shape_w b →
  (∀ x y, length x = shape_c a → length y = shape_c b → length (f x y) = c') →
  wf_shape (NdArr (shape_h a) (shape_w a) c'
                  (zip_with (zip_with f) (data a) (data b))).
Proof.
  intros [Hha Hra] [Hhb Hrb] Hh Hw Hf. split; cbn [data shape_h shape_w shape_c].
  - rewrite length_zip_with. lia.
  - apply Forall_lookup_2. intros i row Hrow.
    apply lookup_zip_with_Some in Hrow as (ra & rb & -> & Hia & Hib).
    eapply Forall_lookup_1 in Hra; [| exact Hia].
    eapply Forall_lookup_1 in Hrb; [| exact Hib].
    destruct Hra as [Hwa Hpa], Hrb as [Hwb Hpb]. split.
    + rewrite length_zip_with. lia.
    + apply Forall_lookup_2. intros j px Hpx.
      apply lookup_zip_with_Some in Hpx as (x & y & -> & Hx & Hy).
      eapply Forall_lookup_1 in Hpa; [| exact Hx].
      eapply Forall_lookup_1 in Hpb; [| exact Hy]. by apply Hf.
Qed.

Lemma is_uint8_pixel_at (img : image) r c px :
  is_uint8 img → pixel_at img r c = Some px → Forall (λ v, 0 ≤ v < 256) px.
Proof.
  intros Hu Hpx. unfold pixel_at in Hpx.
  destruct (data img !! r) as [row|] eqn:Hrow; simpl in Hpx; [| done].
  eapply Forall_lookup_1 in Hu; [| exact Hrow].
  eapply Forall_lookup_1 in Hu; [| exact Hpx]. exact Hu.
Qed.

Lemma ndarr_ext {A} (a b : ndarr A) :
  wf_shape a → wf_shape b →
  shape_h a = shape_h b → shape_w a = shape_w b → shape_c a = shape_c b →
  (∀ r c, pixel_at a r c = pixel_at b r c) → a = b.
Proof.
  intros [Hha Hra] [Hhb Hrb] Hh Hw Hc Hpx.
  destruct a as [ha wa ca da], b as [hb wb cb db]; cbn in *.
  assert (Hd : da = db); [| congruence].
  apply list_eq. intros r.
  destruct (da !! r) as [rowa|] eqn:Ea, (db !! r) as [rowb|] eqn:Eb.
  - f_equal. apply list_eq. intros c.
    specialize (Hpx r c). unfold pixel_at in Hpx; cbn in Hpx.
    by rewrite Ea, Eb in Hpx.
  - apply lookup_lt_Some in Ea. apply lookup_ge_None in Eb. lia.
  - apply lookup_ge_None in Ea. apply lookup_lt_Some in Eb. lia.
  - done.
Qed.

Ltac solve_wf := split; [reflexivity | repeat (constructor; try done)].
Ltac solve_uint8 := repeat (constructor; try lia).

Lemma wf_grey240 : wf_shape grey240.
Proof. split; [done |]. repeat constructor. Qed.

Lemma wf_dark_half : wf_shape dark_half.
Proof. split; [done |]. repeat constructor. Qed.

Lemma uint8_dark_half : is_uint8 dark_half.
Proof. repeat constructor; lia. Qed.

Lemma wf_frame23 : wf_shape frame23.
Proof. solve_wf. Qed.
Lemma wf_overlay22 : wf_shape overlay22.
Proof. solve_wf. Qed.
Lemma uint8_frame23 : is_uint8 frame23.
Proof. solve_uint8. Qed.
Lemma uint8_overlay22 : is_uint8 overlay22.
Proof. solve_uint8. Qed.

(** ** The loader *)

Lemma gray_first3 (img : image) :
  (3 ≤ shape_c img)%nat →
  cvtColor_BGR2GRAY (first3 img)
  = Ret (map (map (λ px, bgr2gray (take 3 px))) (data img)).
Proof.
  intros Hc. unfold cvtColor_BGR2GRAY, first3.
  cbn [shape_c data]. rewrite Nat.min_l by exact Hc.
  rewrite Nat.eqb_refl. cbn [orb]. rewrite map_map2. f_equal.
  apply map_ext. intros row. apply map_ext. intros px. by rewrite take_take.
Qed.

Lemma load_unfold (img : image) :
  load_sunglasses_with_alpha (Some (Arr3 img))
  = if (shape_c img =? 3)%nat then
      let img := cvtColor_BGR2BGRA img in
      gray ← cvtColor_BGR2GRAY (first3 img);
      Ret (Some (set_channel3 img (astype_uint8 (where_0_255 (gt_threshold gray)))))
    else
      gray ← cvtColor_BGR2GRAY (first3 img);
      old ← channel3 img;
      Ret (Some (set_channel3 img
                   (astype_uint8 (where_0_else (gt_threshold gray) old)))).
Proof. reflexivity. Qed.

Lemma load_bgr (img : image) :
  wf_shape img → shape_c img = 3%nat →
  load_sunglasses_with_alpha (Some (Arr3 img))
  = Ret (Some (NdArr (shape_h img) (shape_w img) 4
                     (map (map alpha_from_bgr) (data img)))).
Proof.
  intros Hwf Hc. rewrite load_unfold, Hc, Nat.eqb_refl. cbn zeta.
  rewrite gray_first3 by (cbn; lia). cbn [mbind outcome_bind].
  unfold set_channel3, cvtColor_BGR2BGRA. cbn [shape_h shape_w shape_c data].
  do 2 f_equal. f_equal.
  unfold astype_uint8, where_0_255, gt_threshold.
  rewrite !map_map2.
  rewrite zip_with2_map_diag.
  apply map2_ext_Forall.
  eapply Forall_impl; [exact (wf_shape_pixels _ Hwf) |].
  intros row Hrow. eapply Forall_impl; [exact Hrow |].
  intros px Hlen; simpl. rewrite Hc in Hlen.
  destruct px as [|b [|g [|r [|]]]]; simpl in Hlen; try discriminate.
  unfold alpha_from_bgr; simpl.
  by destruct (brightness_threshold <? _).
Qed.

Lemma load_bgra (img : image) :
  (4 ≤ shape_c img)%nat →
  load_sunglasses_with_alpha (Some (Arr3 img))
  = Ret (Some (NdArr (shape_h img) (shape_w img) (shape_c img)
                     (map (map alpha_from_bgra) (data img)))).
Proof.
  intros Hc. rewrite load_unfold.
  destruct (Nat.eqb_spec (shape_c img) 3) as [?|_]; [lia |].
  rewrite gray_first3 by lia. unfold channel3.
  destruct (Nat.ltb_spec 3 (shape_c img)) as [_|?]; [| lia].
  cbn [mbind outcome_bind]. unfold set_channel3. do 2 f_equal. f_equal.
  unfold astype_uint8, where_0_else, gt_threshold.
  rewrite map_map2, zip_with2_map_diag, map_map2.
  by rewrite zip_with2_map_r.
Qed.

Lemma load_few_channels (img : image) :
  (shape_c img < 3)%nat →
  load_sunglasses_with_alpha (Some (Arr3 img)) = Raise CvError.
Proof.
  intros Hc. rewrite load_unfold.
  destruct (Nat.eqb_spec (shape_c img) 3) as [?|_]; [lia |].
  unfold cvtColor_BGR2GRAY, first3. cbn [shape_c].
  destruct (Nat.eqb_spec (Nat.min 3 (shape_c img)) 3) as [?|_]; [lia |].
  destruct (Nat.eqb_spec (Nat.min 3 (shape_c img)) 4) as [?|_]; [lia | done].
Qed.

Lemma alpha_at_map (f : list Z → list Z) (img : image) (h w c r k : nat) :
  alpha_at (NdArr h w c (map (map f) (data img))) r k
  = pixel_at img r k ≫= λ px, f px !! 3%nat.
Proof.
  unfold alpha_at. destruct img as [h0 w0 c0 d]; cbn [data].
  rewrite (pixel_at_map f h0 w0 c0).
  by destruct (pixel_at _ r k).
Qed.

Lemma alpha_from_bgr_lookup (px : list Z) :
  length px = 3%nat →
  alpha_from_bgr px !! 3%nat
  = Some (if brightness_threshold <? bgr2gray (take 3 px) then 0 else 255).
Proof.
  intros Hlen. destruct px as [|b [|g [|r [|]]]]; try discriminate Hlen.
  reflexivity.
Qed.

Lemma alpha_from_bgra_lookup (px : list Z) :
  (3 < length px)%nat →
  alpha_from_bgra px !! 3%nat
  = Some ((if brightness_threshold <? bgr2gray (take 3 px) then 0
           else nth 3 px 0) mod 256).
Proof. intros Hlen. unfold alpha_from_bgra. by apply list_lookup_insert_eq. Qed.

(** C3, as amended: for a three-channel source the synthesized channel is
    255 everywhere when no pixel's luminance exceeds the threshold (below or
    equal), and 0 everywhere when every pixel's luminance is strictly above
    it. *)
Theorem synthesized_alpha_uniform (img : image) :
  wf_shape img → shape_c img = 3%nat →
  ∃ out,
    load_sunglasses_with_alpha (Some (Arr3 img)) = Ret (Some out)
    ∧ shape_c out = 4%nat
    ∧ ((∀ r c l, luminance_at img r c = Some l → l ≤ brightness_threshold) →
       ∀ r c, (r < shape_h img)%nat → (c < shape_w img)%nat →
              alpha_at out r c = Some 255)
    ∧ ((∀ r c l, luminance_at img r c = Some l → brightness_threshold < l) →
       ∀ r c, (r < shape_h img)%nat → (c < shape_w img)%nat →
              alpha_at out r c = Some 0).
Proof.
  intros Hwf Hc. eexists. split; [by apply load_bgr |]. split; [done |].
  split; intros Hlum r c Hr Hk;
    destruct (wf_shape_pixel_some img r c Hwf Hr Hk) as [px Hpx];
    rewrite alpha_at_map, Hpx; cbn [mbind option_bind];
    (rewrite alpha_from_bgr_lookup
       by (rewrite (wf_shape_pixel_at img r c px Hwf Hpx); exact Hc));
    specialize (Hlum r c (bgr2gray (take 3 px)));
    unfold luminance_at in Hlum; rewrite Hpx in Hlum;
    specialize (Hlum eq_refl).
  - destruct (Z.ltb_spec brightness_threshold (bgr2gray (take 3 px))); [lia | done].
  - destruct (Z.ltb_spec brightness_threshold (bgr2gray (take 3 px))); [done | lia].
Qed.

Lemma synthesized_alpha_uniform_witness :
  ∃ out,
    load_sunglasses_with_alpha (Some (Arr3 grey240)) = Ret (Some out)
    ∧ shape_c out = 4%nat
    ∧ ((∀ r c l, luminance_at grey240 r c = Some l → l ≤ brightness_threshold) →
       ∀ r c, (r < shape_h grey240)%nat → (c < shape_w grey240)%nat →
              alpha_at out r c = Some 255)
    ∧ ((∀ r c l, luminance_at grey240 r c = Some l → brightness_threshold < l) →
       ∀ r c, (r < shape_h grey240)%nat → (c < shape_w grey240)%nat →
              alpha_at out r c = Some 0).
Proof. apply (synthesized_alpha_uniform grey240 wf_grey240 eq_refl). Defined.

(** C3 as stated fails: a source that is everywhere at the threshold (hence
    "at or above" it) comes out fully opaque, not fully transparent. *)
Lemma at_threshold_stays_opaque :
  ¬ (∀ img : image, wf_shape img → shape_c img = 3%nat →
       ∀ out, load_sunglasses_with_alpha (Some (Arr3 img)) = Ret (Some out) →
         ((∀ r c l, luminance_at img r c = Some l → l < brightness_threshold) →
          ∀ r c, (r < shape_h img)%nat → (c < shape_w img)%nat →
                 alpha_at out r c = Some 255)
         ∧ ((∀ r c l, luminance_at img r c = Some l → brightness_threshold ≤ l) →
            ∀ r c, (r < shape_h img)%nat → (c < shape_w img)%nat →
                   alpha_at out r c = Some 0)).
Proof.
  intros H.
  destruct (H grey240 wf_grey240 eq_refl _ eq_refl) as [_ Habove].
  assert (Hall : ∀ r c l, luminance_at grey240 r c = Some l →
                          brightness_threshold ≤ l).
  { intros [|r] [|c] l Hl; try discriminate Hl.
    injection Hl as <-. by vm_compute. }
  specialize (Habove Hall 0%nat 0%nat ltac:(simpl; lia) ltac:(simpl; lia)).
  discriminate Habove.
Qed.

(** C4, as amended: every pixel whose luminance exceeds the threshold
    becomes fully transparent; every other pixel becomes fully opaque when
    the source had three channels and keeps its transparency when the source
    already had a fourth channel. *)
Theorem alpha_by_brightness_test (img : image) :
  wf_shape img → is_uint8 img → (3 ≤ shape_c img)%nat →
  ∃ out,
    load_sunglasses_with_alpha (Some (Arr3 img)) = Ret (Some out)
    ∧ ∀ r c px, pixel_at img r c = Some px →
        alpha_at out r c
        = Some (if brightness_threshold <? bgr2gray (take 3 px) then 0
                else if (shape_c img =? 3)%nat then 255 else nth 3 px 0).
Proof.
  intros Hwf Hu Hc.
  destruct (Nat.eqb_spec (shape_c img) 3) as [H3|H3].
  - eexists. split; [by apply load_bgr |].
    intros r c px Hpx. rewrite alpha_at_map, Hpx; cbn [mbind option_bind].
    apply alpha_from_bgr_lookup.
    by rewrite (wf_shape_pixel_at img r c px Hwf Hpx).
  - eexists. split; [apply load_bgra; lia |].
    intros r c px Hpx. rewrite alpha_at_map, Hpx; cbn [mbind option_bind].
    pose proof (wf_shape_pixel_at img r c px Hwf Hpx) as Hlen.
    rewrite alpha_from_bgra_lookup by lia. f_equal.
    destruct (brightness_threshold <? bgr2gray (take 3 px)); [done |].
    apply Z.mod_small.
    destruct (lookup_lt_is_Some_2 px 3) as [v Hv]; [lia |].
    rewrite (nth_lookup_Z px 3 v Hv).
    pose proof (is_uint8_pixel_at img r c px Hu Hpx) as Hb.
    by eapply Forall_lookup_1 in Hb.
Qed.

Lemma alpha_by_brightness_test_witness :
  ∃ out,
    load_sunglasses_with_alpha (Some (Arr3 dark_half)) = Ret (Some out)
    ∧ ∀ r c px, pixel_at dark_half r c = Some px →
        alpha_at out r c
        = Some (if brightness_threshold <? bgr2gray (take 3 px) then 0
                else if (shape_c dark_half =? 3)%nat then 255 else nth 3 px 0).
Proof.
  apply (alpha_by_brightness_test dark_half wf_dark_half uint8_dark_half).
  simpl; lia.
Defined.

(** C4 as stated fails: with a transparency channel already in the source,
    a pixel that is not bright keeps its transparency instead of becoming
    fully opaque. *)
Lemma existing_alpha_not_made_opaque :
  ¬ (∀ img : image, wf_shape img → is_uint8 img → (3 ≤ shape_c img)%nat →
       ∀ out, load_sunglasses_with_alpha (Some (Arr3 img)) = Ret (Some out) →
       ∀ r c l, luminance_at img r c = Some l →
         alpha_at out r c = Some (if brightness_threshold <? l then 0 else 255)).
Proof.
  intros H.
  specialize (H dark_half wf_dark_half uint8_dark_half ltac:(simpl; lia)
                _ eq_refl 0%nat 0%nat _ eq_refl).
  discriminate H.
Qed.

Lemma alpha_from_bgra_bgr (px : list Z) :
  length px = 3%nat → alpha_from_bgra (alpha_from_bgr px) = alpha_from_bgr px.
Proof.
  intros Hlen. destruct px as [|b [|g [|r [|]]]]; try discriminate Hlen.
  unfold alpha_from_bgra, alpha_from_bgr; simpl.
  by destruct (brightness_threshold <? _).
Qed.

Lemma alpha_from_bgra_idemp (px : list Z) :
  alpha_from_bgra (alpha_from_bgra px) = alpha_from_bgra px.
Proof.
  destruct (Nat.lt_ge_cases 3 (length px)) as [Hlen|Hlen].
  - unfold alpha_from_bgra at 1.
    assert (Htake : take 3 (alpha_from_bgra px) = take 3 px).
    { unfold alpha_from_bgra. by rewrite take_insert_ge. }
    assert (Hnth : nth 3 (alpha_from_bgra px) 0
                   = (if brightness_threshold <? bgr2gray (take 3 px) then 0
                      else nth 3 px 0) mod 256).
    { apply nth_lookup_Z. by apply alpha_from_bgra_lookup. }
    rewrite Htake, Hnth.
    apply list_insert_id. rewrite alpha_from_bgra_lookup by exact Hlen.
    f_equal. destruct (brightness_threshold <? _); [done |].
    by rewrite Z.mod_mod.
  - assert (Hid : alpha_from_bgra px = px).
    { unfold alpha_from_bgra. by apply list_insert_ge. }
    by rewrite !Hid.
Qed.

(** C8: loading is idempotent. Whatever image the loader produces, running
    the derivation on that image again gives the same image back. *)
Theorem load_sunglasses_idempotent (arr : ndarray) (out : image) :
  wf_ndarray arr →
  load_sunglasses_with_alpha (Some arr) = Ret (Some out) →
  load_sunglasses_with_alpha (Some (Arr3 out)) = Ret (Some out).
Proof.
  intros Hwf Hload. destruct arr as [h w d|img]; [discriminate Hload |].
  simpl in Hwf.
  destruct (Nat.lt_ge_cases (shape_c img) 3) as [Hc|Hc].
  { rewrite load_few_channels in Hload by exact Hc. discriminate Hload. }
  destruct (Nat.eq_dec (shape_c img) 3%nat) as [H3|H3].
  - rewrite load_bgr in Hload by done. injection Hload as <-.
    rewrite load_bgra by (simpl; lia). cbn [shape_h shape_w shape_c data].
    do 3 f_equal. rewrite map_map2. apply map2_ext_Forall.
    eapply Forall_impl; [exact (wf_shape_pixels _ Hwf) |].
    intros row Hrow. eapply Forall_impl; [exact Hrow |].
    intros px Hlen; simpl. apply alpha_from_bgra_bgr. by rewrite Hlen.
  - rewrite load_bgra in Hload by lia. injection Hload as <-.
    rewrite load_bgra by (simpl; lia). cbn [shape_h shape_w shape_c data].
    do 3 f_equal. rewrite map_map2. apply map_ext. intros row.
    apply map_ext. intros px. apply alpha_from_bgra_idemp.
Qed.

Lemma load_sunglasses_idempotent_witness :
  load_sunglasses_with_alpha
    (Some (Arr3 (NdArr 1 1 4 [[[240; 240; 240; 255]]])))
  = Ret (Some (NdArr 1 1 4 [[[240; 240; 240; 255]]])).
Proof.
  apply (load_sunglasses_idempotent (Arr3 grey240)); [exact wf_grey240 |].
  reflexivity.
Defined.

(** C10: the loader answers [None] exactly when decoding failed; a result
    obtained from a decoded array of at most four channels has exactly four;
    a two-dimensional (grayscale) decoded array makes [img.shape[2]] raise
    IndexError; and the loader returns an image for every decoded array with
    at least three channels, and for no other. *)
Theorem load_sunglasses_total_from_three_channels :
  (∀ decoded, load_sunglasses_with_alpha decoded = Ret None ↔ decoded = None)
  ∧ (∀ arr out, load_sunglasses_with_alpha (Some arr) = Ret (Some out) →
       (∀ img, arr = Arr3 img → (shape_c img ≤ 4)%nat) → shape_c out = 4%nat)
  ∧ (∀ h w d, load_sunglasses_with_alpha (Some (Arr2 h w d)) = Raise IndexError)
  ∧ (∀ img, (3 ≤ shape_c img)%nat →
       ∃ out, load_sunglasses_with_alpha (Some (Arr3 img)) = Ret (Some out))
  ∧ (∀ img, (shape_c img < 3)%nat →
       ∃ e, load_sunglasses_with_alpha (Some (Arr3 img)) = Raise e).
Proof.
  assert (Hsome : ∀ img, (3 ≤ shape_c img)%nat →
            ∃ out, load_sunglasses_with_alpha (Some (Arr3 img)) = Ret (Some out)
                   ∧ shape_c out = Nat.max 4 (shape_c img)).
  { intros img Hc. destruct (Nat.eq_dec (shape_c img) 3%nat) as [H3|H3].
    - rewrite load_unfold, H3, Nat.eqb_refl. cbn zeta.
      rewrite gray_first3 by (simpl; lia).
      eexists. split; [reflexivity |]. simpl. lia.
    - rewrite load_bgra by lia. eexists. split; [reflexivity |]. simpl. lia. }
  split; [| split; [| split; [| split]]].
  - intros [[h w d|img]|]; split; try done.
    destruct (Nat.lt_ge_cases (shape_c img) 3) as [Hc|Hc].
    + by rewrite load_few_channels.
    + destruct (Hsome img Hc) as (out & -> & _). done.
  - intros [h w d|img] out Hload Hle; [discriminate Hload |].
    destruct (Nat.lt_ge_cases (shape_c img) 3) as [Hc|Hc].
    { rewrite load_few_channels in Hload by exact Hc. discriminate Hload. }
    destruct (Hsome img Hc) as (out' & Hload' & Hout).
    rewrite Hload' in Hload. injection Hload as <-.
    specialize (Hle img eq_refl). lia.
  - reflexivity.
  - intros img Hc. destruct (Hsome img Hc) as (out & Hload & _). eauto.
  - intros img Hc. exists CvError. by apply load_few_channels.
Qed.

Lemma load_sunglasses_total_from_three_channels_witness :
  (∃ out, load_sunglasses_with_alpha (Some (Arr3 dark_half)) = Ret (Some out))
  ∧ (∃ e, load_sunglasses_with_alpha (Some (Arr3 (NdArr 1 1 1 [[[7]]]))) = Raise e)
  ∧ load_sunglasses_with_alpha (Some (Arr2 1 1 [[7]])) = Raise IndexError.
Proof.
  destruct load_sunglasses_total_from_three_channels
    as (_ & _ & Hgray & Hsome & Hfew).
  split; [apply Hsome; simpl; lia |].
  split; [apply Hfew; simpl; lia | apply Hgray].
Defined.

(** ** Slices *)

Lemma slice_bound_range (n : nat) (i : Z) : 0 ≤ slice_bound n i ≤ Z.of_nat n.
Proof. unfold slice_bound. destruct (Z.ltb_spec i 0); lia. Qed.

Lemma slice_bound_id (n : nat) (i : Z) :
  0 ≤ i ≤ Z.of_nat n → slice_bound n i = i.
Proof. intros H. unfold slice_bound. destruct (Z.ltb_spec i 0); lia. Qed.

Lemma length_py_slice {A} (i j : Z) (l : list A) :
  length (py_slice i j l) = slice_len (length l) i j.
Proof.
  unfold py_slice. rewrite length_take, length_drop. unfold slice_len.
  pose proof (slice_bound_range (length l) i).
  pose proof (slice_bound_range (length l) j). lia.
Qed.

Lemma lookup_py_slice {A} (i j : Z) (l : list A) (k : nat) :
  py_slice i j l !! k
  = if (k <? slice_len (length l) i j)%nat
    then l !! (Z.to_nat (slice_bound (length l) i) + k)%nat else None.
Proof.
  unfold py_slice.
  destruct (Nat.ltb_spec k (slice_len (length l) i j)).
  - rewrite lookup_take_lt by done. apply lookup_drop.
  - by apply lookup_take_ge.
Qed.

Lemma wf_shape_slice2 {A} (a : ndarr A) r1 r2 c1 c2 :
  wf_shape a → wf_shape (slice2 a r1 r2 c1 c2).
Proof.
  intros [Hh Hrows]. split; cbn [slice2 data shape_h shape_w shape_c].
  - by rewrite length_map, length_py_slice, Hh.
  - apply Forall_map.
    assert (Hsub : Forall (λ row, length row = shape_w a
                     ∧ Forall (λ px : list A, length px = shape_c a) row)
                     (py_slice r1 r2 (data a))).
    { unfold py_slice. by apply Forall_take, Forall_drop. }
    eapply Forall_impl; [exact Hsub |].
    intros row [Hw Hpx]; cbn beta. split.
    + by rewrite length_py_slice, Hw.
    + unfold py_slice. by apply Forall_take, Forall_drop.
Qed.

Lemma lookup2_slice2 {A} (a : ndarr A) r1 r2 c1 c2 (i j : nat) :
  wf_shape a →
  lookup2 (data (slice2 a r1 r2 c1 c2)) i j
  = if (i <? slice_len (shape_h a) r1 r2)%nat
       && (j <? slice_len (shape_w a) c1 c2)%nat
    then lookup2 (data a) (Z.to_nat (slice_bound (shape_h a) r1) + i)
                          (Z.to_nat (slice_bound (shape_w a) c1) + j)
    else None.
Proof.
  intros [Hh Hrows]. unfold lookup2. cbn [slice2 data].
  rewrite lookup_map, lookup_py_slice, Hh.
  destruct (Nat.ltb_spec i (slice_len (shape_h a) r1 r2)); [| done].
  cbn [andb].
  destruct (data a !! _) as [row|] eqn:Hrow; cbn [fmap option_fmap option_map mbind option_bind];
    [| by destruct (_ <? _)%nat].
  eapply Forall_lookup_1 in Hrows; [| exact Hrow]. destruct Hrows as [Hw _].
  by rewrite lookup_py_slice, Hw.
Qed.

(** ** Broadcasting between arrays of the same height and width *)

Lemma bzip_same_length {A B C} (f : A → B → C) l1 l2 :
  length l1 = length l2 → bzip f l1 l2 = zip_with f l1 l2.
Proof. intros H. unfold bzip. by rewrite H, Nat.eqb_refl. Qed.

Lemma bdim_same (n : nat) : bdim n n = Ret n.
Proof. unfold bdim. by rewrite Nat.eqb_refl. Qed.

Lemma np_binop_same_hw {A B C} (f : A → B → C) (a : ndarr A) (b : ndarr B) :
  wf_shape a → wf_shape b →
  shape_h a = shape_h b → shape_w a = shape_w b →
  np_binop f a b
  = (c ← bdim (shape_c a) (shape_c b);
     Ret (NdArr (shape_h a) (shape_w a) c
                (zip_with (zip_with (bzip f)) (data a) (data b)))).
Proof.
  intros Ha Hb Hh Hw. unfold np_binop.
  rewrite <- Hh, <- Hw, !bdim_same. cbn [mbind outcome_bind].
  destruct (bdim (shape_c a) (shape_c b)) as [c|e]; [| done].
  cbn [mbind outcome_bind]. do 2 f_equal.
  rewrite bzip_same_length by (destruct Ha as [-> _], Hb as [-> _]; done).
  eapply zip_with_ext_Forall;
    [exact (wf_shape_rows a Ha) | exact (wf_shape_rows b Hb) |].
  intros row1 row2 H1 H2. cbn beta in *.
  apply bzip_same_length. congruence.
Qed.

Lemma length_bzip_stretch {A B C} (f : A → B → C) l1 l2 :
  length l2 = 1%nat → length (bzip f l1 l2) = length l1.
Proof.
  intros H2. destruct l2 as [|b [|]]; try discriminate H2.
  unfold bzip. destruct (Nat.eqb_spec (length l1) (length [b])) as [He|Hne].
  - rewrite length_zip_with. lia.
  - destruct l1 as [|a [|]]; simpl in *; try done; by rewrite length_map.
Qed.

Lemma stretch_same {A} (n : nat) (l : list A) : length l = n → stretch n l = l.
Proof. intros H. unfold stretch. by rewrite H, Nat.eqb_refl. Qed.

(** ** The blend of one value and of one pixel *)

(** The channel arithmetic of line 71 on one overlay pixel and one
    background pixel. *)
Lemma blend_pixel_arith (opx bpx : list Z) :
  (3 < length opx)%nat → length bpx = 3%nat →
  map f64_to_uint8
    (bzip b64_add
       (bzip (λ o al, b64_mul (b64_of_Z o) al) (take 3 opx)
             [alpha_of (nth 3 opx 0)])
       (bzip (λ b al, b64_mul (b64_of_Z b) al) bpx
             (map (b64_sub (b64_of_Z 1)) [alpha_of (nth 3 opx 0)])))
  = blend_pixel opx bpx.
Proof.
  intros Ho Hb.
  destruct opx as [|o0 [|o1 [|o2 [|a opx]]]]; simpl in Ho; try lia.
  destruct bpx as [|b0 [|b1 [|b2 [|]]]]; try discriminate Hb.
  reflexivity.
Qed.

Lemma length_blend_pixel (opx bpx : list Z) :
  (3 < length opx)%nat → length bpx = 3%nat → length (blend_pixel opx bpx) = 3%nat.
Proof.
  intros Ho Hb. unfold blend_pixel.
  rewrite length_zip_with, length_take. lia.
Qed.

Lemma below_spec (n : Z) (P : Z → bool) (v : Z) :
  below n P = true → 0 ≤ v < n → P v = true.
Proof.
  intros Hall Hv. unfold below in Hall.
  rewrite forallb_forall in Hall. apply Hall.
  apply in_map_iff. exists (Z.to_nat v). split; [lia |].
  apply in_seq. lia.
Qed.

Lemma all_bytes_spec (P : Z → bool) (v : Z) :
  all_bytes P = true → 0 ≤ v < 256 → P v = true.
Proof. apply below_spec. Qed.

Lemma alpha_of_255 : alpha_of 255 = b64_of_Z 1.
Proof. vm_compute. reflexivity. Qed.

Lemma alpha_of_0 : alpha_of 0 = S754_zero false.
Proof. vm_compute. reflexivity. Qed.

Lemma one_minus_one : b64_sub (b64_of_Z 1) (b64_of_Z 1) = S754_zero false.
Proof. vm_compute. reflexivity. Qed.

Lemma one_minus_zero : b64_sub (b64_of_Z 1) (S754_zero false) = b64_of_Z 1.
Proof. vm_compute. reflexivity. Qed.

Lemma byte_times_zero (v : Z) :
  0 ≤ v < 256 → b64_mul (b64_of_Z v) (S754_zero false) = S754_zero false.
Proof.
  intros Hv.
  apply (all_bytes_spec
           (λ v, match b64_mul (b64_of_Z v) (S754_zero false) with
                 | S754_zero false => true | _ => false end)) in Hv.
  - by destruct (b64_mul _ _) as [[|]| | |].
  - vm_compute. reflexivity.
Qed.

Lemma byte_times_one_left (v : Z) :
  0 ≤ v < 256 →
  f64_to_uint8 (b64_add (b64_mul (b64_of_Z v) (b64_of_Z 1)) (S754_zero false)) = v.
Proof.
  intros Hv.
  apply (all_bytes_spec
           (λ v, f64_to_uint8 (b64_add (b64_mul (b64_of_Z v) (b64_of_Z 1))
                                       (S754_zero false)) =? v)) in Hv.
  - by apply Z.eqb_eq.
  - vm_compute. reflexivity.
Qed.

Lemma byte_times_one_right (v : Z) :
  0 ≤ v < 256 →
  f64_to_uint8 (b64_add (S754_zero false) (b64_mul (b64_of_Z v) (b64_of_Z 1))) = v.
Proof.
  intros Hv.
  apply (all_bytes_spec
           (λ v, f64_to_uint8 (b64_add (S754_zero false)
                                 (b64_mul (b64_of_Z v) (b64_of_Z 1))) =? v)) in Hv.
  - by apply Z.eqb_eq.
  - vm_compute. reflexivity.
Qed.

Lemma blend_opaque (o b : Z) : 0 ≤ o < 256 → 0 ≤ b < 256 → blend o 255 b = o.
Proof.
  intros Ho Hb. unfold blend.
  rewrite alpha_of_255, one_minus_one, (byte_times_zero b Hb).
  by apply byte_times_one_left.
Qed.

Lemma blend_transparent (o b : Z) : 0 ≤ o < 256 → 0 ≤ b < 256 → blend o 0 b = b.
Proof.
  intros Ho Hb. unfold blend.
  rewrite alpha_of_0, one_minus_zero, (byte_times_zero o Ho).
  by apply byte_times_one_right.
Qed.

(** The blend is the float64 one: the two products are rounded before they
    are added, so equal colours can come out one lower. *)
Example blend_rounds_down : blend 100 5 100 = 99.
Proof. vm_compute. reflexivity. Qed.

Example blend_half : blend 120 128 10 = 65.
Proof. vm_compute. reflexivity. Qed.

Lemma blend_pixel_opaque (opx bpx : list Z) :
  Forall (λ v, 0 ≤ v < 256) opx → Forall (λ v, 0 ≤ v < 256) bpx →
  length bpx = 3%nat → opx !! 3%nat = Some 255 →
  blend_pixel opx bpx = take 3 opx.
Proof.
  intros Ho Hb Hlen Ha. unfold blend_pixel.
  rewrite (nth_lookup_Z opx 3 255 Ha).
  destruct opx as [|o0 [|o1 [|o2 [|a opx]]]]; try discriminate Ha.
  destruct bpx as [|b0 [|b1 [|b2 [|]]]]; try discriminate Hlen.
  repeat match goal with H : Forall _ (_ :: _) |- _ => inversion_clear H end.
  cbn. by rewrite !blend_opaque.
Qed.

Lemma blend_pixel_transparent (opx bpx : list Z) :
  Forall (λ v, 0 ≤ v < 256) opx → Forall (λ v, 0 ≤ v < 256) bpx →
  length bpx = 3%nat → opx !! 3%nat = Some 0 →
  blend_pixel opx bpx = bpx.
Proof.
  intros Ho Hb Hlen Ha. unfold blend_pixel.
  rewrite (nth_lookup_Z opx 3 0 Ha).
  destruct opx as [|o0 [|o1 [|o2 [|a opx]]]]; try discriminate Ha.
  destruct bpx as [|b0 [|b1 [|b2 [|]]]]; try discriminate Hlen.
  repeat match goal with H : Forall _ (_ :: _) |- _ => inversion_clear H end.
  cbn. by rewrite !blend_transparent.
Qed.


(** ** The clipped rectangle *)

Lemma clip_region_Some (bg_w bg_h w h x y : Z) (rg : region) :
  clip_region bg_w bg_h w h x y = Some rg →
  x < bg_w ∧ y < bg_h ∧ 0 < x + w ∧ 0 < y + h
  ∧ x1 rg = Z.max 0 x ∧ y1 rg = Z.max 0 y
  ∧ x2 rg = Z.min bg_w (x + w) ∧ y2 rg = Z.min bg_h (y + h)
  ∧ overlay_x1 rg = x1 rg - x ∧ overlay_y1 rg = y1 rg - y
  ∧ overlay_x2 rg = overlay_x1 rg + (x2 rg - x1 rg)
  ∧ overlay_y2 rg = overlay_y1 rg + (y2 rg - y1 rg).
Proof.
  unfold clip_region.
  destruct (Z.leb_spec bg_w x), (Z.leb_spec bg_h y); cbn [orb]; try discriminate.
  destruct (Z.leb_spec (x + w) 0), (Z.leb_spec (y + h) 0); cbn [orb];
    try discriminate.
  intros [= <-]. cbn. repeat split; lia.
Qed.

Lemma clip_region_None (bg_w bg_h w h x y : Z) :
  clip_region bg_w bg_h w h x y = None ↔
  bg_w ≤ x ∨ bg_h ≤ y ∨ x + w ≤ 0 ∨ y + h ≤ 0.
Proof.
  unfold clip_region.
  destruct (Z.leb_spec bg_w x), (Z.leb_spec bg_h y); cbn [orb];
    try (split; [intros _; lia | done]).
  destruct (Z.leb_spec (x + w) 0), (Z.leb_spec (y + h) 0); cbn [orb];
    try (split; [intros _; lia | done]).
  split; [done | lia].
Qed.

(** Slice bounds of the clipped rectangle, for arrays of any size. *)
Lemma clip_region_slices (bg_w bg_h w h : nat) (x y : Z) (rg : region) :
  clip_region (Z.of_nat bg_w) (Z.of_nat bg_h) (Z.of_nat w) (Z.of_nat h) x y
  = Some rg →
  (0 ≤ x1 rg ≤ x2 rg ∧ x2 rg ≤ Z.of_nat bg_w)
  ∧ (0 ≤ y1 rg ≤ y2 rg ∧ y2 rg ≤ Z.of_nat bg_h)
  ∧ overlay_x1 rg = x1 rg - x ∧ overlay_y1 rg = y1 rg - y
  ∧ 0 ≤ overlay_x1 rg ∧ 0 ≤ overlay_y1 rg
  ∧ slice_bound bg_w (x1 rg) = x1 rg ∧ slice_bound bg_h (y1 rg) = y1 rg
  ∧ slice_bound w (overlay_x1 rg) = overlay_x1 rg
  ∧ slice_bound h (overlay_y1 rg) = overlay_y1 rg
  ∧ slice_len bg_w (x1 rg) (x2 rg) = Z.to_nat (x2 rg - x1 rg)
  ∧ slice_len bg_h (y1 rg) (y2 rg) = Z.to_nat (y2 rg - y1 rg)
  ∧ slice_len w (overlay_x1 rg) (overlay_x2 rg) = Z.to_nat (x2 rg - x1 rg)
  ∧ slice_len h (overlay_y1 rg) (overlay_y2 rg) = Z.to_nat (y2 rg - y1 rg).
Proof.
  intros Hclip.
  apply clip_region_Some in Hclip
    as (? & ? & ? & ? & ? & ? & ? & ? & ? & ? & ? & ?).
  unfold slice_len.
  rewrite !slice_bound_id by lia.
  repeat split; lia.
Qed.

(** ** The compositor on an intersecting placement *)

Section Compositor.

Variables (bg ov : image) (x y : Z) (rg : region).
Hypothesis Hwb : wf_shape bg.
Hypothesis Hwo : wf_shape ov.
Hypothesis Hclip :
  clip_region (Z.of_nat (shape_w bg)) (Z.of_nat (shape_h bg))
              (Z.of_nat (shape_w ov)) (Z.of_nat (shape_h ov)) x y = Some rg.

Local Lemma clip_facts :
  (0 ≤ x1 rg ≤ x2 rg ∧ x2 rg ≤ Z.of_nat (shape_w bg))
  ∧ (0 ≤ y1 rg ≤ y2 rg ∧ y2 rg ≤ Z.of_nat (shape_h bg))
  ∧ overlay_x1 rg = x1 rg - x ∧ overlay_y1 rg = y1 rg - y
  ∧ 0 ≤ overlay_x1 rg ∧ 0 ≤ overlay_y1 rg
  ∧ slice_bound (shape_w bg) (x1 rg) = x1 rg
  ∧ slice_bound (shape_h bg) (y1 rg) = y1 rg
  ∧ slice_bound (shape_w ov) (overlay_x1 rg) = overlay_x1 rg
  ∧ slice_bound (shape_h ov) (overlay_y1 rg) = overlay_y1 rg
  ∧ slice_len (shape_w bg) (x1 rg) (x2 rg) = Z.to_nat (x2 rg - x1 rg)
  ∧ slice_len (shape_h bg) (y1 rg) (y2 rg) = Z.to_nat (y2 rg - y1 rg)
  ∧ slice_len (shape_w ov) (overlay_x1 rg) (overlay_x2 rg)
    = Z.to_nat (x2 rg - x1 rg)
  ∧ slice_len (shape_h ov) (overlay_y1 rg) (overlay_y2 rg)
    = Z.to_nat (y2 rg - y1 rg).
Proof. exact (clip_region_slices _ _ _ _ _ _ _ Hclip). Qed.

(** The whole run of the function on an intersecting placement. *)
Lemma overlay_image_alpha_run (σ : store) (background overlay : addr) :
  σ !! background = Some bg → σ !! overlay = Some ov →
  shape_c bg = 3%nat → (3 < shape_c ov)%nat →
  overlay_image_alpha σ background overlay x y
  = Ret (<[background := composited bg ov rg]> σ, background).
Proof.
  intros Hbg Hov Hcb Hco.
  destruct clip_facts
    as (Hx & Hy & Hox & Hoy & Hox0 & Hoy0 & Sx1 & Sy1 & Sox1 & Soy1
        & Lx & Ly & Lox & Loy).
  unfold overlay_image_alpha, deref. rewrite Hov, Hbg.
  cbn [mbind outcome_bind]. rewrite Hclip.
  set (S := slice2 ov (overlay_y1 rg) (overlay_y2 rg)
                      (overlay_x1 rg) (overlay_x2 rg)).
  set (ROI := slice2 bg (y1 rg) (y2 rg) (x1 rg) (x2 rg)).
  assert (HwS : wf_shape S) by by apply wf_shape_slice2.
  assert (HwR : wf_shape ROI) by by apply wf_shape_slice2.
  assert (HhS : shape_h S = Z.to_nat (y2 rg - y1 rg)) by exact Loy.
  assert (HwdS : shape_w S = Z.to_nat (x2 rg - x1 rg)) by exact Lox.
  assert (HhR : shape_h ROI = Z.to_nat (y2 rg - y1 rg)) by exact Ly.
  assert (HwdR : shape_w ROI = Z.to_nat (x2 rg - x1 rg)) by exact Lx.
  assert (HcS : shape_c S = shape_c ov) by reflexivity.
  assert (HcR : shape_c ROI = 3%nat) by exact Hcb.
  (* the transparency channel *)
  unfold channel3. rewrite HcS.
  destruct (Nat.ltb_spec 3 (shape_c ov)) as [_|?]; [| lia].
  cbn [mbind outcome_bind].
  set (FA := λ px : list Z, [alpha_of (nth 3 px 0)]).
  assert (Halpha : newaxis (shape_h S) (shape_w S)
                     (map (map alpha_of) (map (map (λ px, nth 3 px 0)) (data S)))
                   = NdArr (shape_h S) (shape_w S) 1 (map (map FA) (data S))).
  { unfold newaxis. by rewrite !map_map2. }
  rewrite Halpha. clear Halpha.
  assert (HwA : wf_shape (NdArr (shape_h S) (shape_w S) 1 (map (map FA) (data S))))
    by (by apply wf_shape_map).
  assert (HwF : wf_shape (first3 S)).
  { apply wf_shape_map; [done |]. intros px Hpx. rewrite length_take. lia. }
  (* overlay_rgb * alpha *)
  rewrite (np_binop_same_hw _ (first3 S)) by done.
  cbn [shape_c first3 shape_h shape_w data].
  replace (Nat.min 3 (shape_c S)) with 3%nat by lia.
  change (bdim 3 1) with (Ret (A := nat) 3%nat). cbn [mbind outcome_bind].
  rewrite zip_with2_map_diag.
  set (F1 := λ px : list Z,
         bzip (λ o al, b64_mul (b64_of_Z o) al) (take 3 px) (FA px)).
  assert (HwT1 : wf_shape (NdArr (shape_h S) (shape_w S) 3 (map (map F1) (data S)))).
  { apply wf_shape_map; [done |]. intros px Hpx. unfold F1.
    rewrite length_bzip_stretch by done. rewrite length_take. lia. }
  (* roi * (1 - alpha) *)
  assert (HwA1 : wf_shape (np_map (b64_sub (b64_of_Z 1))
                   (NdArr (shape_h S) (shape_w S) 1 (map (map FA) (data S))))).
  { unfold np_map; cbn [shape_h shape_w shape_c data]. rewrite map_map2.
    by apply wf_shape_map. }
  rewrite (np_binop_same_hw _ ROI) by (done || (cbn; congruence)).
  cbn [np_map shape_c shape_h shape_w data]. rewrite HcR.
  change (bdim 3 1) with (Ret (A := nat) 3%nat). cbn [mbind outcome_bind].
  rewrite (map_map2 FA).
  set (FB := λ px : list Z, map (b64_sub (b64_of_Z 1)) (FA px)).
  set (MB := λ (b : Z) al, b64_mul (b64_of_Z b) al).
  assert (HwT2 : wf_shape (NdArr (shape_h ROI) (shape_w ROI) 3
                   (zip_with (zip_with (bzip MB)) (data ROI) (map (map FB) (data S))))).
  { rewrite zip_with_map_r'.
    rewrite (zip_with_ext_Forall (λ _, True) (λ _, True) _
               (zip_with (λ bpx opx, bzip MB bpx (FB opx))));
      [| by apply Forall_true.. | intros; apply zip_with_map_r'].
    apply wf_shape_zip_with2; [done | done | congruence | congruence |].
    intros bpx opx Hb Ho. rewrite length_bzip_stretch by done. congruence. }
  (* the sum *)
  rewrite (np_binop_same_hw b64_add) by (done || (cbn; congruence)).
  cbn [shape_c shape_h shape_w data].
  change (bdim 3 3) with (Ret (A := nat) 3%nat). cbn [mbind outcome_bind].
  rewrite (zip_with2_nest (bzip b64_add) F1 (bzip MB) FB).
  (* the cast *)
  unfold np_map. cbn [shape_c shape_h shape_w data].
  rewrite map2_zip_with2.
  rewrite (zip_with2_ext_Forall (λ px, length px = shape_c S)
             (λ px, length px = shape_c ROI) _ blend_pixel);
    [| by apply wf_shape_pixels | by apply wf_shape_pixels
     | intros opx bpx Ho Hb; apply blend_pixel_arith; lia].
  assert (HwB : wf_shape (NdArr (shape_h S) (shape_w S) 3
                   (zip_with (zip_with blend_pixel) (data S) (data ROI)))).
  { apply wf_shape_zip_with2; [done | done | congruence | congruence |].
    intros opx bpx Ho Hb. apply length_blend_pixel; lia. }
  (* the write *)
  unfold assign_slice2. cbn [shape_c shape_h shape_w data].
  rewrite Ly, Lx, HhS, HwdS, Hcb.
  unfold broadcastable_to. rewrite !Nat.eqb_refl. cbn [orb andb].
  cbn [mbind outcome_bind]. do 2 f_equal. f_equal.
  unfold composited. rewrite Hcb, Sy1, Sx1. fold S ROI.
  f_equal. f_equal. f_equal.
  rewrite stretch_same by (rewrite <- HhS; exact (proj1 HwB)).
  eapply (zip_with_ext_Forall (λ _, True)
            (λ vrow, length vrow = Z.to_nat (x2 rg - x1 rg)
                     ∧ Forall (λ px : list Z, length px = 3%nat) vrow));
    [by apply Forall_true | |].
  - destruct HwB as [_ HB]. cbn [data shape_w shape_c] in HB.
    eapply Forall_impl; [exact HB |]. intros vrow [Hl Hp]; cbn beta.
    split; [by rewrite <- HwdS | exact Hp].
  - intros row vrow _ [Hl Hp]. rewrite stretch_same by exact Hl.
    do 2 f_equal. rewrite <- (map_id vrow) at 2.
    apply map_ext_Forall. eapply Forall_impl; [exact Hp |].
    intros px Hpx. by apply stretch_same.
Qed.

(** The frame after the write, pixel by pixel. *)
Lemma pixel_at_composited (r c : nat) :
  pixel_at (composited bg ov rg) r c
  = if in_region rg r c
    then opx ← pixel_at ov (Z.to_nat (Z.of_nat r - y)) (Z.to_nat (Z.of_nat c - x));
         bpx ← pixel_at bg r c;
         Some (blend_pixel opx bpx)
    else pixel_at bg r c.
Proof.
  destruct clip_facts
    as (Hx & Hy & Hox & Hoy & Hox0 & Hoy0 & Sx1 & Sy1 & Sox1 & Soy1
        & Lx & Ly & Lox & Loy).
  set (S := slice2 ov (overlay_y1 rg) (overlay_y2 rg)
                      (overlay_x1 rg) (overlay_x2 rg)).
  set (ROI := slice2 bg (y1 rg) (y2 rg) (x1 rg) (x2 rg)).
  assert (HwS : wf_shape S) by by apply wf_shape_slice2.
  assert (HwR : wf_shape ROI) by by apply wf_shape_slice2.
  set (B := zip_with (zip_with blend_pixel) (data S) (data ROI)).
  assert (HlenB : length B = Z.to_nat (y2 rg - y1 rg)).
  { unfold B. rewrite length_zip_with.
    destruct HwS as [-> _], HwR as [-> _]. cbn [S ROI slice2 shape_h]. lia. }
  assert (HrowsB : Forall (λ vrow, length vrow = Z.to_nat (x2 rg - x1 rg)) B).
  { apply Forall_lookup_2. intros i vrow Hi.
    apply lookup_zip_with_Some in Hi as (srow & rrow & -> & Hs & Hr).
    pose proof (Forall_lookup_1 _ _ _ _ (wf_shape_rows S HwS) Hs) as H1.
    pose proof (Forall_lookup_1 _ _ _ _ (wf_shape_rows ROI HwR) Hr) as H2.
    cbn beta in H1, H2. rewrite length_zip_with, H1, H2.
    cbn [S ROI slice2 shape_w]. lia. }
  pose proof Hwb as [Hhb Hrb].
  unfold pixel_at at 1, composited. cbn [data]. fold S ROI B.
  set (W := λ row vrow : list (list Z),
         take (Z.to_nat (x1 rg)) row ++ vrow
         ++ drop (Z.to_nat (x1 rg) + Z.to_nat (x2 rg - x1 rg)) row).
  assert (HlenM : length (zip_with W (py_slice (y1 rg) (y2 rg) (data bg)) B)
                  = Z.to_nat (y2 rg - y1 rg)).
  { rewrite length_zip_with, length_py_slice, Hhb, Ly. lia. }
  rewrite lookup_splice by (done || lia).
  unfold in_region.
  destruct (Nat.ltb_spec r (Z.to_nat (y1 rg))) as [Hr1|Hr1].
  { destruct (Z.leb_spec (y1 rg) (Z.of_nat r)); [lia | done]. }
  destruct (Z.leb_spec (y1 rg) (Z.of_nat r)) as [_|?]; [| lia]. cbn [andb].
  destruct (Nat.ltb_spec r (Z.to_nat (y1 rg) + Z.to_nat (y2 rg - y1 rg)))
    as [Hr2|Hr2].
  2:{ destruct (Z.ltb_spec (Z.of_nat r) (y2 rg)); [lia | done]. }
  destruct (Z.ltb_spec (Z.of_nat r) (y2 rg)) as [_|?]; [| lia]. cbn [andb].
  (* a row that the write touches *)
  set (i := (r - Z.to_nat (y1 rg))%nat).
  assert (Hi : (i < Z.to_nat (y2 rg - y1 rg))%nat) by lia.
  rewrite lookup_zip_with, lookup_py_slice, Hhb, Ly, Sy1.
  destruct (Nat.ltb_spec i (Z.to_nat (y2 rg - y1 rg))) as [_|?]; [| lia].
  replace (Z.to_nat (y1 rg) + i)%nat with r by lia.
  destruct (lookup_lt_is_Some_2 (data bg) r ltac:(lia)) as [row Hrow].
  destruct (lookup_lt_is_Some_2 B i ltac:(lia)) as [vrow Hvrow].
  unfold pixel_at. rewrite Hrow, Hvrow. cbn [mbind option_bind].
  pose proof (Forall_lookup_1 _ _ _ _ Hrb Hrow) as [Hwrow _].
  pose proof (Forall_lookup_1 _ _ _ _ HrowsB Hvrow) as Hwv. cbn beta in Hwv.
  unfold W. rewrite lookup_splice by (done || lia).
  destruct (Nat.ltb_spec c (Z.to_nat (x1 rg))) as [Hc1|Hc1].
  { destruct (Z.leb_spec (x1 rg) (Z.of_nat c)); [lia | done]. }
  destruct (Z.leb_spec (x1 rg) (Z.of_nat c)) as [_|?]; [| lia]. cbn [andb].
  destruct (Nat.ltb_spec c (Z.to_nat (x1 rg) + Z.to_nat (x2 rg - x1 rg)))
    as [Hc2|Hc2].
  2:{ destruct (Z.ltb_spec (Z.of_nat c) (x2 rg)); [lia | done]. }
  destruct (Z.ltb_spec (Z.of_nat c) (x2 rg)) as [_|?]; [| lia].
  (* a pixel that the write touches *)
  set (j := (c - Z.to_nat (x1 rg))%nat).
  assert (Hj : (j < Z.to_nat (x2 rg - x1 rg))%nat) by lia.
  assert (HB : lookup2 B i j = vrow !! j).
  { unfold lookup2. by rewrite Hvrow. }
  rewrite <- HB. unfold B. rewrite lookup2_zip_with.
  unfold S, ROI. rewrite !lookup2_slice2 by done.
  rewrite Loy, Lox, Ly, Lx, Soy1, Sox1, Sy1, Sx1.
  destruct (Nat.ltb_spec i (Z.to_nat (y2 rg - y1 rg))) as [_|?]; [| lia].
  destruct (Nat.ltb_spec j (Z.to_nat (x2 rg - x1 rg))) as [_|?]; [| lia].
  cbn [andb].
  replace (Z.to_nat (overlay_y1 rg) + i)%nat
    with (Z.to_nat (Z.of_nat r - y)) by lia.
  replace (Z.to_nat (overlay_x1 rg) + j)%nat
    with (Z.to_nat (Z.of_nat c - x)) by lia.
  replace (Z.to_nat (y1 rg) + i)%nat with r by lia.
  replace (Z.to_nat (x1 rg) + j)%nat with c by lia.
  unfold lookup2. rewrite Hrow. reflexivity.
Qed.

(** A position of the clipped rectangle is a position of the frame, and the
    overlay position over it is a position of the overlay. *)
Lemma in_region_bounds (r c : nat) :
  in_region rg r c = true →
  (r < shape_h bg)%nat ∧ (c < shape_w bg)%nat
  ∧ (Z.to_nat (Z.of_nat r - y) < shape_h ov)%nat
  ∧ (Z.to_nat (Z.of_nat c - x) < shape_w ov)%nat.
Proof.
  intros Hin.
  pose proof (clip_region_Some _ _ _ _ _ _ _ Hclip)
    as (? & ? & ? & ? & ? & ? & ? & ? & ? & ? & ? & ?).
  unfold in_region in Hin.
  apply andb_true_iff in Hin as [Hin Hd].
  apply andb_true_iff in Hin as [Hin Hc].
  apply andb_true_iff in Hin as [Ha Hb].
  apply Z.leb_le in Ha, Hc. apply Z.ltb_lt in Hb, Hd. lia.
Qed.

(** The write keeps the frame a well-formed array of the same shape. *)
Lemma wf_shape_composited :
  shape_c bg = 3%nat → (3 < shape_c ov)%nat →
  wf_shape (composited bg ov rg).
Proof.
  intros Hcb Hco.
  destruct clip_facts
    as (Hx & Hy & Hox & Hoy & Hox0 & Hoy0 & Sx1 & Sy1 & Sox1 & Soy1
        & Lx & Ly & Lox & Loy).
  pose proof (wf_shape_slice2 ov (overlay_y1 rg) (overlay_y2 rg)
                (overlay_x1 rg) (overlay_x2 rg) Hwo) as HwS.
  pose proof (wf_shape_slice2 bg (y1 rg) (y2 rg) (x1 rg) (x2 rg) Hwb) as HwR.
  apply wf_shape_intro.
  - unfold composited; cbn [data shape_h].
    rewrite !length_app, length_take, length_drop, length_zip_with,
      length_zip_with, length_py_slice.
    rewrite (proj1 Hwb), (proj1 HwS), (proj1 HwR).
    cbn [slice2 shape_h]. lia.
  - intros r row Hrow. unfold composited in Hrow; cbn [data] in Hrow.
    cbn [composited shape_w].
    assert (Hin : ∀ i rw, data bg !! i = Some rw → length rw = shape_w bg).
    { intros i rw Hi.
      by pose proof (Forall_lookup_1 _ _ _ _ (wf_shape_rows bg Hwb) Hi). }
    apply lookup_app_Some in Hrow as [Hrow|[_ Hrow]].
    { apply lookup_take_Some in Hrow as [Hrow _]. by eapply Hin. }
    apply lookup_app_Some in Hrow as [Hrow|[_ Hrow]].
    2:{ rewrite lookup_drop in Hrow. by eapply Hin. }
    apply lookup_zip_with_Some in Hrow as (rw & vrow & -> & Hrw & Hv).
    rewrite lookup_py_slice in Hrw.
    destruct (_ <? _)%nat; [| done]. apply Hin in Hrw.
    apply lookup_zip_with_Some in Hv as (srow & rrow & -> & Hs & Hr).
    pose proof (Forall_lookup_1 _ _ _ _ (wf_shape_rows _ HwS) Hs) as H1.
    pose proof (Forall_lookup_1 _ _ _ _ (wf_shape_rows _ HwR) Hr) as H2.
    cbn beta in H1, H2. cbn [slice2 shape_w] in H1, H2.
    rewrite !length_app, length_take, length_drop, length_zip_with, H1, H2, Hrw.
    lia.
  - intros r c px Hpx. cbn [composited shape_c].
    rewrite pixel_at_composited in Hpx.
    destruct (in_region rg r c).
    + destruct (pixel_at ov _ _) as [opx|] eqn:Ho; [| done].
      destruct (pixel_at bg r c) as [bpx|] eqn:Hb; [| done].
      injection Hpx as <-. rewrite Hcb.
      apply length_blend_pixel.
      * by rewrite (wf_shape_pixel_at ov _ _ _ Hwo Ho).
      * by rewrite (wf_shape_pixel_at bg _ _ _ Hwb Hb).
    + by eapply wf_shape_pixel_at.
Qed.

End Compositor.

(** ** The compositor: index safety, blend and frame *)

(** C9: when neither early return fires, the clipped destination rectangle
    lies within the background, the source rectangle lies within the overlay
    and has the same height and width, every slice bound is used as it is (no
    clamping, no wrap-around), and the two slices have the same shape; both
    rectangles are non-empty as soon as the two rasters are; and on arrays of
    three and four channels the blend runs to the end without raising. *)
Theorem clipped_slices_in_range (bg ov : image) (x y : Z) (rg : region) :
  let bg_w := shape_w bg in
  let bg_h := shape_h bg in
  let w := shape_w ov in
  let h := shape_h ov in
  clip_region (Z.of_nat bg_w) (Z.of_nat bg_h) (Z.of_nat w) (Z.of_nat h) x y
  = Some rg →
  (x1 rg = Z.max 0 x ∧ y1 rg = Z.max 0 y
   ∧ x2 rg = Z.min (Z.of_nat bg_w) (x + Z.of_nat w)
   ∧ y2 rg = Z.min (Z.of_nat bg_h) (y + Z.of_nat h))
  ∧ (0 ≤ x1 rg ≤ x2 rg ∧ x2 rg ≤ Z.of_nat bg_w)
  ∧ (0 ≤ y1 rg ≤ y2 rg ∧ y2 rg ≤ Z.of_nat bg_h)
  ∧ (0 ≤ overlay_x1 rg ≤ overlay_x2 rg ∧ overlay_x2 rg ≤ Z.of_nat w)
  ∧ (0 ≤ overlay_y1 rg ≤ overlay_y2 rg ∧ overlay_y2 rg ≤ Z.of_nat h)
  ∧ overlay_x2 rg - overlay_x1 rg = x2 rg - x1 rg
  ∧ overlay_y2 rg - overlay_y1 rg = y2 rg - y1 rg
  ∧ (slice_bound bg_w (x1 rg) = x1 rg ∧ slice_bound bg_w (x2 rg) = x2 rg
     ∧ slice_bound bg_h (y1 rg) = y1 rg ∧ slice_bound bg_h (y2 rg) = y2 rg
     ∧ slice_bound w (overlay_x1 rg) = overlay_x1 rg
     ∧ slice_bound w (overlay_x2 rg) = overlay_x2 rg
     ∧ slice_bound h (overlay_y1 rg) = overlay_y1 rg
     ∧ slice_bound h (overlay_y2 rg) = overlay_y2 rg)
  ∧ (let ov_roi := slice2 ov (overlay_y1 rg) (overlay_y2 rg)
                          (overlay_x1 rg) (overlay_x2 rg) in
     let roi := slice2 bg (y1 rg) (y2 rg) (x1 rg) (x2 rg) in
     (shape_h ov_roi, shape_w ov_roi) = (shape_h roi, shape_w roi)
     ∧ (shape_h roi, shape_w roi)
       = (Z.to_nat (y2 rg - y1 rg), Z.to_nat (x2 rg - x1 rg)))
  ∧ ((0 < bg_w)%nat → (0 < bg_h)%nat → (0 < w)%nat → (0 < h)%nat →
     x1 rg < x2 rg ∧ y1 rg < y2 rg
     ∧ overlay_x1 rg < overlay_x2 rg ∧ overlay_y1 rg < overlay_y2 rg)
  ∧ (∀ (σ : store) (background overlay : addr),
       σ !! background = Some bg → σ !! overlay = Some ov →
       wf_shape bg → wf_shape ov → shape_c bg = 3%nat → shape_c ov = 4%nat →
       ∃ σ', overlay_image_alpha σ background overlay x y
             = Ret (σ', background)).
Proof.
  intros bg_w bg_h w h Hclip.
  pose proof (clip_region_Some _ _ _ _ _ _ _ Hclip)
    as (? & ? & ? & ? & ? & ? & ? & ? & ? & ? & ? & ?).
  split; [done |].
  cbn zeta. cbn [slice2 shape_h shape_w]. fold bg_w bg_h w h.
  unfold slice_len. rewrite !slice_bound_id by lia.
  repeat match goal with |- _ ∧ _ => split end; try lia.
  all: try (f_equal; lia).
  intros σ background overlay Hbg Hov Hwb Hwo Hcb Hco.
  eexists.
  apply (overlay_image_alpha_run bg ov x y rg);
    (done || lia).
Qed.

Lemma clipped_slices_in_range_witness :
  ∃ rg, clip_region 3 2 2 2 2 1 = Some rg
        ∧ (0 ≤ x1 rg < x2 rg ∧ x2 rg ≤ 3)
        ∧ (0 ≤ y1 rg < y2 rg ∧ y2 rg ≤ 2)
        ∧ (0 ≤ overlay_x1 rg < overlay_x2 rg ∧ overlay_x2 rg ≤ 2)
        ∧ (0 ≤ overlay_y1 rg < overlay_y2 rg ∧ overlay_y2 rg ≤ 2).
Proof.
  eexists. split; [reflexivity |].
  pose proof (clipped_slices_in_range frame23 overlay22 2 1 _ eq_refl)
    as (_ & Hx & Hy & Hox & Hoy & _ & _ & _ & _ & Hne & _).
  specialize (Hne ltac:(simpl; lia) ltac:(simpl; lia)
                  ltac:(simpl; lia) ltac:(simpl; lia)).
  simpl in *. lia.
Defined.





(** ** Scale *)

Lemma calibration_value : calibration = S754_finite false 5629499534213120 (-51).
Proof. vm_compute. reflexivity. Qed.

Lemma B2R_calibration : B2R calibration = 2.5%R.
Proof.
  rewrite calibration_value. unfold B2R.
  change (0 <=? -51) with false. cbv iota.
  change (2 ^ (- -51)) with 2251799813685248. lra.
Qed.

Lemma sqrt_2500 : b64_sqrt (b64_of_Z 2500) = b64_of_Z 50.
Proof. vm_compute. reflexivity. Qed.

Lemma B2R_50 : B2R (b64_of_Z 50) = 50%R.
Proof.
  replace (b64_of_Z 50) with (S754_finite false 7036874417766400 (-47))
    by (vm_compute; reflexivity).
  unfold B2R. change (0 <=? -47) with false. cbv iota.
  change (2 ^ (- -47)) with 140737488355328. lra.
Qed.

Lemma scale_50_200 :
  b64_div (b64_mul (b64_of_Z 50) calibration) (b64_of_Z 200)
  = S754_finite false 5629499534213120 (-53).
Proof. vm_compute. reflexivity. Qed.

Lemma B2R_0625 : B2R (S754_finite false 5629499534213120 (-53)) = 0.625%R.
Proof.
  unfold B2R. change (0 <=? -53) with false. cbv iota.
  change (2 ^ (- -53)) with 9007199254740992. lra.
Qed.

Lemma b64_is_Z_B2R (f : b64) (d : Z) : b64_is_Z f d = true → B2R f = IZR d.
Proof.
  destruct f as [s| s| |[|] m e]; unfold b64_is_Z, B2R; try discriminate.
  - intros H%Z.eqb_eq. by subst.
  - destruct (Z.leb_spec 0 e) as [He|He]; intros H%Z.eqb_eq.
    + by rewrite H.
    + rewrite H, mult_IZR. field.
      apply not_0_IZR. apply Z.pow_nonzero; lia.
Qed.

(** The float64 square root of a perfect square is exact, for every root a
    frame can hold. *)
Lemma sqrt_of_square (d : Z) :
  0 ≤ d < 8192 → b64_is_Z (b64_sqrt (b64_of_Z (d * d))) d = true.
Proof.
  intros Hd.
  apply (below_spec 8192 (λ d, b64_is_Z (b64_sqrt (b64_of_Z (d * d))) d));
    [| exact Hd].
  vm_compute. reflexivity.
Qed.

(** C5: the scale is the float64 quotient of (distance * 2.5) by the asset
    width, the distance being the float64 square root of the integer
    dx^2 + dy^2, which is the euclidean distance exactly whenever that
    distance is a whole number of pixels (below 8192); an inter-eye distance
    of 50 px with a 200 px asset gives exactly 0.625. *)
Theorem scale_from_eye_distance (left_eye_center right_eye_center : point)
    (original_sunglasses_width : Z) :
  let dx := right_eye_center.1 - left_eye_center.1 in
  let dy := right_eye_center.2 - left_eye_center.2 in
  scale left_eye_center right_eye_center original_sunglasses_width
  = b64_div (b64_mul (b64_sqrt (b64_of_Z (dx ^ 2 + dy ^ 2))) calibration)
            (b64_of_Z original_sunglasses_width)
  ∧ B2R calibration = 2.5%R
  ∧ (∀ d, 0 ≤ d < 8192 → dx ^ 2 + dy ^ 2 = d ^ 2 →
       B2R (eye_distance left_eye_center right_eye_center) = IZR d)
  ∧ (dx ^ 2 + dy ^ 2 = 50 ^ 2 →
     B2R (eye_distance left_eye_center right_eye_center) = 50%R
     ∧ scale left_eye_center right_eye_center 200
       = S754_finite false 5629499534213120 (-53)
     ∧ B2R (scale left_eye_center right_eye_center 200) = 0.625%R).
Proof.
  intros dx dy. split; [reflexivity |]. split; [exact B2R_calibration |].
  split.
  { intros d Hd Hsq. apply b64_is_Z_B2R.
    unfold eye_distance. fold dx dy. rewrite Hsq, Z.pow_2_r.
    by apply sqrt_of_square. }
  intros Hd.
  assert (He : eye_distance left_eye_center right_eye_center = b64_of_Z 50).
  { unfold eye_distance. fold dx dy. rewrite Hd. exact sqrt_2500. }
  split; [by rewrite He, B2R_50 |].
  assert (Hs : scale left_eye_center right_eye_center 200
               = S754_finite false 5629499534213120 (-53)).
  { unfold scale. rewrite He. exact scale_50_200. }
  split; [exact Hs | by rewrite Hs, B2R_0625].
Qed.

Lemma scale_from_eye_distance_witness :
  B2R (scale (100, 120) (130, 160) 200) = 0.625%R.
Proof.
  apply (scale_from_eye_distance (100, 120) (130, 160) 200). reflexivity.
Defined.

(** ** Angle *)

Lemma arctan2_pos_x_axis (x : R) : (0 < x)%R → arctan2 0 x = 0%R.
Proof.
  intros Hx. unfold arctan2. destruct (Rlt_dec 0 x) as [_|?]; [| lra].
  replace (0 / x)%R with 0%R by (field; lra). exact atan_0.
Qed.

Lemma arctan2_neg_x_axis (x : R) : (x < 0)%R → arctan2 0 x = PI.
Proof.
  intros Hx. unfold arctan2. destruct (Rlt_dec 0 x) as [?|_]; [lra |].
  destruct (Rlt_dec x 0) as [_|?]; [| lra].
  destruct (Rle_dec 0 0) as [_|?]; [| lra].
  replace (0 / x)%R with 0%R by (field; lra). rewrite atan_0. lra.
Qed.

Lemma arctan2_origin : arctan2 0 0 = 0%R.
Proof.
  unfold arctan2. destruct (Rlt_dec 0 0) as [?|_]; [lra | reflexivity].
Qed.

Lemma arctan2_pos_y_axis (y : R) : (0 < y)%R → arctan2 y 0 = (PI / 2)%R.
Proof.
  intros Hy. unfold arctan2. destruct (Rlt_dec 0 0) as [?|_]; [lra |].
  destruct (Rlt_dec 0 y) as [_|?]; [reflexivity | lra].
Qed.

Lemma arctan2_neg_y_axis (y : R) : (y < 0)%R → arctan2 y 0 = (- PI / 2)%R.
Proof.
  intros Hy. unfold arctan2. destruct (Rlt_dec 0 0) as [?|_]; [lra |].
  destruct (Rlt_dec 0 y) as [?|_]; [lra |].
  destruct (Rlt_dec y 0) as [_|?]; [reflexivity | lra].
Qed.

Lemma degrees_PI : degrees PI = 180%R.
Proof. unfold degrees. field. apply PI_neq0. Qed.

Lemma degrees_0 : degrees 0 = 0%R.
Proof. unfold degrees. lra. Qed.

Lemma degrees_half_PI : degrees (PI / 2) = 90%R.
Proof. unfold degrees. field. apply PI_neq0. Qed.

Lemma degrees_neg_half_PI : degrees (- PI / 2) = (-90)%R.
Proof. unfold degrees. field. apply PI_neq0. Qed.

Lemma angle_level (l r : point) :
  r.2 - l.2 = 0 → 0 ≤ r.1 - l.1 → angle l r = 0%R.
Proof.
  intros Hy Hx. unfold angle. rewrite Hy.
  destruct (Z.eq_dec (r.1 - l.1) 0) as [->|Hne].
  - by rewrite arctan2_origin, degrees_0.
  - rewrite arctan2_pos_x_axis, degrees_0; [done |]. apply IZR_lt. lia.
Qed.

Lemma angle_level_reversed (l r : point) :
  r.2 - l.2 = 0 → r.1 - l.1 < 0 → angle l r = 180%R.
Proof.
  intros Hy Hx. unfold angle. rewrite Hy.
  rewrite arctan2_neg_x_axis, degrees_PI; [done |]. by apply IZR_lt.
Qed.

Lemma angle_plumb_down (l r : point) :
  r.1 - l.1 = 0 → 0 < r.2 - l.2 → angle l r = 90%R.
Proof.
  intros Hx Hy. unfold angle. rewrite Hx.
  rewrite arctan2_pos_y_axis, degrees_half_PI; [done |]. by apply IZR_lt.
Qed.

Lemma angle_plumb_up (l r : point) :
  r.1 - l.1 = 0 → r.2 - l.2 < 0 → angle l r = (-90)%R.
Proof.
  intros Hx Hy. unfold angle. rewrite Hx.
  rewrite arctan2_neg_y_axis, degrees_neg_half_PI; [done |]. by apply IZR_lt.
Qed.

(** C6, as amended: the angle is degrees(atan2(dy, dx)) of the vector from
    the left to the right eye centre. With equal y-coordinates it is 0 when
    the right eye centre is not to the left of the left one and 180
    otherwise; with equal x-coordinates it is 90 when the right eye centre is
    lower in the frame (larger y) and -90 when it is higher. *)
Theorem angle_on_the_axes (left_eye_center right_eye_center : point) :
  let dx := right_eye_center.1 - left_eye_center.1 in
  let dy := right_eye_center.2 - left_eye_center.2 in
  angle left_eye_center right_eye_center = degrees (arctan2 (IZR dy) (IZR dx))
  ∧ (dy = 0 → 0 ≤ dx → angle left_eye_center right_eye_center = 0%R)
  ∧ (dy = 0 → dx < 0 → angle left_eye_center right_eye_center = 180%R)
  ∧ (dx = 0 → 0 < dy → angle left_eye_center right_eye_center = 90%R)
  ∧ (dx = 0 → dy < 0 → angle left_eye_center right_eye_center = (-90)%R).
Proof.
  intros dx dy. split; [reflexivity |].
  split; [apply angle_level |]. split; [apply angle_level_reversed |].
  split; [apply angle_plumb_down | apply angle_plumb_up].
Qed.

Lemma angle_on_the_axes_witness :
  angle (100, 120) (160, 120) = 0%R ∧ angle (100, 120) (100, 150) = 90%R.
Proof.
  split.
  - apply (angle_on_the_axes (100, 120) (160, 120)); simpl; lia.
  - apply (angle_on_the_axes (100, 120) (100, 150)); simpl; lia.
Defined.

(** C6 as stated fails: equal y-coordinates with the right eye centre to the
    left of the left one give 180, not 0. *)
Lemma level_eyes_reversed_give_180 :
  ¬ (∀ left_eye_center right_eye_center : point,
       right_eye_center.2 = left_eye_center.2 →
       angle left_eye_center right_eye_center = 0%R).
Proof.
  intros H. specialize (H (10, 5) (0, 5) eq_refl).
  rewrite (angle_level_reversed (10, 5) (0, 5)) in H by (simpl; lia).
  lra.
Qed.

(** ** Rotation *)

Lemma affine_ext (M N : affine) :
  m00 M = m00 N → m01 M = m01 N → m02 M = m02 N →
  m10 M = m10 N → m11 M = m11 N → m12 M = m12 N → M = N.
Proof. destruct M, N; cbn; intros; congruence. Qed.

Lemma py_int_nonneg (r : R) : (0 <= r)%R → py_int r = Int_part r ∧ 0 ≤ Int_part r.
Proof.
  intros Hr. unfold py_int. destruct (Rle_dec 0 r) as [_|?]; [| done].
  split; [done |].
  destruct (base_Int_part r) as [_ Hlt].
  assert (-1 < Int_part r) by (apply lt_IZR; lra). lia.
Qed.

Lemma saturate_uint8_byte (v : Z) : 0 ≤ v < 256 → saturate_uint8 (IZR v) = v.
Proof.
  intros Hv. unfold saturate_uint8.
  assert (E : Int_part (IZR v + / 2) = v)
    by (symmetry; apply Int_part_spec; lra).
  rewrite E. lia.
Qed.

Lemma bilinear_at_pixel (img : image) (x y k : nat) :
  bilinear img (INR x) (INR y) k
  = IZR (src_or_border img (Z.of_nat y) (Z.of_nat x) k).
Proof.
  unfold bilinear. rewrite !Int_part_INR, <- !INR_IZR_INZ. lra.
Qed.

Lemma src_or_border_inside (img : image) (y x k : nat) (px : list Z) (v : Z) :
  pixel_at img y x = Some px → px !! k = Some v →
  src_or_border img (Z.of_nat y) (Z.of_nat x) k = v.
Proof.
  intros Hpx Hk. unfold src_or_border.
  destruct (Z.leb_spec 0 (Z.of_nat y)); [| lia].
  destruct (Z.leb_spec 0 (Z.of_nat x)); [| lia]. cbn [andb].
  by rewrite !Nat2Z.id, Hpx; cbn; rewrite Hk.
Qed.

(** The transformed overlay is never empty: an empty [dsize] falls back to
    the size of the source. *)
Lemma rotate_and_scale_image_nonempty (img : image) (θ s : R) :
  (0 < shape_h img)%nat → (0 < shape_w img)%nat →
  (0 < shape_h (rotate_and_scale_image img θ s))%nat
  ∧ (0 < shape_w (rotate_and_scale_image img θ s))%nat.
Proof.
  intros Hh Hw. unfold rotate_and_scale_image.
  destruct (rotation_canvas _ _ θ s) as [[nw nh] M].
  unfold warpAffine. cbn [shape_h shape_w fst snd].
  destruct (Z.leb_spec nw 0), (Z.leb_spec nh 0); cbn [orb]; lia.
Qed.

Lemma extent_nonneg (h w : nat) (a b : R) :
  (0 <= INR h * Rabs a + INR w * Rabs b)%R.
Proof.
  pose proof (pos_INR h). pose proof (pos_INR w).
  pose proof (Rabs_pos a). pose proof (Rabs_pos b).
  apply Rplus_le_le_0_compat; by apply Rmult_le_pos.
Qed.

Lemma rotation_canvas_unfold (h w : nat) (θ s : R) :
  let C := (s * cos (θ * PI / 180))%R in
  let S := (s * sin (θ * PI / 180))%R in
  let new_w := Int_part (INR h * Rabs S + INR w * Rabs C) in
  let new_h := Int_part (INR h * Rabs C + INR w * Rabs S) in
  let cx := IZR (Z.of_nat w / 2) in
  let cy := IZR (Z.of_nat h / 2) in
  rotation_canvas (Z.of_nat h) (Z.of_nat w) θ s
  = ((new_w, new_h),
     Affine C S ((1 - C) * cx - S * cy + IZR (new_w - Z.of_nat w) / 2)%R
            (- S)%R C (S * cx + (1 - C) * cy + IZR (new_h - Z.of_nat h) / 2)%R).
Proof.
  intros C S new_w new_h cx cy.
  unfold rotation_canvas, getRotationMatrix2D.
  cbn [m00 m01 m02 m10 m11 m12 fst snd]. fold C S.
  rewrite <- !INR_IZR_INZ.
  destruct (py_int_nonneg _ (extent_nonneg h w S C)) as [-> _].
  destruct (py_int_nonneg _ (extent_nonneg h w C S)) as [-> _].
  reflexivity.
Qed.

(** ** The compositor on arrays it cannot blend *)

(** X1: on a placement that intersects the frame, an overlay with fewer than
    four channels makes [overlay[..., 3]] raise IndexError, whatever the
    frame is; nothing has been written at that point. *)
Theorem overlay_without_alpha_raises (σ : store) (background overlay : addr)
    (bg ov : image) (x y : Z) (rg : region) :
  σ !! background = Some bg → σ !! overlay = Some ov →
  (shape_c ov < 4)%nat →
  clip_region (Z.of_nat (shape_w bg)) (Z.of_nat (shape_h bg))
              (Z.of_nat (shape_w ov)) (Z.of_nat (shape_h ov)) x y = Some rg →
  overlay_image_alpha σ background overlay x y = Raise IndexError.
Proof.
  intros Hbg Hov Hc Hclip. unfold overlay_image_alpha, deref.
  rewrite Hov, Hbg. cbn [mbind outcome_bind]. rewrite Hclip.
  unfold channel3. cbn [slice2 shape_c].
  destruct (Nat.ltb_spec 3 (shape_c ov)) as [?|_]; [lia | reflexivity].
Qed.

Lemma overlay_without_alpha_raises_witness :
  overlay_image_alpha store0 1%positive 1%positive 0 0 = Raise IndexError.
Proof.
  apply (overlay_without_alpha_raises store0 1%positive 1%positive
           frame23 frame23 0 0 (Region 0 0 3 2 0 0 3 2) eq_refl eq_refl).
  - simpl. lia.
  - reflexivity.
Defined.

(** X2: on a placement that intersects the frame, a frame whose channel
    count is not three is rejected with ValueError, because its pixels cannot
    be broadcast against the three colour channels of the overlay. *)
Theorem overlay_on_non_bgr_frame_raises (σ : store) (background overlay : addr)
    (bg ov : image) (x y : Z) (rg : region) :
  σ !! background = Some bg → σ !! overlay = Some ov →
  wf_shape bg → wf_shape ov →
  shape_c bg ≠ 3%nat → (3 < shape_c ov)%nat →
  clip_region (Z.of_nat (shape_w bg)) (Z.of_nat (shape_h bg))
              (Z.of_nat (shape_w ov)) (Z.of_nat (shape_h ov)) x y = Some rg →
  overlay_image_alpha σ background overlay x y = Raise ValueError.
Proof.
  intros Hbg Hov Hwb Hwo Hcb Hco Hclip.
  pose proof (clip_region_slices _ _ _ _ _ _ _ Hclip)
    as (Hx & Hy & Hox & Hoy & Hox0 & Hoy0 & Sx1 & Sy1 & Sox1 & Soy1
        & Lx & Ly & Lox & Loy).
  unfold overlay_image_alpha, deref. rewrite Hov, Hbg.
  cbn [mbind outcome_bind]. rewrite Hclip.
  set (S := slice2 ov (overlay_y1 rg) (overlay_y2 rg)
                      (overlay_x1 rg) (overlay_x2 rg)).
  set (ROI := slice2 bg (y1 rg) (y2 rg) (x1 rg) (x2 rg)).
  assert (HwS : wf_shape S) by by apply wf_shape_slice2.
  assert (HwR : wf_shape ROI) by by apply wf_shape_slice2.
  assert (HhS : shape_h S = Z.to_nat (y2 rg - y1 rg)) by exact Loy.
  assert (HwdS : shape_w S = Z.to_nat (x2 rg - x1 rg)) by exact Lox.
  assert (HhR : shape_h ROI = Z.to_nat (y2 rg - y1 rg)) by exact Ly.
  assert (HwdR : shape_w ROI = Z.to_nat (x2 rg - x1 rg)) by exact Lx.
  assert (HcS : shape_c S = shape_c ov) by reflexivity.
  assert (HcR : shape_c ROI = shape_c bg) by reflexivity.
  unfold channel3. rewrite HcS.
  destruct (Nat.ltb_spec 3 (shape_c ov)) as [_|?]; [| lia].
  cbn [mbind outcome_bind].
  set (FA := λ px : list Z, [alpha_of (nth 3 px 0)]).
  assert (Halpha : newaxis (shape_h S) (shape_w S)
                     (map (map alpha_of) (map (map (λ px, nth 3 px 0)) (data S)))
                   = NdArr (shape_h S) (shape_w S) 1 (map (map FA) (data S))).
  { unfold newaxis. by rewrite !map_map2. }
  rewrite Halpha. clear Halpha.
  assert (HwA : wf_shape (NdArr (shape_h S) (shape_w S) 1 (map (map FA) (data S))))
    by (by apply wf_shape_map).
  assert (HwF : wf_shape (first3 S)).
  { apply wf_shape_map; [done |]. intros px Hpx. rewrite length_take. lia. }
  rewrite (np_binop_same_hw _ (first3 S)) by done.
  cbn [shape_c first3 shape_h shape_w data].
  replace (Nat.min 3 (shape_c S)) with 3%nat by lia.
  change (bdim 3 1) with (Ret (A := nat) 3%nat). cbn [mbind outcome_bind].
  assert (HwA1 : wf_shape (np_map (b64_sub (b64_of_Z 1))
                   (NdArr (shape_h S) (shape_w S) 1 (map (map FA) (data S))))).
  { unfold np_map; cbn [shape_h shape_w shape_c data]. rewrite map_map2.
    by apply wf_shape_map. }
  rewrite (np_binop_same_hw _ ROI) by (done || (cbn; congruence)).
  cbn [np_map shape_c shape_h shape_w data]. rewrite HcR.
  assert (Eh : shape_h S = shape_h ROI) by congruence.
  assert (Ew : shape_w S = shape_w ROI) by congruence.
  destruct (Nat.eq_dec (shape_c bg) 1%nat) as [H1|H1].
  - (* one channel: the sum has three channels, the write fails *)
    rewrite H1. change (bdim 1 1) with (Ret (A := nat) 1%nat).
    cbn [mbind outcome_bind].
    unfold np_binop at 1. cbn [shape_c shape_h shape_w data].
    rewrite Eh, Ew, !bdim_same. cbn [mbind outcome_bind].
    change (bdim 3 1) with (Ret (A := nat) 3%nat). cbn [mbind outcome_bind].
    unfold assign_slice2, np_map. cbn [shape_c shape_h shape_w data].
    rewrite H1. unfold broadcastable_to at 3. cbn.
    by rewrite andb_false_r.
  - (* otherwise the two products cannot be added *)
    assert (Hb : bdim (shape_c bg) 1 = Ret (shape_c bg)).
    { unfold bdim.
      destruct (Nat.eqb_spec (shape_c bg) 1) as [?|_]; [done |].
      by rewrite Nat.eqb_refl. }
    rewrite Hb. cbn [mbind outcome_bind].
    unfold np_binop at 1. cbn [shape_c shape_h shape_w data].
    rewrite Eh, Ew, !bdim_same. cbn [mbind outcome_bind].
    assert (Hbad : bdim 3 (shape_c bg) = Raise ValueError).
    { unfold bdim.
      destruct (Nat.eqb_spec 3 (shape_c bg)) as [?|_]; [congruence |].
      cbn.
      destruct (Nat.eqb_spec (shape_c bg) 1) as [?|_]; [done | reflexivity]. }
    by rewrite Hbad.
Qed.

Lemma overlay_on_non_bgr_frame_raises_witness :
  overlay_image_alpha store0 2%positive 2%positive 0 0 = Raise ValueError.
Proof.
  apply (overlay_on_non_bgr_frame_raises store0 2%positive 2%positive
           overlay22 overlay22 0 0 (Region 0 0 2 2 0 0 2 2) eq_refl eq_refl
           wf_overlay22 wf_overlay22).
  - simpl. lia.
  - simpl. lia.
  - reflexivity.
Defined.

(** ** Bytes in, bytes out *)

Lemma is_uint8_intro (a : image) :
  (∀ r c px, pixel_at a r c = Some px → Forall (λ v, 0 ≤ v < 256) px) →
  is_uint8 a.
Proof.
  intros H. apply Forall_lookup_2. intros r row Hrow.
  apply Forall_lookup_2. intros c px Hpx. apply (H r c).
  unfold pixel_at. by rewrite Hrow.
Qed.

Lemma f64_to_uint8_byte (f : b64) : 0 ≤ f64_to_uint8 f < 256.
Proof. unfold f64_to_uint8. apply Z.mod_pos_bound. lia. Qed.

Lemma blend_pixel_bytes (opx bpx : list Z) :
  Forall (λ v, 0 ≤ v < 256) (blend_pixel opx bpx).
Proof.
  unfold blend_pixel. apply Forall_lookup_2. intros i v Hv.
  apply lookup_zip_with_Some in Hv as (o & b & -> & _ & _).
  apply f64_to_uint8_byte.
Qed.

Lemma is_uint8_composited (bg ov : image) (x y : Z) (rg : region) :
  wf_shape bg → wf_shape ov → is_uint8 bg →
  clip_region (Z.of_nat (shape_w bg)) (Z.of_nat (shape_h bg))
              (Z.of_nat (shape_w ov)) (Z.of_nat (shape_h ov)) x y = Some rg →
  is_uint8 (composited bg ov rg).
Proof.
  intros Hwb Hwo Hub Hclip. apply is_uint8_intro. intros r c px Hpx.
  rewrite (pixel_at_composited bg ov x y rg Hwb Hwo Hclip) in Hpx.
  destruct (in_region rg r c).
  - destruct (pixel_at ov _ _) as [opx|]; [| done].
    destruct (pixel_at bg r c) as [bpx|]; [| done].
    injection Hpx as <-. apply blend_pixel_bytes.
  - by eapply is_uint8_pixel_at.
Qed.

(** X3: whatever values the overlay holds, every value the blend stores is
    a byte: on an intersecting placement a frame of bytes stays a
    well-formed three-channel frame of bytes of the same size, so it can be
    composited on again. *)
Theorem overlay_keeps_frame_bytes (σ : store) (background overlay : addr)
    (bg ov : image) (x y : Z) (rg : region) :
  σ !! background = Some bg → σ !! overlay = Some ov →
  wf_shape bg → wf_shape ov → is_uint8 bg →
  shape_c bg = 3%nat → (3 < shape_c ov)%nat →
  clip_region (Z.of_nat (shape_w bg)) (Z.of_nat (shape_h bg))
              (Z.of_nat (shape_w ov)) (Z.of_nat (shape_h ov)) x y = Some rg →
  ∃ bg',
    overlay_image_alpha σ background overlay x y
    = Ret (<[background := bg']> σ, background)
    ∧ is_uint8 bg' ∧ wf_shape bg'
    ∧ (shape_h bg', shape_w bg', shape_c bg') = (shape_h bg, shape_w bg, 3%nat).
Proof.
  intros Hbg Hov Hwb Hwo Hub Hcb Hco Hclip.
  exists (composited bg ov rg).
  split; [by apply (overlay_image_alpha_run bg ov x y rg) |].
  split; [by apply (is_uint8_composited bg ov x y) |].
  split; [by apply (wf_shape_composited bg ov x y rg) |].
  cbn. by rewrite Hcb.
Qed.

Lemma overlay_keeps_frame_bytes_witness :
  ∃ bg',
    overlay_image_alpha store0 1%positive 2%positive (-1) 1
    = Ret (<[1%positive := bg']> store0, 1%positive)
    ∧ is_uint8 bg'.
Proof.
  destruct (overlay_keeps_frame_bytes store0 1%positive 2%positive
              frame23 overlay22 (-1) 1 (Region 0 1 1 2 1 0 2 1)
              eq_refl eq_refl wf_frame23 wf_overlay22 uint8_frame23
              eq_refl ltac:(simpl; lia) eq_refl)
    as (bg' & Hrun & Hu & _).
  exists bg'. by split.
Defined.

(** X4: on an intersecting placement, pixel by pixel: where the overlay
    pixel lying over a frame position is fully opaque (A = 255) the position
    receives the overlay colour exactly, and where it is fully transparent
    (A = 0) the position keeps its value exactly, whatever the transparency of
    the other overlay pixels. *)
Theorem overlay_pixel_opaque_or_transparent (σ : store)
    (background overlay : addr) (bg ov : image) (x y : Z) (rg : region) :
  σ !! background = Some bg → σ !! overlay = Some ov →
  wf_shape bg → wf_shape ov → is_uint8 bg → is_uint8 ov →
  shape_c bg = 3%nat → shape_c ov = 4%nat →
  clip_region (Z.of_nat (shape_w bg)) (Z.of_nat (shape_h bg))
              (Z.of_nat (shape_w ov)) (Z.of_nat (shape_h ov)) x y = Some rg →
  ∃ bg',
    overlay_image_alpha σ background overlay x y
    = Ret (<[background := bg']> σ, background)
    ∧ ∀ r c opx, in_region rg r c = true →
        pixel_at ov (Z.to_nat (Z.of_nat r - y)) (Z.to_nat (Z.of_nat c - x))
        = Some opx →
        (opx !! 3%nat = Some 255 → pixel_at bg' r c = Some (take 3 opx))
        ∧ (opx !! 3%nat = Some 0 → pixel_at bg' r c = pixel_at bg r c).
Proof.
  intros Hbg Hov Hwb Hwo Hub Huo Hcb Hco Hclip.
  exists (composited bg ov rg).
  split; [apply (overlay_image_alpha_run bg ov x y rg); (done || lia) |].
  intros r c opx Hin Ho.
  rewrite (pixel_at_composited bg ov x y rg Hwb Hwo Hclip), Hin, Ho.
  destruct (in_region_bounds bg ov x y rg Hclip r c Hin) as (Hr & Hc & _).
  destruct (wf_shape_pixel_some bg r c Hwb Hr Hc) as [bpx Hb].
  rewrite Hb. cbn [mbind option_bind].
  pose proof (is_uint8_pixel_at ov _ _ _ Huo Ho) as Hbo.
  pose proof (is_uint8_pixel_at bg _ _ _ Hub Hb) as Hbb.
  pose proof (wf_shape_pixel_at bg r c bpx Hwb Hb) as Hlen.
  rewrite Hcb in Hlen.
  split; intros Ha; f_equal.
  - by apply blend_pixel_opaque.
  - by apply blend_pixel_transparent.
Qed.

Lemma overlay_pixel_opaque_or_transparent_witness :
  ∃ bg',
    overlay_image_alpha store0 1%positive 2%positive 0 0
    = Ret (<[1%positive := bg']> store0, 1%positive)
    ∧ pixel_at bg' 0 0 = Some [100; 101; 102]
    ∧ pixel_at bg' 0 1 = Some [4; 5; 6].
Proof.
  destruct (overlay_pixel_opaque_or_transparent store0 1%positive 2%positive
              frame23 overlay22 0 0 (Region 0 0 2 2 0 0 2 2)
              eq_refl eq_refl wf_frame23 wf_overlay22 uint8_frame23
              uint8_overlay22 eq_refl eq_refl eq_refl)
    as (bg' & Hrun & Hpix).
  exists bg'. split; [exact Hrun |]. split.
  - apply (Hpix 0%nat 0%nat [100; 101; 102; 255] eq_refl eq_refl). reflexivity.
  - apply (Hpix 0%nat 1%nat [110; 111; 112; 0] eq_refl eq_refl). reflexivity.
Defined.

(** ** Overlays that do not meet *)

(** Compositing [ovA] and then [ovB] on the frame, as one array. *)
Lemma composited_twice_pixel (bg ovA ovB : image) (xa ya xb yb : Z)
    (rgA rgB : region) (r c : nat) :
  wf_shape bg → wf_shape ovA → wf_shape ovB →
  shape_c bg = 3%nat → (3 < shape_c ovA)%nat →
  clip_region (Z.of_nat (shape_w bg)) (Z.of_nat (shape_h bg))
              (Z.of_nat (shape_w ovA)) (Z.of_nat (shape_h ovA)) xa ya = Some rgA →
  clip_region (Z.of_nat (shape_w bg)) (Z.of_nat (shape_h bg))
              (Z.of_nat (shape_w ovB)) (Z.of_nat (shape_h ovB)) xb yb = Some rgB →
  in_region rgA r c && in_region rgB r c = false →
  pixel_at (composited (composited bg ovA rgA) ovB rgB) r c
  = if in_region rgA r c
    then pixel_at (composited bg ovA rgA) r c
    else pixel_at (composited bg ovB rgB) r c.
Proof.
  intros Hwb HwA HwB Hcb HcA HclA HclB Hdis.
  pose proof (wf_shape_composited bg ovA xa ya rgA Hwb HwA HclA Hcb HcA) as HwcA.
  rewrite (pixel_at_composited (composited bg ovA rgA) ovB xb yb rgB HwcA HwB HclB).
  rewrite (pixel_at_composited bg ovB xb yb rgB Hwb HwB HclB).
  rewrite (pixel_at_composited bg ovA xa ya rgA Hwb HwA HclA).
  destruct (in_region rgA r c), (in_region rgB r c); try done.
Qed.

(** X5: two overlays whose clipped rectangles share no position can be
    composited in either order: both orders return the frame object holding
    the same pixels, and leave the same store. *)
Theorem disjoint_overlays_commute (σ : store) (background oa ob : addr)
    (bg ovA ovB : image) (xa ya xb yb : Z) (rgA rgB : region) :
  σ !! background = Some bg → σ !! oa = Some ovA → σ !! ob = Some ovB →
  oa ≠ background → ob ≠ background →
  wf_shape bg → wf_shape ovA → wf_shape ovB →
  shape_c bg = 3%nat → shape_c ovA = 4%nat → shape_c ovB = 4%nat →
  clip_region (Z.of_nat (shape_w bg)) (Z.of_nat (shape_h bg))
              (Z.of_nat (shape_w ovA)) (Z.of_nat (shape_h ovA)) xa ya = Some rgA →
  clip_region (Z.of_nat (shape_w bg)) (Z.of_nat (shape_h bg))
              (Z.of_nat (shape_w ovB)) (Z.of_nat (shape_h ovB)) xb yb = Some rgB →
  (∀ r c, in_region rgA r c && in_region rgB r c = false) →
  (r ← overlay_image_alpha σ background oa xa ya;
   overlay_image_alpha r.1 r.2 ob xb yb)
  = (r ← overlay_image_alpha σ background ob xb yb;
     overlay_image_alpha r.1 r.2 oa xa ya).
Proof.
  intros Hbg HoA HoB HneA HneB Hwb HwA HwB Hcb HcA HcB HclA HclB Hdis.
  assert (HcA' : (3 < shape_c ovA)%nat) by lia.
  assert (HcB' : (3 < shape_c ovB)%nat) by lia.
  pose proof (wf_shape_composited bg ovA xa ya rgA Hwb HwA HclA Hcb HcA') as HwcA.
  pose proof (wf_shape_composited bg ovB xb yb rgB Hwb HwB HclB Hcb HcB') as HwcB.
  rewrite (overlay_image_alpha_run bg ovA xa ya rgA Hwb HwA HclA σ background oa)
    by done.
  rewrite (overlay_image_alpha_run bg ovB xb yb rgB Hwb HwB HclB σ background ob)
    by done.
  cbn [mbind outcome_bind fst snd].
  rewrite (overlay_image_alpha_run (composited bg ovA rgA) ovB xb yb rgB
             HwcA HwB HclB _ background ob);
    [| by rewrite lookup_insert_eq | by rewrite lookup_insert_ne
     | exact Hcb | exact HcB'].
  rewrite (overlay_image_alpha_run (composited bg ovB rgB) ovA xa ya rgA
             HwcB HwA HclA _ background oa);
    [| by rewrite lookup_insert_eq | by rewrite lookup_insert_ne
     | exact Hcb | exact HcA'].
  rewrite !insert_insert_eq. do 3 f_equal.
  apply ndarr_ext; try reflexivity.
  - by apply (wf_shape_composited _ ovB xb yb rgB).
  - by apply (wf_shape_composited _ ovA xa ya rgA).
  - intros r c.
    rewrite (composited_twice_pixel bg ovA ovB xa ya xb yb rgA rgB r c)
      by done.
    rewrite (composited_twice_pixel bg ovB ovA xb yb xa ya rgB rgA r c)
      by (done || (rewrite andb_comm; apply Hdis)).
    specialize (Hdis r c).
    rewrite (pixel_at_composited bg ovB xb yb rgB Hwb HwB HclB).
    rewrite (pixel_at_composited bg ovA xa ya rgA Hwb HwA HclA).
    destruct (in_region rgA r c), (in_region rgB r c); done.
Qed.

Lemma disjoint_overlays_commute_witness :
  (r ← overlay_image_alpha store0 1%positive 2%positive (-1) 0;
   overlay_image_alpha r.1 r.2 2%positive 2 0)
  = (r ← overlay_image_alpha store0 1%positive 2%positive 2 0;
     overlay_image_alpha r.1 r.2 2%positive (-1) 0).
Proof.
  apply (disjoint_overlays_commute store0 1%positive 2%positive 2%positive
           frame23 overlay22 overlay22 (-1) 0 2 0
           (Region 0 0 1 2 1 0 2 2) (Region 2 0 3 2 0 0 1 2)
           eq_refl eq_refl eq_refl ltac:(done) ltac:(done)
           wf_frame23 wf_overlay22 wf_overlay22 eq_refl eq_refl eq_refl
           eq_refl eq_refl).
  intros r c. unfold in_region. cbn [x1 x2 y1 y2].
  destruct (Z.ltb_spec (Z.of_nat c) 1), (Z.leb_spec 2 (Z.of_nat c));
    rewrite ?andb_false_r; cbn; try reflexivity; lia.
Defined.

(** ** The loader, pixel by pixel *)

(** The luminance lies between the smallest and the largest channel. *)
Lemma bgr2gray_between (b g r lo hi : Z) :
  lo ≤ b ≤ hi → lo ≤ g ≤ hi → lo ≤ r ≤ hi →
  lo ≤ bgr2gray [b; g; r] ≤ hi.
Proof.
  intros Hb Hg Hr. unfold bgr2gray. rewrite Z.shiftr_div_pow2 by lia.
  change (2 ^ 15) with 32768. split.
  - apply Z.div_le_lower_bound; lia.
  - apply Z.lt_succ_r. apply Z.div_lt_upper_bound; lia.
Qed.

Lemma luminance_between (px : list Z) (lo hi : Z) :
  length (take 3 px) = 3%nat →
  Forall (λ v, lo ≤ v ≤ hi) (take 3 px) →
  lo ≤ bgr2gray (take 3 px) ≤ hi.
Proof.
  intros Hlen Hall.
  destruct (take 3 px) as [|b [|g [|r [|]]]]; try discriminate Hlen.
  repeat match goal with H : Forall _ (_ :: _) |- _ => inversion_clear H end.
  by apply bgr2gray_between.
Qed.

Lemma alpha_from_bgr_bytes (px : list Z) :
  Forall (λ v, 0 ≤ v < 256) px → Forall (λ v, 0 ≤ v < 256) (alpha_from_bgr px).
Proof.
  intros H. unfold alpha_from_bgr. apply Forall_app. split; [exact H |].
  constructor; [| constructor]. destruct (_ <? _); lia.
Qed.

Lemma alpha_from_bgra_bytes (px : list Z) :
  Forall (λ v, 0 ≤ v < 256) px → Forall (λ v, 0 ≤ v < 256) (alpha_from_bgra px).
Proof.
  intros H. unfold alpha_from_bgra. apply Forall_insert; [exact H |].
  apply Z.mod_pos_bound. lia.
Qed.

Lemma load_loaded (img : image) :
  wf_shape img → (3 ≤ shape_c img)%nat →
  load_sunglasses_with_alpha (Some (Arr3 img)) = Ret (Some (loaded img)).
Proof.
  intros Hwf Hc. unfold loaded.
  destruct (Nat.eqb_spec (shape_c img) 3) as [H3|H3].
  - by apply load_bgr.
  - apply load_bgra. lia.
Qed.

Lemma pixel_at_loaded (img : image) (r c : nat) :
  pixel_at (loaded img) r c
  = (if (shape_c img =? 3)%nat then alpha_from_bgr else alpha_from_bgra)
      <$> pixel_at img r c.
Proof.
  unfold loaded. destruct img as [h w ch d]. cbn [shape_h shape_w shape_c data].
  destruct (ch =? 3)%nat; apply pixel_at_map.
Qed.

Lemma wf_shape_loaded (img : image) :
  wf_shape img → (3 ≤ shape_c img)%nat → wf_shape (loaded img).
Proof.
  intros Hwf Hc. unfold loaded.
  destruct (Nat.eqb_spec (shape_c img) 3) as [H3|H3].
  - apply wf_shape_map; [done |]. intros px Hpx.
    unfold alpha_from_bgr. rewrite length_app, Hpx, H3. reflexivity.
  - apply wf_shape_map; [done |]. intros px Hpx.
    unfold alpha_from_bgra. by rewrite length_insert.
Qed.

(** X6: the loader touches nothing but the fourth channel: for every decoded
    byte image with at least three channels the result has the same height
    and width, is again a well-formed byte image, and every pixel keeps its
    three colour values and any channel beyond the fourth. *)
Theorem loader_keeps_colour_and_size (img : image) :
  wf_shape img → is_uint8 img → (3 ≤ shape_c img)%nat →
  ∃ out,
    load_sunglasses_with_alpha (Some (Arr3 img)) = Ret (Some out)
    ∧ wf_shape out ∧ is_uint8 out
    ∧ (shape_h out, shape_w out, shape_c out)
      = (shape_h img, shape_w img, Nat.max 4 (shape_c img))
    ∧ ∀ r c px, pixel_at img r c = Some px →
        ∃ px', pixel_at out r c = Some px'
               ∧ take 3 px' = take 3 px ∧ drop 4 px' = drop 4 px.
Proof.
  intros Hwf Hu Hc. exists (loaded img).
  split; [by apply load_loaded |]. split; [by apply wf_shape_loaded |].
  split; [| split].
  - apply is_uint8_intro. intros r c px Hpx. rewrite pixel_at_loaded in Hpx.
    destruct (pixel_at img r c) as [px0|] eqn:H0; [| done].
    injection Hpx as <-. pose proof (is_uint8_pixel_at img r c px0 Hu H0).
    destruct (_ =? _)%nat;
      [by apply alpha_from_bgr_bytes | by apply alpha_from_bgra_bytes].
  - unfold loaded. destruct (Nat.eqb_spec (shape_c img) 3) as [H3|H3]; cbn.
    + by rewrite H3.
    + do 2 f_equal. lia.
  - intros r c px Hpx. rewrite pixel_at_loaded, Hpx. cbn.
    pose proof (wf_shape_pixel_at img r c px Hwf Hpx) as Hlen.
    destruct (Nat.eqb_spec (shape_c img) 3) as [H3|H3].
    + eexists. split; [reflexivity |]. unfold alpha_from_bgr.
      rewrite take_app_le, drop_app_ge by lia.
      split; [reflexivity |]. rewrite !drop_ge; (done || cbn; lia).
    + eexists. split; [reflexivity |]. unfold alpha_from_bgra.
      rewrite take_insert_ge by lia. split; [reflexivity |].
      by rewrite drop_insert_lt by lia.
Qed.

Lemma loader_keeps_colour_and_size_witness :
  ∃ out,
    load_sunglasses_with_alpha (Some (Arr3 dark_half)) = Ret (Some out)
    ∧ wf_shape out ∧ is_uint8 out.
Proof.
  destruct (loader_keeps_colour_and_size dark_half wf_dark_half uint8_dark_half
              ltac:(simpl; lia)) as (out & Hload & Hwf & Hu & _).
  exists out. exact (conj Hload (conj Hwf Hu)).
Defined.

Lemma alpha_at_loaded (img : image) (r c : nat) (px : list Z) :
  wf_shape img → is_uint8 img → (3 ≤ shape_c img)%nat →
  pixel_at img r c = Some px →
  alpha_at (loaded img) r c
  = Some (if brightness_threshold <? bgr2gray (take 3 px) then 0
          else if (shape_c img =? 3)%nat then 255 else nth 3 px 0).
Proof.
  intros Hwf Hu Hc Hpx. unfold alpha_at. rewrite pixel_at_loaded, Hpx. cbn.
  pose proof (wf_shape_pixel_at img r c px Hwf Hpx) as Hlen.
  destruct (Nat.eqb_spec (shape_c img) 3) as [H3|H3].
  - apply alpha_from_bgr_lookup. congruence.
  - rewrite alpha_from_bgra_lookup by lia. f_equal.
    destruct (brightness_threshold <? _); [done |].
    apply Z.mod_small.
    destruct (lookup_lt_is_Some_2 px 3) as [v Hv]; [lia |].
    rewrite (nth_lookup_Z px 3 v Hv).
    pose proof (is_uint8_pixel_at img r c px Hu Hpx) as Hb.
    by eapply Forall_lookup_1 in Hb.
Qed.

(** X7: the brightness test in terms of the colour channels: a pixel whose
    blue, green and red values all exceed 240 is made fully transparent, and a
    pixel whose three values are all at most 240 is never made transparent
    (it becomes opaque, or keeps the transparency it had). *)
Theorem near_white_is_removed (img : image) :
  wf_shape img → is_uint8 img → (3 ≤ shape_c img)%nat →
  ∃ out,
    load_sunglasses_with_alpha (Some (Arr3 img)) = Ret (Some out)
    ∧ ∀ r c px, pixel_at img r c = Some px →
        (Forall (λ v, 240 < v) (take 3 px) → alpha_at out r c = Some 0)
        ∧ (Forall (λ v, v ≤ 240) (take 3 px) →
           alpha_at out r c
           = Some (if (shape_c img =? 3)%nat then 255 else nth 3 px 0)).
Proof.
  intros Hwf Hu Hc. exists (loaded img).
  split; [by apply load_loaded |].
  intros r c px Hpx. rewrite (alpha_at_loaded img r c px) by done.
  pose proof (wf_shape_pixel_at img r c px Hwf Hpx) as Hlen.
  assert (Hl3 : length (take 3 px) = 3%nat) by (rewrite length_take; lia).
  assert (Hb3 : Forall (λ v, 0 ≤ v < 256) (take 3 px)).
  { apply Forall_take. exact (is_uint8_pixel_at img r c px Hu Hpx). }
  split; intros Hall.
  - assert (H : 241 ≤ bgr2gray (take 3 px) ≤ 255).
    { apply luminance_between; [done |].
      eapply Forall_impl; [apply Forall_and; exact (conj Hb3 Hall) |].
      cbn. lia. }
    destruct (Z.ltb_spec brightness_threshold (bgr2gray (take 3 px)));
      [done | unfold brightness_threshold in *; lia].
  - assert (H : 0 ≤ bgr2gray (take 3 px) ≤ 240).
    { apply luminance_between; [done |].
      eapply Forall_impl; [apply Forall_and; exact (conj Hb3 Hall) |].
      cbn. lia. }
    destruct (Z.ltb_spec brightness_threshold (bgr2gray (take 3 px)));
      [unfold brightness_threshold in *; lia | done].
Qed.

Lemma near_white_is_removed_witness :
  ∃ out,
    load_sunglasses_with_alpha (Some (Arr3 dark_half)) = Ret (Some out)
    ∧ alpha_at out 0 0 = Some 128.
Proof.
  destruct (near_white_is_removed dark_half wf_dark_half uint8_dark_half
              ltac:(simpl; lia)) as (out & Hload & Hpix).
  exists out. split; [exact Hload |].
  apply (Hpix 0%nat 0%nat [0; 0; 0; 128] eq_refl).
  repeat constructor; lia.
Defined.

Lemma blend_pixel_alpha_from_bgr (spx bpx : list Z) :
  Forall (λ v, 0 ≤ v < 256) spx → Forall (λ v, 0 ≤ v < 256) bpx →
  length spx = 3%nat → length bpx = 3%nat →
  blend_pixel (alpha_from_bgr spx) bpx
  = if brightness_threshold <? bgr2gray spx then bpx else spx.
Proof.
  intros Hs Hb Hls Hlb.
  assert (Ht : take 3 (alpha_from_bgr spx) = spx).
  { unfold alpha_from_bgr. rewrite take_app_le by lia. by apply take_ge; lia. }
  assert (Ha : alpha_from_bgr spx !! 3%nat
               = Some (if brightness_threshold <? bgr2gray spx then 0 else 255)).
  { rewrite alpha_from_bgr_lookup by done. by rewrite take_ge by lia. }
  pose proof (alpha_from_bgr_bytes spx Hs) as Hbytes.
  destruct (brightness_threshold <? bgr2gray spx).
  - by apply blend_pixel_transparent.
  - rewrite <- Ht at 2. by apply blend_pixel_opaque.
Qed.

(** X8: loader and compositor together cut the overlay out: when the asset
    loaded from a three-channel source is composited as it is, every frame
    position under a source pixel brighter than the threshold keeps its
    value, and every other position of the clipped rectangle receives the
    source colour exactly. *)
Theorem loaded_overlay_is_a_cutout (σ : store) (background overlay : addr)
    (bg src asset : image) (x y : Z) (rg : region) :
  load_sunglasses_with_alpha (Some (Arr3 src)) = Ret (Some asset) →
  σ !! background = Some bg → σ !! overlay = Some asset →
  wf_shape bg → is_uint8 bg → shape_c bg = 3%nat →
  wf_shape src → is_uint8 src → shape_c src = 3%nat →
  clip_region (Z.of_nat (shape_w bg)) (Z.of_nat (shape_h bg))
              (Z.of_nat (shape_w src)) (Z.of_nat (shape_h src)) x y = Some rg →
  ∃ bg',
    overlay_image_alpha σ background overlay x y
    = Ret (<[background := bg']> σ, background)
    ∧ ∀ r c,
        pixel_at bg' r c
        = if in_region rg r c
          then spx ← pixel_at src (Z.to_nat (Z.of_nat r - y))
                                  (Z.to_nat (Z.of_nat c - x));
               bpx ← pixel_at bg r c;
               Some (if brightness_threshold <? bgr2gray spx then bpx else spx)
          else pixel_at bg r c.
Proof.
  intros Hload Hbg Hov Hwb Hub Hcb Hws Hus Hcs Hclip.
  rewrite load_loaded in Hload by (done || lia). injection Hload as <-.
  assert (Hwa : wf_shape (loaded src)) by (apply wf_shape_loaded; (done || lia)).
  assert (Hsh : (shape_h (loaded src), shape_w (loaded src), shape_c (loaded src))
                = (shape_h src, shape_w src, 4%nat)).
  { unfold loaded. by rewrite Hcs. }
  injection Hsh as Hh Hw Hc.
  assert (Hclip' : clip_region (Z.of_nat (shape_w bg)) (Z.of_nat (shape_h bg))
                     (Z.of_nat (shape_w (loaded src)))
                     (Z.of_nat (shape_h (loaded src))) x y = Some rg)
    by (by rewrite Hh, Hw).
  exists (composited bg (loaded src) rg).
  split; [apply (overlay_image_alpha_run bg (loaded src) x y rg); (done || lia) |].
  intros r c.
  rewrite (pixel_at_composited bg (loaded src) x y rg Hwb Hwa Hclip').
  destruct (in_region rg r c); [| done].
  rewrite pixel_at_loaded, Hcs. cbn [Nat.eqb].
  destruct (pixel_at src _ _) as [spx|] eqn:Hs; [| done].
  destruct (pixel_at bg r c) as [bpx|] eqn:Hb; [| done].
  cbn. f_equal. apply blend_pixel_alpha_from_bgr.
  - exact (is_uint8_pixel_at src _ _ _ Hus Hs).
  - exact (is_uint8_pixel_at bg _ _ _ Hub Hb).
  - by rewrite (wf_shape_pixel_at src _ _ _ Hws Hs).
  - by rewrite (wf_shape_pixel_at bg _ _ _ Hwb Hb).
Qed.

Lemma wf_white_dark : wf_shape white_dark.
Proof. solve_wf. Qed.
Lemma uint8_white_dark : is_uint8 white_dark.
Proof. solve_uint8. Qed.

Lemma loaded_overlay_is_a_cutout_witness :
  ∃ bg',
    overlay_image_alpha store1 1%positive 2%positive 1 0
    = Ret (<[1%positive := bg']> store1, 1%positive)
    ∧ pixel_at bg' 0 1 = Some [4; 5; 6]
    ∧ pixel_at bg' 0 2 = Some [10; 20; 30].
Proof.
  destruct (loaded_overlay_is_a_cutout store1 1%positive 2%positive
              frame23 white_dark white_dark_asset 1 0 (Region 1 0 3 1 0 0 2 1)
              eq_refl eq_refl eq_refl wf_frame23 uint8_frame23 eq_refl
              wf_white_dark uint8_white_dark eq_refl eq_refl)
    as (bg' & Hrun & Hpix).
  exists bg'. split; [exact Hrun |]. split; rewrite Hpix; reflexivity.
Defined.

(** ** What [warpAffine] returns, for any matrix *)

Lemma lookup_map_seq {A} (f : nat → A) (n i : nat) :
  (i < n)%nat → map f (seq 0 n) !! i = Some (f i).
Proof. intros Hi. by rewrite lookup_map, lookup_seq_lt. Qed.



(** ** The tilt angle, for any pair of eye centres *)

Lemma atan_pos (v : R) : (0 < v)%R → (0 < atan v)%R.
Proof. intros Hv. rewrite <- atan_0. by apply atan_increasing. Qed.

Lemma atan_neg (v : R) : (v < 0)%R → (atan v < 0)%R.
Proof. intros Hv. rewrite <- atan_0. by apply atan_increasing. Qed.

Lemma div_pos_pos (y x : R) : (0 < y)%R → (0 < x)%R → (0 < y / x)%R.
Proof. intros. by apply Rdiv_lt_0_compat. Qed.

Lemma div_neg_neg (y x : R) : (y < 0)%R → (x < 0)%R → (0 < y / x)%R.
Proof.
  intros Hy Hx. replace (y / x)%R with ((- y) / (- x))%R by (field; lra).
  apply Rdiv_lt_0_compat; lra.
Qed.

Lemma div_neg_pos (y x : R) : (y < 0)%R → (0 < x)%R → (y / x < 0)%R.
Proof.
  intros Hy Hx. pose proof (div_pos_pos (- y) x ltac:(lra) Hx) as H.
  replace (- y / x)%R with (- (y / x))%R in H by (field; lra). lra.
Qed.

Lemma div_pos_neg (y x : R) : (0 < y)%R → (x < 0)%R → (y / x < 0)%R.
Proof.
  intros Hy Hx. pose proof (div_neg_neg (- y) x ltac:(lra) Hx) as H.
  replace (- y / x)%R with (- (y / x))%R in H by (field; lra). lra.
Qed.

Lemma div_zero_l (x : R) : (0 / x = 0)%R.
Proof. unfold Rdiv. apply Rmult_0_l. Qed.

(** The four quadrants and the axes of [arctan2]. *)
Lemma arctan2_cases (y x : R) :
  (  (0 < x ∧ arctan2 y x = atan (y / x))
   ∨ (x < 0 ∧ 0 <= y ∧ arctan2 y x = atan (y / x) + PI)
   ∨ (x < 0 ∧ y < 0 ∧ arctan2 y x = atan (y / x) - PI)
   ∨ (x = 0 ∧ 0 < y ∧ arctan2 y x = PI / 2)
   ∨ (x = 0 ∧ y < 0 ∧ arctan2 y x = - PI / 2)
   ∨ (x = 0 ∧ y = 0 ∧ arctan2 y x = 0))%R.
Proof.
  unfold arctan2.
  destruct (Rlt_dec 0 x); [by left |].
  destruct (Rlt_dec x 0).
  { destruct (Rle_dec 0 y); [right; left | right; right; left];
      repeat split; lra. }
  assert (x = 0%R) by lra.
  destruct (Rlt_dec 0 y); [by right; right; right; left |].
  destruct (Rlt_dec y 0); [by right; right; right; right; left |].
  right; right; right; right; right. repeat split; lra.
Qed.

Lemma arctan2_range (y x : R) : (- PI < arctan2 y x <= PI)%R.
Proof.
  pose proof PI_RGT_0. pose proof (atan_bound (y / x)) as [Hl Hu].
  destruct (arctan2_cases y x)
    as [(Hx & ->)|[(Hx & Hy & ->)|[(Hx & Hy & ->)|[(Hx & Hy & ->)
        |[(Hx & Hy & ->)|(Hx & Hy & ->)]]]]]; try lra.
  - destruct (Req_dec_T y 0) as [->|Hy0].
    + rewrite div_zero_l, atan_0. lra.
    + pose proof (atan_neg _ (div_pos_neg y x ltac:(lra) Hx)). lra.
  - pose proof (atan_pos _ (div_neg_neg y x Hy Hx)). lra.
Qed.

Lemma arctan2_negative (y x : R) : (arctan2 y x < 0 ↔ y < 0)%R.
Proof.
  pose proof PI_RGT_0. pose proof (atan_bound (y / x)) as [Hl Hu].
  destruct (arctan2_cases y x)
    as [(Hx & ->)|[(Hx & Hy & ->)|[(Hx & Hy & ->)|[(Hx & Hy & ->)
        |[(Hx & Hy & ->)|(Hx & Hy & ->)]]]]]; try (split; lra).
  destruct (Rtotal_order y 0) as [Hy|[->|Hy]].
  - pose proof (atan_neg _ (div_neg_pos y x Hy Hx)). split; lra.
  - rewrite div_zero_l, atan_0. split; lra.
  - pose proof (atan_pos _ (div_pos_pos y x Hy Hx)). split; lra.
Qed.

Lemma arctan2_zero (y x : R) : (arctan2 y x = 0 ↔ y = 0 ∧ 0 <= x)%R.
Proof.
  pose proof PI_RGT_0. pose proof (atan_bound (y / x)) as [Hl Hu].
  destruct (arctan2_cases y x)
    as [(Hx & ->)|[(Hx & Hy & ->)|[(Hx & Hy & ->)|[(Hx & Hy & ->)
        |[(Hx & Hy & ->)|(Hx & Hy & ->)]]]]]; try (split; lra).
  destruct (Rtotal_order y 0) as [Hy|[->|Hy]].
  - pose proof (atan_neg _ (div_neg_pos y x Hy Hx)). split; lra.
  - rewrite div_zero_l, atan_0. split; lra.
  - pose proof (atan_pos _ (div_pos_pos y x Hy Hx)). split; lra.
Qed.

Lemma degrees_scaled (a : R) : (degrees a * PI = a * 180)%R.
Proof. unfold degrees. field. apply PI_neq0. Qed.

Lemma degrees_lt (a b : R) : (a < b → degrees a < degrees b)%R.
Proof.
  intros Hab. unfold degrees. apply Rmult_lt_compat_r; [| done].
  apply Rdiv_lt_0_compat; [lra | exact PI_RGT_0].
Qed.

Lemma degrees_negative (a : R) : (degrees a < 0 ↔ a < 0)%R.
Proof.
  split.
  - intros H. destruct (Rtotal_order a 0) as [Ha|[Ha|Ha]]; [done | |].
    + rewrite Ha, degrees_0 in H. lra.
    + pose proof (degrees_lt 0 a Ha) as Hd. rewrite degrees_0 in Hd. lra.
  - intros Ha. pose proof (degrees_lt a 0 Ha) as Hd.
    by rewrite degrees_0 in Hd.
Qed.

Lemma degrees_zero (a : R) : (degrees a = 0 ↔ a = 0)%R.
Proof.
  split; [| intros ->; apply degrees_0].
  intros H. destruct (Rtotal_order a 0) as [Ha|[Ha|Ha]]; [| done |].
  - pose proof (degrees_lt a 0 Ha) as Hd. rewrite degrees_0 in Hd. lra.
  - pose proof (degrees_lt 0 a Ha) as Hd. rewrite degrees_0 in Hd. lra.
Qed.

(** X12: the tilt lies in (-180, 180]; it is negative exactly when the right
    eye centre is above the left one (smaller row), and zero exactly when the
    two are on one row with the right one not to the left. *)
Theorem angle_range_and_sign (left_eye_center right_eye_center : point) :
  (-180 < angle left_eye_center right_eye_center <= 180)%R
  ∧ ((angle left_eye_center right_eye_center < 0)%R
     ↔ right_eye_center.2 < left_eye_center.2)
  ∧ (angle left_eye_center right_eye_center = 0%R
     ↔ right_eye_center.2 = left_eye_center.2
       ∧ left_eye_center.1 ≤ right_eye_center.1).
Proof.
  unfold angle.
  set (dy := right_eye_center.2 - left_eye_center.2).
  set (dx := right_eye_center.1 - left_eye_center.1).
  split; [| split].
  - pose proof (arctan2_range (IZR dy) (IZR dx)) as [Hl Hu].
    pose proof PI_RGT_0.
    rewrite <- degrees_PI.
    replace (-180)%R with (degrees (- PI))
      by (unfold degrees; field; apply PI_neq0).
    split; [by apply degrees_lt |].
    destruct Hu as [Hu| ->]; [left; by apply degrees_lt | right; done].
  - rewrite degrees_negative, arctan2_negative.
    split; intros H.
    + apply lt_IZR in H. lia.
    + apply IZR_lt. lia.
  - rewrite degrees_zero, arctan2_zero.
    split.
    + intros [Hy Hx]. apply eq_IZR in Hy. apply le_IZR in Hx. lia.
    + intros [Hy Hx]. split; [f_equal; lia | apply IZR_le; lia].
Qed.

Lemma angle_range_and_sign_witness :
  let l : point := (100, 200) in
  let r : point := (150, 180) in
  (-180 < angle l r <= 180)%R
  ∧ ((angle l r < 0)%R ↔ r.2 < l.2)
  ∧ (angle l r = 0%R ↔ r.2 = l.2 ∧ l.1 ≤ r.1).
Proof. exact (angle_range_and_sign (100, 200) (150, 180)). Defined.

(** ** Exchanging the two eye centres *)






(** ** Where the overlay is placed *)

(** X14: the overlay is centred on the midpoint between the eye centres.
    When both centres are inside the frame and the asset is not empty, the
    placement meets the frame and the midpoint is one of the positions the
    compositor blends. *)
Theorem sunglasses_placement_covers_the_midpoint (sunglasses_img frame : image)
    (left_eye_center right_eye_center : point) :
  let t := transformed_sunglasses sunglasses_img left_eye_center right_eye_center in
  let p := sunglasses_position left_eye_center right_eye_center t in
  let center_x := (left_eye_center.1 + right_eye_center.1) / 2 in
  let center_y := (left_eye_center.2 + right_eye_center.2) / 2 in
  (0 < shape_h sunglasses_img)%nat → (0 < shape_w sunglasses_img)%nat →
  0 ≤ left_eye_center.1 < Z.of_nat (shape_w frame) →
  0 ≤ left_eye_center.2 < Z.of_nat (shape_h frame) →
  0 ≤ right_eye_center.1 < Z.of_nat (shape_w frame) →
  0 ≤ right_eye_center.2 < Z.of_nat (shape_h frame) →
  ∃ rg, clip_region (Z.of_nat (shape_w frame)) (Z.of_nat (shape_h frame))
                    (Z.of_nat (shape_w t)) (Z.of_nat (shape_h t)) p.1 p.2
        = Some rg
        ∧ in_region rg (Z.to_nat center_y) (Z.to_nat center_x) = true.
Proof.
  intros t p center_x center_y Hh Hw Hlx Hly Hrx Hry.
  destruct (rotate_and_scale_image_nonempty sunglasses_img
              (- angle left_eye_center right_eye_center)
              (B2R (scale left_eye_center right_eye_center
                          (Z.of_nat (shape_w sunglasses_img)))) Hh Hw)
    as [Hth Htw].
  fold (transformed_sunglasses sunglasses_img left_eye_center right_eye_center)
    in Hth, Htw. fold t in Hth, Htw.
  assert (Hcx : 0 ≤ center_x < Z.of_nat (shape_w frame)).
  { unfold center_x. split; [apply Z.div_pos; lia |].
    apply Z.div_lt_upper_bound; lia. }
  assert (Hcy : 0 ≤ center_y < Z.of_nat (shape_h frame)).
  { unfold center_y. split; [apply Z.div_pos; lia |].
    apply Z.div_lt_upper_bound; lia. }
  set (w := Z.of_nat (shape_w t)). set (h := Z.of_nat (shape_h t)).
  assert (Hw2 : 0 ≤ w / 2 < w)
    by (split; [apply Z.div_pos; lia | apply Z.div_lt; lia]).
  assert (Hh2 : 0 ≤ h / 2 < h)
    by (split; [apply Z.div_pos; lia | apply Z.div_lt; lia]).
  assert (Hp1 : p.1 = center_x - w / 2) by reflexivity.
  assert (Hp2 : p.2 = center_y - h / 2) by reflexivity.
  destruct (clip_region (Z.of_nat (shape_w frame)) (Z.of_nat (shape_h frame))
              w h p.1 p.2) as [rg|] eqn:Hclip.
  - exists rg. split; [done |].
    apply clip_region_Some in Hclip
      as (_ & _ & _ & _ & Ex1 & Ey1 & Ex2 & Ey2 & _).
    unfold in_region. rewrite !Z2Nat.id by lia.
    rewrite Ex1, Ey1, Ex2, Ey2.
    repeat (apply andb_true_iff; split);
      first [apply Z.leb_le | apply Z.ltb_lt]; lia.
  - apply clip_region_None in Hclip. lia.
Qed.

Lemma sunglasses_placement_covers_the_midpoint_witness :
  ∃ rg, clip_region 3 2
          (Z.of_nat (shape_w (transformed_sunglasses overlay22 (0, 1) (2, 1))))
          (Z.of_nat (shape_h (transformed_sunglasses overlay22 (0, 1) (2, 1))))
          (sunglasses_position (0, 1) (2, 1)
             (transformed_sunglasses overlay22 (0, 1) (2, 1))).1
          (sunglasses_position (0, 1) (2, 1)
             (transformed_sunglasses overlay22 (0, 1) (2, 1))).2
        = Some rg
        ∧ in_region rg 1 1 = true.
Proof.
  apply (sunglasses_placement_covers_the_midpoint overlay22 frame23 (0, 1) (2, 1));
    cbn; lia.
Defined.

(** ** The mirror and the colour round trip *)

Lemma rev_reverse {A} (l : list A) : rev l = reverse l.
Proof. by rewrite rev_alt. Qed.

Lemma wf_shape_flip (img : image) : wf_shape img → wf_shape (flip_horizontal img).
Proof.
  intros [Hh Hrows]. split; cbn [flip_horizontal data shape_h shape_w shape_c].
  - by rewrite length_map.
  - apply Forall_map. eapply Forall_impl; [exact Hrows |].
    intros row [Hw Hpx]. cbn beta. rewrite rev_reverse, length_reverse.
    split; [done | by apply Forall_reverse].
Qed.

Lemma is_uint8_flip (img : image) : is_uint8 img → is_uint8 (flip_horizontal img).
Proof.
  unfold is_uint8. intros H. cbn [flip_horizontal data].
  apply Forall_map. eapply Forall_impl; [exact H |].
  intros row Hrow. cbn beta. rewrite rev_reverse. by apply Forall_reverse.
Qed.

Lemma pixel_at_flip (img : image) (r c : nat) :
  wf_shape img → (c < shape_w img)%nat →
  pixel_at (flip_horizontal img) r c = pixel_at img r (shape_w img - S c).
Proof.
  intros Hwf Hc. unfold pixel_at. cbn [flip_horizontal data].
  rewrite lookup_map.
  destruct (data img !! r) as [row|] eqn:Hrow; [| done].
  cbn [fmap option_fmap option_map mbind option_bind].
  destruct Hwf as [_ Hrows].
  pose proof (proj1 (Forall_lookup_1 _ _ _ _ Hrows Hrow)) as Hlen.
  rewrite rev_reverse, reverse_lookup by lia. by rewrite Hlen.
Qed.

Lemma camera_frame_flip (img : image) :
  camera_frame img → camera_frame (flip_horizontal img).
Proof.
  intros (Hwf & Hu & Hc).
  split; [by apply wf_shape_flip | split; [by apply is_uint8_flip | done]].
Qed.

Lemma swap_red_blue_twice (px : list Z) :
  length px = 3%nat → swap_red_blue (swap_red_blue px) = px.
Proof. destruct px as [|? [|? [|? [|]]]]; by intros. Qed.

Lemma map_id_on {A} (f : A → A) (l : list A) :
  Forall (λ x, f x = x) l → map f l = l.
Proof. induction 1 as [|x l Hx _ IH]; cbn; [done | by rewrite Hx, IH]. Qed.

(** The two conversions of lines 152 and 164 give the frame back. *)
Lemma colour_round_trip (img : image) :
  wf_shape img → shape_c img = 3%nat →
  ∃ image_rgb, cvtColor_BGR2RGB img = Ret image_rgb
               ∧ cvtColor_RGB2BGR image_rgb = Ret img.
Proof.
  intros [Hh Hrows] Hc. unfold cvtColor_RGB2BGR, cvtColor_BGR2RGB.
  rewrite Hc. cbn [Nat.eqb orb]. eexists. split; [reflexivity |].
  cbn [Nat.eqb orb shape_c shape_h shape_w data].
  f_equal. destruct img as [h w c d]. cbn in *. subst c. f_equal.
  rewrite map_map. apply map_id_on.
  eapply Forall_impl; [exact Hrows |]. intros row [_ Hpx]. cbn beta.
  rewrite map_map. apply map_id_on.
  eapply Forall_impl; [exact Hpx |]. intros px Hlen. cbn beta.
  by apply swap_red_blue_twice.
Qed.

(** ** One face *)

Lemma print_due_same (t : b64) : print_due t t = false.
Proof.
  unfold print_due, b64_sub.
  destruct t as [[]|[]| |s m e]; try reflexivity.
  unfold SFsub. rewrite Z.sub_diag. reflexivity.
Qed.


Lemma same_shape_composited (bg ov : image) (rg : region) :
  same_shape (composited bg ov rg) bg.
Proof. by split. Qed.

(** The call on line 209, for a frame of the camera and an overlay with an
    alpha channel, wherever the overlay is placed. *)
Lemma overlay_on_camera_frame (σ : store) (background overlay : addr)
    (bg ov : image) (x y : Z) :
  σ !! background = Some bg → σ !! overlay = Some ov →
  camera_frame bg → wf_shape ov → (3 < shape_c ov)%nat →
  ∃ bg', overlay_image_alpha σ background overlay x y
         = Ret (<[background := bg']> σ, background)
         ∧ camera_frame bg' ∧ same_shape bg' bg.
Proof.
  intros Hbg Hov (Hwb & Hub & Hcb) Hwo Hco.
  destruct (clip_region (Z.of_nat (shape_w bg)) (Z.of_nat (shape_h bg))
              (Z.of_nat (shape_w ov)) (Z.of_nat (shape_h ov)) x y)
    as [rg|] eqn:Hclip.
  - exists (composited bg ov rg). split; [| split].
    + by apply (overlay_image_alpha_run bg ov x y rg Hwb Hwo Hclip).
    + split; [| split].
      * by apply (wf_shape_composited bg ov x y rg Hwb Hwo Hclip).
      * by apply (is_uint8_composited bg ov x y rg).
      * exact Hcb.
    + apply same_shape_composited.
  - exists bg. split; [| split; [done | by split]].
    unfold overlay_image_alpha, deref. rewrite Hov, Hbg.
    cbn [mbind outcome_bind]. rewrite Hclip.
    by rewrite insert_id.
Qed.

Lemma fresh_not_frame (σ : store) (a : addr) (bg : image) :
  σ !! a = Some bg → fresh (dom σ) ≠ a.
Proof.
  intros Ha E. apply (is_fresh (dom σ)). rewrite E. by eapply elem_of_dom_2.
Qed.


(** ** All faces of one frame *)

Lemma nose_line_cons (due : bool) (f : face) (faces : list face) :
  nose_line due (f :: faces) = nose_line due [f].
Proof. reflexivity. Qed.

Lemma same_shape_trans (a b c : image) :
  same_shape a b → same_shape b c → same_shape a c.
Proof. intros (? & ? & ?) (? & ? & ?). repeat split; congruence. Qed.




(** ** One turn of the camera loop *)

Lemma nose_line_counts (due : bool) (faces : list face) :
  length (List.filter is_ignored_frame (nose_line due faces)) = 0%nat
  ∧ (length (List.filter is_nose_tip (nose_line due faces))
     ≤ match faces with [] => 0 | _ :: _ => 1 end)%nat.
Proof. destruct faces as [|f faces], due; cbn; lia. Qed.

(** X17: a frame in which no face is detected is shown mirrored and otherwise
    untouched: the pixel shown in column c is the one the camera delivered in
    column w - 1 - c of the same row, the two colour conversions cancelling
    each other. Nothing is printed. *)
Theorem faceless_frame_is_shown_mirrored (sunglasses_img : image) (s : session)
    (cap : capture) :
  cap_success cap = true → cap_faces cap = [] → camera_frame (cap_image cap) →
  ∃ s' shown,
    frame_iteration sunglasses_img s cap = Ret s'
    ∧ se_shown s' = se_shown s ++ [shown]
    ∧ se_console s' = se_console s
    ∧ se_last_print_time s' = se_last_print_time s
    ∧ same_shape shown (cap_image cap)
    ∧ ∀ r c, (c < shape_w (cap_image cap))%nat →
        pixel_at shown r c
        = pixel_at (cap_image cap) r (shape_w (cap_image cap) - S c).
Proof.
  intros Hok Hnone Hcam.
  pose proof (camera_frame_flip _ Hcam) as Hflip.
  destruct (colour_round_trip (flip_horizontal (cap_image cap))
              (proj1 Hflip) (proj2 (proj2 Hflip))) as (rgb & Hrgb & Hbgr).
  eexists _, (flip_horizontal (cap_image cap)). split.
  { unfold frame_iteration. rewrite Hok, Hnone. cbn [negb].
    rewrite Hrgb. cbn [mbind outcome_bind]. rewrite Hbgr.
    cbn [mbind outcome_bind faces_loop ls_store ls_image].
    unfold deref. rewrite lookup_insert_eq. reflexivity. }
  cbn [se_shown se_console se_last_print_time ls_console ls_last_print_time].
  split; [done |]. split; [done |]. split; [done |].
  split; [by split |].
  intros r c Hc. apply pixel_at_flip; [exact (proj1 Hcam) | exact Hc].
Qed.

Lemma faceless_frame_is_shown_mirrored_witness :
  let cap := Capture true frame23 (b64_of_Z 5) [] in
  ∃ s' shown,
    frame_iteration overlay22 initial_session cap = Ret s'
    ∧ se_shown s' = [shown]
    ∧ se_console s' = []
    ∧ se_last_print_time s' = S754_zero false
    ∧ same_shape shown frame23
    ∧ ∀ r c, (c < 3)%nat → pixel_at shown r c = pixel_at frame23 r (3 - S c).
Proof.
  apply (faceless_frame_is_shown_mirrored overlay22 initial_session
           (Capture true frame23 (b64_of_Z 5) [])).
  - reflexivity.
  - reflexivity.
  - exact (conj wf_frame23 (conj uint8_frame23 eq_refl)).
Defined.

(** ** Coincident eye centres *)

Lemma eye_distance_coincident (p : point) : eye_distance p p = S754_zero false.
Proof.
  unfold eye_distance. rewrite !Z.sub_diag. vm_compute. reflexivity.
Qed.

Lemma B2R_scale_coincident (p : point) (original_sunglasses_width : Z) :
  B2R (scale p p original_sunglasses_width) = 0%R.
Proof.
  unfold scale. rewrite eye_distance_coincident.
  change (b64_mul (S754_zero false) calibration) with (S754_zero false).
  unfold b64_div.
  by destruct (b64_of_Z original_sunglasses_width) as [[]|[]| |[] m e].
Qed.

Lemma angle_coincident (p : point) : angle p p = 0%R.
Proof.
  unfold angle. rewrite !Z.sub_diag, arctan2_origin. apply degrees_0.
Qed.

Lemma Int_part_0 : Int_part 0 = 0.
Proof. symmetry. apply Int_part_spec. lra. Qed.

Lemma rotation_canvas_scale_0 (h w : nat) (θ : R) :
  ∃ tx ty, rotation_canvas (Z.of_nat h) (Z.of_nat w) θ 0
           = ((0, 0), Affine 0 0 tx 0 0 ty).
Proof.
  pose proof (rotation_canvas_unfold h w θ 0) as H. cbn zeta in H.
  rewrite !Rmult_0_l, Rabs_R0, !Rmult_0_r, Rplus_0_l, Int_part_0 in H.
  rewrite Ropp_0 in H. eauto.
Qed.

Lemma degenerate_inverse (tx ty : R) (p : R * R) :
  apply_affine (invertAffineTransform (Affine 0 0 tx 0 0 ty)) p = (0%R, 0%R).
Proof.
  unfold invertAffineTransform, apply_affine.
  cbn [m00 m01 m02 m10 m11 m12 fst snd].
  destruct (Req_dec_T (0 * 0 - 0 * 0) 0) as [_|Hne]; [| lra].
  f_equal; lra.
Qed.

(** X19: when the two eye centres coincide the scale is zero, the canvas
    would be empty, and the transformed overlay falls back to the size of the
    asset with every pixel a copy of the asset's top-left pixel. *)
Theorem coincident_eyes_smear_the_corner (sunglasses_img : image) (p : point)
    (y x : nat) :
  wf_shape sunglasses_img → is_uint8 sunglasses_img →
  (y < shape_h sunglasses_img)%nat → (x < shape_w sunglasses_img)%nat →
  same_shape (transformed_sunglasses sunglasses_img p p) sunglasses_img
  ∧ pixel_at (transformed_sunglasses sunglasses_img p p) y x
    = pixel_at sunglasses_img 0 0.
Proof.
  intros Hwf Hu Hy Hx. unfold transformed_sunglasses.
  rewrite B2R_scale_coincident, angle_coincident. unfold rotate_and_scale_image.
  destruct (rotation_canvas_scale_0 (shape_h sunglasses_img)
              (shape_w sunglasses_img) (- 0)) as (tx & ty & ->).
  unfold warpAffine. cbn [fst snd Z.leb Z.compare orb].
  split; [by split |].
  unfold pixel_at at 1. cbn [data].
  rewrite lookup_map_seq by exact Hy. cbn [mbind option_bind].
  rewrite lookup_map_seq by exact Hx.
  destruct (wf_shape_pixel_some sunglasses_img 0 0 Hwf ltac:(lia) ltac:(lia))
    as [px Hpx].
  rewrite Hpx. f_equal.
  rewrite <- (wf_shape_pixel_at _ _ _ _ Hwf Hpx).
  apply map_seq_lookup. intros k v Hk.
  rewrite degenerate_inverse. cbn [fst snd].
  change 0%R with (INR 0). rewrite bilinear_at_pixel.
  rewrite (src_or_border_inside _ 0 0 k px v Hpx Hk).
  apply saturate_uint8_byte.
  pose proof (is_uint8_pixel_at _ 0 0 px Hu Hpx) as Hb.
  by eapply Forall_lookup_1 in Hb.
Qed.

Lemma coincident_eyes_smear_the_corner_witness :
  same_shape (transformed_sunglasses overlay22 (1, 1) (1, 1)) overlay22
  ∧ pixel_at (transformed_sunglasses overlay22 (1, 1) (1, 1)) 1 1
    = pixel_at overlay22 0 0.
Proof.
  apply (coincident_eyes_smear_the_corner overlay22 (1, 1) 1 1
           wf_overlay22 uint8_overlay22); cbn; lia.
Defined.

(** ** The canvas of a half turn *)

Lemma half_turn_2x2_canvas :
  rotation_canvas_f64 2 2 half_turn_2x2 = Ret ((2, 2), half_turn_2x2).
Proof. vm_compute. reflexivity. Qed.

Lemma half_turn_2x2_exact :
  affine_of_f64 half_turn_2x2
  = Affine (-1) (4967757600021511 / 40564819207303340847894502572032)
           (9007199254740991 / 4503599627370496)
           (- (4967757600021511 / 40564819207303340847894502572032)) (-1) 2.
Proof.
  unfold affine_of_f64, half_turn_2x2. cbn [f00 f01 f02 f10 f11 f12].
  replace (b64_of_Z (-1)) with (S754_finite true 4503599627370496 (-52))
    by (vm_compute; reflexivity).
  replace (b64_of_Z 2) with (S754_finite false 4503599627370496 (-51))
    by (vm_compute; reflexivity).
  unfold B2R.
  change (0 <=? -52) with false. change (0 <=? -51) with false.
  change (0 <=? -105) with false. cbv iota.
  change (2 ^ (- -52)) with 4503599627370496.
  change (2 ^ (- -51)) with 2251799813685248.
  change (2 ^ (- -105)) with 40564819207303340847894502572032.
  apply affine_ext; cbn [m00 m01 m02 m10 m11 m12]; lra.
Qed.

Lemma half_turn_2x2_landing (x y : Z) :
  landing half_turn_2x2 x y
  = ((- IZR x + 4967757600021511 / 40564819207303340847894502572032 * IZR y
      + 9007199254740991 / 4503599627370496)%R,
     (- (4967757600021511 / 40564819207303340847894502572032) * IZR x
      - IZR y + 2)%R).
Proof.
  unfold landing. rewrite half_turn_2x2_exact. unfold apply_affine.
  cbn [m00 m01 m02 m10 m11 m12 fst snd]. f_equal; lra.
Qed.

(** The extent is rounded as a float before it is truncated: for an asset 1
    pixel high and 3 wide and eye centres 28 apart the scale is
    23.333333333333332, three times that is 70.0 in binary64, and the canvas
    is 70 by 23. *)
Lemma canvas_extent_is_rounded :
  ∃ M, rotation_canvas_f64 1 3
         (cv2_getRotationMatrix2D upright_library (1, 0) (S754_zero false)
            (scale (0, 0) (28, 0) 3))
       = Ret ((70, 23), M).
Proof. eexists. vm_compute. reflexivity. Qed.

(** C7: a half turn of a 2x2 asset at scale 1. The code computes a 2x2
    canvas and leaves the matrix as OpenCV returned it, a turn about (1, 1)
    where the centre of the asset is (1/2, 1/2): of the four pixel centres
    only (1, 1) is sent onto the canvas, and (0, 0), (1, 0) and (0, 1) are
    sent to about (2, 2), (1, 2) and (2, 1), outside it. The canvas does not
    bound the rotated asset. *)
Theorem half_turn_clips_the_asset :
  rotation_canvas_f64 2 2 half_turn_2x2 = Ret ((2, 2), half_turn_2x2)
  ∧ on_canvas (2, 2) (landing half_turn_2x2 1 1)
  ∧ ¬ on_canvas (2, 2) (landing half_turn_2x2 0 0)
  ∧ ¬ on_canvas (2, 2) (landing half_turn_2x2 1 0)
  ∧ ¬ on_canvas (2, 2) (landing half_turn_2x2 0 1)
  ∧ ¬ asset_within_canvas 2 2 (2, 2) half_turn_2x2.
Proof.
  split; [exact half_turn_2x2_canvas |].
  assert (H00 : ¬ on_canvas (2, 2) (landing half_turn_2x2 0 0)).
  { rewrite half_turn_2x2_landing. unfold on_canvas. cbn [fst snd]. lra. }
  split; [| split; [exact H00 | split; [| split]]].
  - rewrite half_turn_2x2_landing. unfold on_canvas. cbn [fst snd]. lra.
  - rewrite half_turn_2x2_landing. unfold on_canvas. cbn [fst snd]. lra.
  - rewrite half_turn_2x2_landing. unfold on_canvas. cbn [fst snd]. lra.
  - intros Hall. apply H00. apply (Hall 0 0); lia.
Qed.

Lemma half_turn_2x10_landing (x y : Z) :
  landing half_turn_2x10 x y
  = ((- IZR x - 4967757600021511 / 40564819207303340847894502572032 * IZR y
      + 10)%R,
     (4967757600021511 / 40564819207303340847894502572032 * IZR x
      - IZR y + 9007199254740989 / 4503599627370496)%R).
Proof.
  unfold landing, affine_of_f64, half_turn_2x10, apply_affine.
  cbn [f00 f01 f02 f10 f11 f12 m00 m01 m02 m10 m11 m12 fst snd].
  replace (b64_of_Z (-1)) with (S754_finite true 4503599627370496 (-52))
    by (vm_compute; reflexivity).
  replace (b64_of_Z 10) with (S754_finite false 5629499534213120 (-49))
    by (vm_compute; reflexivity).
  unfold B2R.
  change (0 <=? -52) with false. change (0 <=? -49) with false.
  change (0 <=? -105) with false. cbv iota.
  change (2 ^ (- -52)) with 4503599627370496.
  change (2 ^ (- -49)) with 562949953421312.
  change (2 ^ (- -105)) with 40564819207303340847894502572032.
  f_equal; lra.
Qed.

(** The same from [main]: an asset 2 pixels high and 10 wide, the left eye
    centre at (4, 0) and the right one at (0, 0). The scale is 1.0 and the
    tilt 180, so the asset is turned by -180 about (5, 1); the canvas is 10
    by 2, the whole top row of the asset is sent below it and the left
    column to the right of it. *)
Lemma level_reversed_eyes_clip_the_asset :
  scale (4, 0) (0, 0) 10 = b64_of_Z 1
  ∧ angle (4, 0) (0, 0) = 180%R
  ∧ rotation_canvas_f64 2 10 half_turn_2x10 = Ret ((10, 2), half_turn_2x10)
  ∧ (∀ x, 0 ≤ x < 10 → ¬ on_canvas (10, 2) (landing half_turn_2x10 x 0))
  ∧ (∀ y, 0 ≤ y < 2 → ¬ on_canvas (10, 2) (landing half_turn_2x10 0 y))
  ∧ on_canvas (10, 2) (landing half_turn_2x10 1 1).
Proof.
  split; [vm_compute; reflexivity |].
  split; [apply angle_level_reversed; cbn; lia |].
  split; [vm_compute; reflexivity |].
  split; [| split].
  - intros x [Hx0 Hx9]. apply IZR_le in Hx0. apply IZR_lt in Hx9.
    rewrite half_turn_2x10_landing. unfold on_canvas. cbn [fst snd]. lra.
  - intros y [Hy0 Hy1]. apply IZR_le in Hy0. apply IZR_lt in Hy1.
    rewrite half_turn_2x10_landing. unfold on_canvas. cbn [fst snd]. lra.
  - rewrite half_turn_2x10_landing. unfold on_canvas. cbn [fst snd]. lra.
Qed.

(** ** The face loop when the transform can raise *)

Lemma face_body_with_run (transform : point → point → outcome image)
    (current_time : b64) (s : loop_state) (f : face) (bg tr : image) :
  transform (face_left_eye f) (face_right_eye f) = Ret tr →
  wf_shape tr → (3 < shape_c tr)%nat →
  ls_store s !! ls_image s = Some bg → camera_frame bg →
  ∃ s' bg',
    face_body_with transform current_time s f = Ret s'
    ∧ ls_image s' = ls_image s
    ∧ ls_store s' !! ls_image s = Some bg'
    ∧ camera_frame bg' ∧ same_shape bg' bg
    ∧ (∀ l, l ∈ dom (ls_store s) → l ≠ ls_image s →
            ls_store s' !! l = ls_store s !! l)
    ∧ dom (ls_store s) ⊆ dom (ls_store s')
    ∧ ls_console s'
      = ls_console s
        ++ nose_line (print_due current_time (ls_last_print_time s)) [f]
    ∧ ls_last_print_time s'
      = (if print_due current_time (ls_last_print_time s)
         then current_time else ls_last_print_time s).
Proof.
  intros Htr Hwt Hct Hbg Hcam.
  pose proof (fresh_not_frame _ _ _ Hbg) as Hfresh.
  set (t := fresh (dom (ls_store s))) in *.
  set (p := sunglasses_position (face_left_eye f) (face_right_eye f) tr).
  destruct (overlay_on_camera_frame (<[t := tr]> (ls_store s)) (ls_image s) t
              bg tr p.1 p.2) as (bg' & Hrun & Hcam' & Hsame).
  { by rewrite lookup_insert_ne. }
  { by rewrite lookup_insert_eq. }
  { done. }
  { done. }
  { done. }
  assert (Hstore : ∀ l, l ∈ dom (ls_store s) → l ≠ ls_image s →
            (<[ls_image s := bg']> (<[t := tr]> (ls_store s))) !! l
            = ls_store s !! l).
  { intros l Hl Hne. rewrite lookup_insert_ne by done.
    rewrite lookup_insert_ne; [done |].
    intros <-. by apply (is_fresh (dom (ls_store s))). }
  assert (Hdom : dom (ls_store s)
                 ⊆ dom (<[ls_image s := bg']> (<[t := tr]> (ls_store s)))).
  { rewrite !dom_insert. set_solver. }
  unfold face_body_with. rewrite Htr. cbn [mbind outcome_bind].
  fold t p. rewrite Hrun. cbn [mbind outcome_bind fst snd].
  destruct (print_due current_time (ls_last_print_time s)).
  - eexists _, bg'. split; [reflexivity |]. cbn [ls_image ls_store ls_console
      ls_last_print_time nose_line].
    rewrite lookup_insert_eq.
    exact (conj eq_refl (conj eq_refl (conj Hcam' (conj Hsame
             (conj Hstore (conj Hdom (conj eq_refl eq_refl))))))).
  - eexists _, bg'. split; [reflexivity |]. cbn [ls_image ls_store ls_console
      ls_last_print_time nose_line].
    rewrite lookup_insert_eq, app_nil_r.
    exact (conj eq_refl (conj eq_refl (conj Hcam' (conj Hsame
             (conj Hstore (conj Hdom (conj eq_refl eq_refl))))))).
Qed.

(** The loop over the faces either returns, with the frame object and the
    console as described, or raises what the transform raised for one of
    the faces. *)
Lemma faces_loop_with_cases (transform : point → point → outcome image)
    (current_time : b64) (faces : list face) :
  (∀ l r tr, transform l r = Ret tr → wf_shape tr ∧ (3 < shape_c tr)%nat) →
  ∀ (s : loop_state) (bg : image),
  ls_store s !! ls_image s = Some bg → camera_frame bg →
  match faces_loop_with transform current_time s faces with
  | Ret s' =>
      ∃ bg',
        ls_image s' = ls_image s
        ∧ ls_store s' !! ls_image s = Some bg'
        ∧ camera_frame bg' ∧ same_shape bg' bg
        ∧ (∀ l, l ∈ dom (ls_store s) → l ≠ ls_image s →
                ls_store s' !! l = ls_store s !! l)
        ∧ dom (ls_store s) ⊆ dom (ls_store s')
        ∧ ls_console s'
          = ls_console s
            ++ nose_line (print_due current_time (ls_last_print_time s)) faces
  | Raise e =>
      ∃ f, f ∈ faces
           ∧ transform (face_left_eye f) (face_right_eye f) = Raise e
  end.
Proof.
  intros Htrans. induction faces as [|f faces IH]; intros s bg Hbg Hcam.
  - cbn [faces_loop_with nose_line]. exists bg. rewrite app_nil_r.
    split; [done |]. split; [done |]. split; [done |].
    split; [by split |]. split; [by intros |]. by split.
  - cbn [faces_loop_with].
    destruct (transform (face_left_eye f) (face_right_eye f)) as [tr|e] eqn:Htr.
    2:{ unfold face_body_with. rewrite Htr. cbn [mbind outcome_bind].
        exists f. split; [apply elem_of_cons; by left | exact Htr]. }
    destruct (Htrans _ _ _ Htr) as [Hwt Hct].
    destruct (face_body_with_run transform current_time s f bg tr
                Htr Hwt Hct Hbg Hcam)
      as (s1 & bg1 & Hrun1 & Him1 & Hbg1 & Hcam1 & Hsame1 & Hkeep1 & Hdom1
          & Hcon1 & Hlast1).
    rewrite Hrun1. cbn [mbind outcome_bind].
    rewrite <- Him1 in Hbg1.
    specialize (IH s1 bg1 Hbg1 Hcam1).
    destruct (faces_loop_with transform current_time s1 faces) as [s2|e].
    + destruct IH as (bg2 & Him2 & Hbg2 & Hcam2 & Hsame2 & Hkeep2 & Hdom2
                      & Hcon2).
      exists bg2. split; [congruence |]. split; [by rewrite <- Him1 |].
      split; [done |]. split; [by eapply same_shape_trans |].
      split; [| split; [by etrans |]].
      { intros l Hl Hne. rewrite Hkeep2; [by apply Hkeep1 | by apply Hdom1 |].
        by rewrite Him1. }
      assert (Hquiet : nose_line (print_due current_time (ls_last_print_time s1))
                         faces
                       = if print_due current_time (ls_last_print_time s)
                         then [] else nose_line false faces).
      { rewrite Hlast1.
        destruct (print_due current_time (ls_last_print_time s)) eqn:Hdue.
        - rewrite print_due_same. by destruct faces.
        - by rewrite Hdue. }
      assert (Hnone : nose_line false faces = []) by (by destruct faces).
      rewrite Hcon2, Hcon1, Hquiet, Hnone, (nose_line_cons _ f faces).
      destruct (print_due current_time (ls_last_print_time s));
        by rewrite <- app_assoc, ?app_nil_r.
    + destruct IH as (f' & Hin & Hraise). exists f'.
      split; [apply elem_of_cons; by right | exact Hraise].
Qed.

(** ** The camera loop when the transform can raise *)

Lemma frame_iteration_with_failed (transform : point → point → outcome image)
    (s : session) (cap : capture) :
  cap_success cap = false →
  frame_iteration_with transform s cap
  = Ret (Session (se_store s) (se_last_print_time s)
                 (se_console s ++ [IgnoredFrame]) (se_shown s)).
Proof. intros H. unfold frame_iteration_with. by rewrite H. Qed.

Lemma frame_iteration_with_cases (transform : point → point → outcome image)
    (s : session) (cap : capture) :
  (∀ l r tr, transform l r = Ret tr → wf_shape tr ∧ (3 < shape_c tr)%nat) →
  cap_success cap = true → camera_frame (cap_image cap) →
  match frame_iteration_with transform s cap with
  | Ret s' =>
      ∃ shown,
        se_shown s' = se_shown s ++ [shown]
        ∧ camera_frame shown ∧ same_shape shown (cap_image cap)
        ∧ se_console s'
          = se_console s
            ++ nose_line (print_due (cap_time cap) (se_last_print_time s))
                         (cap_faces cap)
  | Raise e =>
      ∃ f, f ∈ cap_faces cap
           ∧ transform (face_left_eye f) (face_right_eye f) = Raise e
  end.
Proof.
  intros Htrans Hok Hcam.
  pose proof (camera_frame_flip _ Hcam) as Hflip.
  destruct (colour_round_trip (flip_horizontal (cap_image cap))
              (proj1 Hflip) (proj2 (proj2 Hflip))) as (rgb & Hrgb & Hbgr).
  unfold frame_iteration_with. rewrite Hok. cbn [negb].
  rewrite Hrgb. cbn [mbind outcome_bind]. rewrite Hbgr.
  cbn [mbind outcome_bind].
  set (a := fresh (dom (se_store s))).
  set (ls0 := LoopState (<[a := flip_horizontal (cap_image cap)]> (se_store s)) a
                        (se_last_print_time s) (se_console s)).
  pose proof (faces_loop_with_cases transform (cap_time cap) (cap_faces cap)
                Htrans ls0 (flip_horizontal (cap_image cap))) as Hloop.
  destruct (faces_loop_with transform (cap_time cap) ls0 (cap_faces cap))
    as [ls|e].
  - destruct Hloop as (bg' & Him & Hbg' & Hcam' & Hsame & _ & _ & Hcon).
    { unfold ls0. cbn [ls_store ls_image]. by rewrite lookup_insert_eq. }
    { exact Hflip. }
    cbn [mbind outcome_bind]. unfold deref. rewrite Him.
    unfold ls0 at 1. cbn [ls_image].
    unfold ls0 in Hbg'. cbn [ls_image] in Hbg'. rewrite Hbg'.
    cbn [se_shown se_console]. exists bg'.
    split; [done |]. split; [done |]. split; [exact Hsame | exact Hcon].
  - cbn [mbind outcome_bind]. apply Hloop.
    + unfold ls0. cbn [ls_store ls_image]. by rewrite lookup_insert_eq.
    + exact Hflip.
Qed.

Lemma camera_loop_with_cases (transform : point → point → outcome image)
    (caps : list capture) :
  (∀ l r tr, transform l r = Ret tr → wf_shape tr ∧ (3 < shape_c tr)%nat) →
  Forall (λ cap, cap_success cap = true → camera_frame (cap_image cap)) caps →
  ∀ s : session,
  match camera_loop_with transform s caps with
  | Ret s' =>
      ∃ news lines,
        se_shown s' = se_shown s ++ news
        ∧ se_console s' = se_console s ++ lines
        ∧ Forall2 (λ shown cap,
                     camera_frame shown ∧ same_shape shown (cap_image cap))
                  news (List.filter cap_success caps)
        ∧ length (List.filter is_ignored_frame lines)
          = length (List.filter (λ cap, negb (cap_success cap)) caps)
        ∧ (length (List.filter is_nose_tip lines)
           ≤ length (List.filter has_face caps))%nat
  | Raise e =>
      ∃ cap f, cap ∈ caps ∧ cap_success cap = true ∧ f ∈ cap_faces cap
               ∧ transform (face_left_eye f) (face_right_eye f) = Raise e
  end.
Proof.
  intros Htrans. induction 1 as [|cap caps Hcap _ IH]; intros s.
  - cbn [camera_loop_with List.filter length]. exists [], [].
    rewrite !app_nil_r.
    split; [done |]. split; [done |]. split; [apply Forall2_nil_2 |].
    split; [reflexivity | cbn; lia].
  - cbn [camera_loop_with]. destruct (cap_success cap) eqn:Hok.
    + pose proof (frame_iteration_with_cases transform s cap Htrans Hok
                    (Hcap eq_refl)) as Hstep.
      destruct (frame_iteration_with transform s cap) as [s1|e].
      2:{ cbn [mbind outcome_bind]. destruct Hstep as (f & Hin & Hraise).
          exists cap, f. split; [apply elem_of_cons; by left | done]. }
      destruct Hstep as (shown & Hshown1 & Hcam1 & Hsame1 & Hcon1).
      cbn [mbind outcome_bind]. specialize (IH s1).
      destruct (camera_loop_with transform s1 caps) as [s2|e].
      2:{ destruct IH as (cap' & f & Hin & Hok' & Hf & Hraise).
          exists cap', f. split; [apply elem_of_cons; by right | done]. }
      destruct IH as (news & lines & Hshown2 & Hcon2 & Hall & Hign & Hnose).
      exists (shown :: news),
        (nose_line (print_due (cap_time cap) (se_last_print_time s))
                   (cap_faces cap) ++ lines).
      split; [by rewrite Hshown2, Hshown1, <- app_assoc |].
      split; [by rewrite Hcon2, Hcon1, <- app_assoc |].
      pose proof (nose_line_counts
                    (print_due (cap_time cap) (se_last_print_time s))
                    (cap_faces cap)) as [Hn0 Hn1].
      cbn [List.filter]. unfold has_face at 1. rewrite Hok. cbn [negb andb].
      rewrite !List.filter_app, !length_app, Hn0.
      split; [by constructor |]. split; [exact Hign |].
      destruct (cap_faces cap); cbn [length] in *; lia.
    + rewrite (frame_iteration_with_failed _ _ _ Hok).
      cbn [mbind outcome_bind].
      specialize (IH (Session (se_store s) (se_last_print_time s)
                              (se_console s ++ [IgnoredFrame]) (se_shown s))).
      destruct (camera_loop_with transform _ caps) as [s2|e].
      2:{ destruct IH as (cap' & f & Hin & Hok' & Hf & Hraise).
          exists cap', f. split; [apply elem_of_cons; by right | done]. }
      destruct IH as (news & lines & Hshown2 & Hcon2 & Hall & Hign & Hnose).
      exists news, (IgnoredFrame :: lines).
      cbn [se_shown se_console] in Hshown2, Hcon2.
      split; [exact Hshown2 |].
      split; [by rewrite Hcon2, <- app_assoc |].
      cbn [List.filter is_ignored_frame is_nose_tip length].
      unfold has_face at 1. rewrite Hok. cbn [negb andb length].
      split; [exact Hall |]. split; [by rewrite Hign | exact Hnose].
Qed.

(** ** What the transform returns and raises *)

Lemma transformed_sunglasses_f64_returns (lib : libraries)
    (sunglasses_img : image) (l r : point) (tr : image) :
  warpAffine_keeps_channels lib → wf_shape sunglasses_img →
  transformed_sunglasses_f64 lib sunglasses_img l r = Ret tr →
  wf_shape tr ∧ shape_c tr = shape_c sunglasses_img.
Proof.
  intros Hlib Hwf. unfold transformed_sunglasses_f64, rotate_and_scale_image_f64.
  destruct (rotation_canvas_f64 _ _ _) as [cv|e]; [| done].
  cbn [mbind outcome_bind]. by apply Hlib.
Qed.

(** The transform raises at [int()], on a canvas extent that is not a finite
    number, or where [cv2.warpAffine] raises. *)
Lemma rotate_and_scale_image_f64_raises (lib : libraries) (img : image)
    (angle scale : b64) (e : exn) :
  rotate_and_scale_image_f64 lib img angle scale = Raise e →
  let M := cv2_getRotationMatrix2D lib
             (Z.of_nat (shape_w img) / 2, Z.of_nat (shape_h img) / 2)
             angle scale in
  let cv := rotation_canvas_f64 (Z.of_nat (shape_h img))
                                (Z.of_nat (shape_w img)) M in
  (cv = Raise e ∧ (e = ValueError ∨ e = OverflowError))
  ∨ (∃ dsize M', cv = Ret (dsize, M')
                 ∧ cv2_warpAffine lib img M' dsize = Raise e).
Proof.
  intros Hraise M cv. unfold rotate_and_scale_image_f64 in Hraise.
  fold M cv in Hraise.
  destruct cv as [[dsize M']|e'] eqn:Hcv.
  - right. by exists dsize, M'.
  - left. cbn [mbind outcome_bind] in Hraise. injection Hraise as ->.
    split; [done |]. unfold cv, rotation_canvas_f64 in Hcv.
    destruct (b64_add (b64_mul (b64_of_Z _) (SFabs (f01 M))) _) as [?|?| |? ? ?];
      cbn [int_of_float mbind outcome_bind] in Hcv;
      try (injection Hcv as <-; by eauto).
    all: destruct (b64_add (b64_mul (b64_of_Z _) (SFabs (f00 M))) _)
           as [?|?| |? ? ?];
      cbn [int_of_float mbind outcome_bind] in Hcv;
      try discriminate Hcv; injection Hcv as <-; by eauto.
Qed.

(** ** The two readings of the loop *)

(** The loop with the library routines given their documented meaning is
    the loop above with a transform that always returns. *)
Lemma faces_loop_with_documented (sunglasses_img : image) (current_time : b64)
    (faces : list face) (s : loop_state) :
  faces_loop_with (λ l r, Ret (transformed_sunglasses sunglasses_img l r))
                  current_time s faces
  = faces_loop sunglasses_img current_time s faces.
Proof.
  revert s. induction faces as [|f faces IH]; intros s; [reflexivity |].
  cbn [faces_loop_with faces_loop].
  change (face_body_with (λ l r, Ret (transformed_sunglasses sunglasses_img l r))
                         current_time s f)
    with (face_body sunglasses_img current_time s f).
  destruct (face_body sunglasses_img current_time s f) as [s1|e];
    [apply IH | reflexivity].
Qed.

Lemma camera_loop_with_documented (sunglasses_img : image)
    (caps : list capture) (s : session) :
  camera_loop_with (λ l r, Ret (transformed_sunglasses sunglasses_img l r))
                   s caps
  = camera_loop sunglasses_img s caps.
Proof.
  revert s. induction caps as [|cap caps IH]; intros s; [reflexivity |].
  cbn [camera_loop_with camera_loop].
  assert (E : frame_iteration_with
                (λ l r, Ret (transformed_sunglasses sunglasses_img l r)) s cap
              = frame_iteration sunglasses_img s cap).
  { unfold frame_iteration_with, frame_iteration.
    destruct (negb (cap_success cap)); [reflexivity |].
    destruct (cvtColor_BGR2RGB _) as [rgb|e]; [| reflexivity].
    cbn [mbind outcome_bind].
    destruct (cvtColor_RGB2BGR rgb) as [image|e]; [| reflexivity].
    cbn [mbind outcome_bind]. by rewrite faces_loop_with_documented. }
  rewrite E.
  destruct (frame_iteration sunglasses_img s cap) as [s1|e];
    [apply IH | reflexivity].
Qed.

Lemma wf_shape_blank (h w c : nat) : wf_shape (blank h w c).
Proof.
  split; cbn [blank data shape_h shape_w shape_c].
  - apply length_replicate.
  - apply Forall_replicate. split; [apply length_replicate |].
    apply Forall_replicate. apply length_replicate.
Qed.

Lemma upright_library_keeps_channels : warpAffine_keeps_channels upright_library.
Proof.
  intros img M dsize out _. cbn [upright_library cv2_warpAffine].
  destruct (_ || _); intros [= <-]; (split; [apply wf_shape_blank | done]).
Qed.

Lemma wf_empty_asset : wf_shape empty_asset.
Proof. solve_wf. Qed.

Lemma transform_raises_intro (lib : libraries) (sunglasses_img : image)
    (f : face) (e : exn) :
  transformed_sunglasses_f64 lib sunglasses_img
    (face_left_eye f) (face_right_eye f) = Raise e →
  transform_raises lib sunglasses_img f e.
Proof.
  intros H. split; [exact H |].
  unfold transformed_sunglasses_f64 in H.
  destruct (rotate_and_scale_image_f64_raises _ _ _ _ _ H)
    as [[_ [-> | ->]]|(dsize & M' & _ & Hw)]; eauto.
Qed.

Lemma transform_returns_overlay (lib : libraries) (sunglasses_img : image) :
  warpAffine_keeps_channels lib → wf_shape sunglasses_img →
  shape_c sunglasses_img = 4%nat →
  ∀ l r tr, transformed_sunglasses_f64 lib sunglasses_img l r = Ret tr →
            wf_shape tr ∧ (3 < shape_c tr)%nat.
Proof.
  intros Hlib Hwf Hc l r tr Htr.
  destruct (transformed_sunglasses_f64_returns lib _ l r tr Hlib Hwf Htr)
    as [Hwt Hct].
  split; [done | rewrite Hct, Hc; lia].
Qed.

(** X15: with numpy and OpenCV as parameters, of which only that a
    returned warp is a well-formed array with the channels of its source is
    assumed: on a camera frame and a well-formed four-channel asset, with
    eye centres that are pixel coordinates, the loop
    over the detected faces either returns, handing back the same frame
    object, still a well-formed three-channel array of bytes of the same
    shape, with every other array in the store as it was; or it raises the
    exception the transform raised for one of the faces, which is the
    ValueError or OverflowError of [int()] on a canvas extent that is not a
    finite number, or what [cv2.warpAffine] raised. The compositor itself
    never raises in the loop. *)
Theorem faces_loop_raises_only_in_the_transform (lib : libraries)
    (sunglasses_img : image) (current_time : b64) (s : loop_state)
    (faces : list face) (bg : image) :
  warpAffine_keeps_channels lib →
  wf_shape sunglasses_img → shape_c sunglasses_img = 4%nat →
  Forall pixel_coordinates faces →
  ls_store s !! ls_image s = Some bg → camera_frame bg →
  match faces_loop_with (transformed_sunglasses_f64 lib sunglasses_img)
                        current_time s faces with
  | Ret s' =>
      ∃ bg',
        ls_image s' = ls_image s
        ∧ ls_store s' !! ls_image s = Some bg'
        ∧ camera_frame bg' ∧ same_shape bg' bg
        ∧ ∀ l, l ∈ dom (ls_store s) → l ≠ ls_image s →
               ls_store s' !! l = ls_store s !! l
  | Raise e => ∃ f, f ∈ faces ∧ transform_raises lib sunglasses_img f e
  end.
Proof.
  intros Hlib Hwf Hc _ Hbg Hcam.
  pose proof (faces_loop_with_cases
                (transformed_sunglasses_f64 lib sunglasses_img) current_time
                faces (transform_returns_overlay lib _ Hlib Hwf Hc) s bg
                Hbg Hcam) as H.
  destruct (faces_loop_with _ current_time s faces) as [s'|e].
  - destruct H as (bg' & Him & Hbg' & Hcam' & Hsame & Hkeep & _).
    by exists bg'.
  - destruct H as (f & Hin & Hraise). exists f.
    split; [exact Hin | by apply transform_raises_intro].
Qed.

Lemma faces_loop_raises_only_in_the_transform_witness :
  let s := LoopState store0 1%positive (S754_zero false) [] in
  let f := Face (0, 1) (2, 1)
                (Landmark (b64_of_Z 0) (b64_of_Z 0) (b64_of_Z 0)) in
  (∃ s' bg',
     faces_loop_with (transformed_sunglasses_f64 upright_library overlay22)
                     (b64_of_Z 5) s [f] = Ret s'
     ∧ ls_image s' = 1%positive
     ∧ ls_store s' !! 1%positive = Some bg'
     ∧ camera_frame bg' ∧ same_shape bg' frame23)
  ∧ faces_loop_with (transformed_sunglasses_f64 upright_library empty_asset)
                    (b64_of_Z 5) s [f] = Raise ValueError.
Proof.
  intros s f.
  assert (Hpx : Forall pixel_coordinates [f]).
  { apply Forall_cons; split; [| apply Forall_nil_2].
    unfold pixel_coordinates. cbn. lia. }
  split.
  - pose proof (faces_loop_raises_only_in_the_transform upright_library
                  overlay22 (b64_of_Z 5) s [f] frame23
                  upright_library_keeps_channels wf_overlay22 eq_refl Hpx
                  eq_refl (conj wf_frame23 (conj uint8_frame23 eq_refl))) as H.
    destruct (faces_loop_with _ (b64_of_Z 5) s [f]) as [s'|e].
    + destruct H as (bg' & Him & Hbg' & Hcam' & Hsame & _).
      by exists s', bg'.
    + destruct H as (f' & Hin & Hraise & _).
      apply list_elem_of_singleton in Hin. subst f'.
      vm_compute in Hraise. discriminate Hraise.
  - pose proof (faces_loop_raises_only_in_the_transform upright_library
                  empty_asset (b64_of_Z 5) s [f] frame23
                  upright_library_keeps_channels wf_empty_asset eq_refl Hpx
                  eq_refl (conj wf_frame23 (conj uint8_frame23 eq_refl))) as H.
    destruct (faces_loop_with _ (b64_of_Z 5) s [f]) as [s'|e] eqn:E.
    + vm_compute in E. discriminate E.
    + destruct H as (f' & Hin & Hraise & _).
      apply list_elem_of_singleton in Hin. subst f'.
      vm_compute in Hraise. by injection Hraise as <-.
Defined.

Lemma shape_c_loaded (img : image) :
  shape_c img = 3%nat ∨ shape_c img = 4%nat → shape_c (loaded img) = 4%nat.
Proof. unfold loaded. by intros [-> | ->]. Qed.

(** X18: with numpy and OpenCV as parameters, of which only that a
    returned warp is a well-formed array with the channels of its source is
    assumed: when every frame the camera delivers is a well-formed
    three-channel array of bytes and not empty, the eye centres of its
    faces are pixel coordinates and the asset is well formed with four
    channels, the camera loop either runs to the end, and has then shown
    exactly one image per delivered frame, in order and of that frame's
    shape, printed the ignored-frame line once per failed read and at most
    one nose-tip line per frame with a face; or it raises the exception the
    transform raised for a face of a delivered frame. *)
Theorem camera_loop_raises_only_in_the_transform (lib : libraries)
    (sunglasses_img : image) (caps : list capture) :
  warpAffine_keeps_channels lib →
  wf_shape sunglasses_img → shape_c sunglasses_img = 4%nat →
  Forall (λ cap, cap_success cap = true → camera_frame (cap_image cap)) caps →
  Forall camera_turn caps →
  match camera_loop_with (transformed_sunglasses_f64 lib sunglasses_img)
                         initial_session caps with
  | Ret s' =>
      Forall2 (λ shown cap,
                 camera_frame shown ∧ same_shape shown (cap_image cap))
              (se_shown s') (List.filter cap_success caps)
      ∧ length (List.filter is_ignored_frame (se_console s'))
        = length (List.filter (λ cap, negb (cap_success cap)) caps)
      ∧ (length (List.filter is_nose_tip (se_console s'))
         ≤ length (List.filter has_face caps))%nat
  | Raise e =>
      ∃ cap f, cap ∈ caps ∧ cap_success cap = true ∧ f ∈ cap_faces cap
               ∧ transform_raises lib sunglasses_img f e
  end.
Proof.
  intros Hlib Hwf Hc Hcaps _.
  pose proof (camera_loop_with_cases
                (transformed_sunglasses_f64 lib sunglasses_img) caps
                (transform_returns_overlay lib _ Hlib Hwf Hc) Hcaps
                initial_session) as H.
  destruct (camera_loop_with _ initial_session caps) as [s'|e].
  - destruct H as (news & lines & Hshown & Hcon & Hall & Hign & Hnose).
    cbn [initial_session se_shown se_console app] in Hshown, Hcon.
    rewrite Hshown, Hcon. by repeat split.
  - destruct H as (cap & f & Hin & Hok & Hf & Hraise). exists cap, f.
    split; [done |]. split; [done |]. split; [done |].
    by apply transform_raises_intro.
Qed.

Lemma camera_loop_raises_only_in_the_transform_witness :
  let nose := Landmark (b64_of_Z 1) (b64_of_Z 0) (b64_of_Z 0) in
  let caps := [Capture false frame23 (b64_of_Z 4) [];
               Capture true frame23 (b64_of_Z 5) [Face (0, 1) (2, 1) nose];
               Capture true frame23 (b64_of_Z 6) []] in
  (∃ s',
     camera_loop_with (transformed_sunglasses_f64 upright_library overlay22)
                      initial_session caps = Ret s'
     ∧ length (se_shown s') = 2%nat
     ∧ length (List.filter is_ignored_frame (se_console s')) = 1%nat
     ∧ (length (List.filter is_nose_tip (se_console s')) ≤ 1)%nat)
  ∧ camera_loop_with (transformed_sunglasses_f64 upright_library empty_asset)
                     initial_session caps = Raise ValueError.
Proof.
  intros nose caps.
  assert (Hcaps : Forall (λ cap, cap_success cap = true
                                 → camera_frame (cap_image cap)) caps).
  { repeat (apply Forall_cons; split;
              [intros _; exact (conj wf_frame23 (conj uint8_frame23 eq_refl)) |]).
    apply Forall_nil_2. }
  assert (Hpx : Forall camera_turn caps).
  { repeat (apply Forall_cons; split;
              [split;
               [intros _; cbn; lia
               |repeat (apply Forall_cons; split;
                          [unfold pixel_coordinates; cbn; lia |]);
                apply Forall_nil_2] |]).
    apply Forall_nil_2. }
  split.
  - pose proof (camera_loop_raises_only_in_the_transform upright_library
                  overlay22 caps upright_library_keeps_channels wf_overlay22
                  eq_refl Hcaps Hpx) as H.
    destruct (camera_loop_with _ initial_session caps) as [s'|e].
    + destruct H as (Hall & Hign & Hnose). exists s'.
      split; [done |]. split; [exact (Forall2_length _ _ _ Hall) |].
      split; [exact Hign | exact Hnose].
    + destruct H as (cap & f & Hin & Hok & Hf & Hraise & _).
      unfold caps in Hin.
      repeat (apply elem_of_cons in Hin as [->|Hin]);
        try (by apply elem_of_nil in Hin);
        cbn [cap_faces] in Hf; try (by apply elem_of_nil in Hf).
      apply list_elem_of_singleton in Hf. subst f.
      vm_compute in Hraise. discriminate Hraise.
  - pose proof (camera_loop_raises_only_in_the_transform upright_library
                  empty_asset caps upright_library_keeps_channels
                  wf_empty_asset eq_refl Hcaps Hpx) as H.
    destruct (camera_loop_with _ initial_session caps) as [s'|e] eqn:E.
    + vm_compute in E. discriminate E.
    + destruct H as (cap & f & Hin & Hok & Hf & Hraise & _).
      unfold caps in Hin.
      repeat (apply elem_of_cons in Hin as [->|Hin]);
        try (by apply elem_of_nil in Hin);
        cbn [cap_faces] in Hf; try (by apply elem_of_nil in Hf).
      apply list_elem_of_singleton in Hf. subst f.
      vm_compute in Hraise. by injection Hraise as <-.
Defined.

(** X20: an asset decoded with three or four channels comes out of the
    loader as a well-formed overlay with four channels; on it, for camera
    frames that are not empty and whose faces have pixel coordinates as eye
    centres, the camera
    loop either shows one image per frame the camera delivers or raises the
    exception the transform raised for a detected face. The loader's output
    never makes the compositor raise. *)
Theorem loaded_asset_in_the_camera_loop (lib : libraries) (img : image)
    (caps : list capture) :
  warpAffine_keeps_channels lib →
  wf_shape img → shape_c img = 3%nat ∨ shape_c img = 4%nat →
  Forall (λ cap, cap_success cap = true → camera_frame (cap_image cap)) caps →
  Forall camera_turn caps →
  ∃ sunglasses_img,
    load_sunglasses_with_alpha (Some (Arr3 img)) = Ret (Some sunglasses_img)
    ∧ wf_shape sunglasses_img ∧ shape_c sunglasses_img = 4%nat
    ∧ match camera_loop_with (transformed_sunglasses_f64 lib sunglasses_img)
                             initial_session caps with
      | Ret s' => length (se_shown s') = length (List.filter cap_success caps)
      | Raise e =>
          ∃ cap f, cap ∈ caps ∧ f ∈ cap_faces cap
                   ∧ transform_raises lib sunglasses_img f e
      end.
Proof.
  intros Hlib Hwf Hc Hcaps _.
  assert (Hc3 : (3 ≤ shape_c img)%nat) by (destruct Hc; lia).
  pose proof (wf_shape_loaded img Hwf Hc3) as Hwl.
  pose proof (shape_c_loaded img Hc) as Hcl.
  exists (loaded img). split; [by apply load_loaded |].
  split; [exact Hwl |]. split; [exact Hcl |].
  pose proof (camera_loop_with_cases
                (transformed_sunglasses_f64 lib (loaded img)) caps
                (transform_returns_overlay lib _ Hlib Hwl Hcl) Hcaps
                initial_session) as H.
  destruct (camera_loop_with _ initial_session caps) as [s'|e].
  - destruct H as (news & lines & Hshown & _ & Hall & _).
    rewrite Hshown. cbn [initial_session se_shown app].
    by eapply Forall2_length.
  - destruct H as (cap & f & Hin & Hok & Hf & Hraise). exists cap, f.
    split; [done |]. split; [done |]. by apply transform_raises_intro.
Qed.

Lemma loaded_asset_in_the_camera_loop_witness :
  let nose := Landmark (b64_of_Z 1) (b64_of_Z 0) (b64_of_Z 0) in
  let caps := [Capture true frame23 (b64_of_Z 5) [Face (0, 1) (2, 1) nose];
               Capture false frame23 (b64_of_Z 6) []] in
  ∃ sunglasses_img s',
    load_sunglasses_with_alpha (Some (Arr3 white_dark)) = Ret (Some sunglasses_img)
    ∧ shape_c sunglasses_img = 4%nat
    ∧ camera_loop_with
        (transformed_sunglasses_f64 upright_library sunglasses_img)
        initial_session caps = Ret s'
    ∧ length (se_shown s') = 1%nat.
Proof.
  intros nose caps.
  assert (Hcaps : Forall (λ cap, cap_success cap = true
                                 → camera_frame (cap_image cap)) caps).
  { repeat (apply Forall_cons; split;
              [intros _; exact (conj wf_frame23 (conj uint8_frame23 eq_refl)) |]).
    apply Forall_nil_2. }
  assert (Hpx : Forall camera_turn caps).
  { repeat (apply Forall_cons; split;
              [split;
               [intros _; cbn; lia
               |repeat (apply Forall_cons; split;
                          [unfold pixel_coordinates; cbn; lia |]);
                apply Forall_nil_2] |]).
    apply Forall_nil_2. }
  destruct (loaded_asset_in_the_camera_loop upright_library white_dark caps
              upright_library_keeps_channels wf_white_dark
              (or_introl eq_refl) Hcaps Hpx)
    as (asset & Hload & _ & Hc & Hloop).
  exists asset.
  destruct (camera_loop_with _ initial_session caps) as [s'|e].
  - by exists s'.
  - exfalso. destruct Hloop as (cap & f & Hin & Hf & Hraise & _).
    vm_compute in Hload. injection Hload as <-.
    unfold caps in Hin.
    repeat (apply elem_of_cons in Hin as [->|Hin]);
      try (by apply elem_of_nil in Hin);
      cbn [cap_faces] in Hf; try (by apply elem_of_nil in Hf).
    apply list_elem_of_singleton in Hf. subst f.
    vm_compute in Hraise. discriminate Hraise.
Defined.

